(** * Symbol-extraction pass and file cache of intelephense: a shallow embedding

    The development follows the TypeScript sources: [cache.ts] (the on-disk
    bucket cache) and the symbol reader (the [SymbolsPass] visitor, its
    transformer classes, [UniqueSymbolCollection] and the [SymbolReader]
    namespace).  JavaScript objects that the code mutates in place and
    shares (a [Reference] is held both by a transformer and by the
    [reference] slot of its node) live in an explicit store.

    Part I holds the definitions, Part II the properties. *)

From Stdlib Require Import ZArith Ascii String List.
From stdpp Require Import gmap strings list.

Set Warnings "-register-all".

Open Scope string_scope.
Open Scope list_scope.

(** * Part I: the program *)

(** ** JavaScript values the code relies on *)

Module Js.

(** [String.prototype.toLowerCase], on the ASCII range. *)
Definition is_upper (c : ascii) : bool :=
  let n := nat_of_ascii c in (65 <=? n)%nat && (n <=? 90)%nat.

Definition lower_ascii (c : ascii) : ascii :=
  if is_upper c then ascii_of_nat (nat_of_ascii c + 32) else c.

Fixpoint toLowerCase (s : string) : string :=
  match s with
  | EmptyString => EmptyString
  | String c r => String (lower_ascii c) (toLowerCase r)
  end.

(** [s.slice(1)]. *)
Definition slice_1 (s : string) : string :=
  match s with
  | EmptyString => EmptyString
  | String _ r => r
  end.

(** [s.slice(1, -1)]: the string without its first and its last
    character. *)
Definition slice_1_m1 (s : string) : string :=
  string_of_list_ascii (removelast (list_ascii_of_string (slice_1 s))).

(** A string is truthy when it is not empty. *)
Definition truthy (s : string) : bool :=
  match s with
  | EmptyString => false
  | String _ _ => true
  end.

(** [s[0] === c]; false on the empty string, whose [s[0]] is
    [undefined]. *)
Definition first_is (c : ascii) (s : string) : bool :=
  match s with
  | EmptyString => false
  | String a _ => Ascii.eqb a c
  end.

(** Property names that every object literal inherits from
    [Object.prototype]: [o[k]] is defined (and truthy) for them although
    [o] has no such key of its own. *)
Definition object_prototype_keys : list string :=
  [ "constructor"; "__defineGetter__"; "__defineSetter__"; "hasOwnProperty";
    "__lookupGetter__"; "__lookupSetter__"; "isPrototypeOf";
    "propertyIsEnumerable"; "toString"; "valueOf"; "__proto__";
    "toLocaleString" ].

Definition inherited (k : string) : bool :=
  bool_decide (k ∈ object_prototype_keys).

(** The outcome of a synchronous call: it returns, or it throws.  The
    only exception the modelled code can raise is the [TypeError] of a
    property access on [undefined] or [null]. *)
Inductive completion (A : Type) : Type :=
| Return (a : A)
| TypeError (what : string).
Arguments Return {A} a.
Arguments TypeError {A} what.

#[global] Instance completion_ret : MRet completion := λ A a, Return a.
#[global] Instance completion_bind : MBind completion := λ A B k c,
  match c with
  | Return a => k a
  | TypeError what => TypeError what
  end.

(** A settled promise. *)
Inductive Promise (A : Type) : Type :=
| Resolved (a : A)
| Rejected (message : string).
Arguments Resolved {A} a.
Arguments Rejected {A} message.

End Js.


(** ** cache.ts *)

Module Cache.

Import Js.

(** A bucket file is named by the hexadecimal rendering of a number; the
    rendering is injective, so a file is identified by that number. *)
Definition FilePath := Z.

Section FileCache.

(** [any]: the data handed to [write], as far as [JSON.stringify] and
    [JSON.parse] carry it unchanged. *)
Context {V : Type}.

(** [util.hash32]. *)
Variable hash32 : string → Z.

Definition Item : Type := string * V.
Definition Bucket : Type := list Item.

(** The directory [this.path]: the bucket files it holds, and the files
    on which a file-system call fails with an error other than [ENOENT],
    with the message of that error. *)
Record Directory : Type := mkDirectory {
  files : gmap Z Bucket;
  errors : gmap Z string
}.

Definition writeFile (filePath : FilePath) (bucket : Bucket) (d : Directory)
  : Promise unit * Directory :=
  match errors d !! filePath with
  | Some message => (Rejected message, d)
  | None => (Resolved tt, mkDirectory (<[filePath := bucket]> (files d)) (errors d))
  end.

Definition deleteFile (filePath : FilePath) (d : Directory)
  : Promise unit * Directory :=
  match errors d !! filePath with
  | Some message => (Rejected message, d)
  | None => (Resolved tt, mkDirectory (base.delete filePath (files d)) (errors d))
  end.

(** Resolves to [None] ([undefined]) when the file does not exist. *)
Definition readFile (filePath : FilePath) (d : Directory) : Promise (option Bucket) :=
  match errors d !! filePath with
  | Some message => Rejected message
  | None => Resolved (files d !! filePath)
  end.

Definition bucketFind (bucket : Bucket) (key : string) : option Item :=
  List.find (λ i, String.eqb (fst i) key) bucket.

Definition bucketRemove (bucket : Bucket) (key : string) : Bucket :=
  List.filter (λ b, negb (String.eqb (fst b) key)) bucket.

Definition _filePath (key : string) : FilePath := Z.abs (hash32 key).

(** [read] resolves to [None] for [undefined]. *)
Definition read (key : string) (d : Directory) : Promise (option V) :=
  match readFile (_filePath key) d with
  | Rejected message => Rejected message
  | Resolved b =>
      match b with
      | Some b =>
          match bucketFind b key with
          | Some item => Resolved (Some (snd item))
          | None => Resolved None
          end
      | None => Resolved None
      end
  end.

Definition write (key : string) (data : V) (d : Directory)
  : Promise unit * Directory :=
  let filePath := _filePath key in
  match readFile filePath d with
  | Rejected message => (Rejected message, d)
  | Resolved b =>
      let b :=
        match b with
        | Some b => bucketRemove b key ++ [(key, data)]
        | None => [(key, data)]
        end in
      writeFile filePath b d
  end.

Definition delete (key : string) (d : Directory) : Promise unit * Directory :=
  let filePath := _filePath key in
  match readFile filePath d with
  | Rejected message => (Rejected message, d)
  | Resolved b =>
      match b with
      | Some b =>
          if bool_decide (is_Some (bucketFind b key)) && (1 <? length b)%nat
          then writeFile filePath (bucketRemove b key) d
          else deleteFile filePath d
      | None => (Resolved tt, d)
      end
  end.

End FileCache.

(** A 32-bit string hash of the usual shape
    ([hash = ((hash << 5) - hash) + charCode; hash |= 0]), used to
    instantiate [hash32] on concrete keys. *)
Definition to_int32 (z : Z) : Z :=
  let m := (z mod 2 ^ 32)%Z in
  if (m <? 2 ^ 31)%Z then m else (m - 2 ^ 32)%Z.

Fixpoint hash_from (hash : Z) (text : string) : Z :=
  match text with
  | EmptyString => hash
  | String c r =>
      hash_from (to_int32 (Z.shiftl hash 5 - hash + Z.of_nat (nat_of_ascii c))) r
  end.

Definition sample_hash32 (text : string) : Z := hash_from 0 text.

End Cache.

(** ** The symbol and reference model *)

(** Modelled from the spec: [symbol.ts], which declares the [SymbolKind]
    enumeration, is not among the sources.  The spec lists the kinds
    (section 3); the code combines and tests them with [|] and [&]
    ([s.kind & (SymbolKind.Parameter | SymbolKind.Variable)]) and creates
    a use symbol with kind [0], so every kind is one bit of a number and
    [None] is [0]. *)
Module SymbolKind.
Definition None : Z := 0.
Definition Class : Z := Z.shiftl 1 0.
Definition Interface : Z := Z.shiftl 1 1.
Definition Trait : Z := Z.shiftl 1 2.
Definition Constant : Z := Z.shiftl 1 3.
Definition Property : Z := Z.shiftl 1 4.
Definition Method : Z := Z.shiftl 1 5.
Definition Function : Z := Z.shiftl 1 6.
Definition Parameter_ : Z := Z.shiftl 1 7.
Definition Variable_ : Z := Z.shiftl 1 8.
Definition Namespace : Z := Z.shiftl 1 9.
Definition ClassConstant : Z := Z.shiftl 1 10.
Definition Constructor : Z := Z.shiftl 1 11.
Definition File : Z := Z.shiftl 1 12.
End SymbolKind.

(** Modelled from the spec: the [SymbolModifier] enumeration of
    [symbol.ts].  The spec describes the modifiers of a symbol as a bitset
    over these names (section 3); the code builds modifier sets with [|]
    and tests them with [&], so every modifier is one bit. *)
Module SymbolModifier.
Definition None : Z := 0.
Definition Public : Z := Z.shiftl 1 0.
Definition Protected : Z := Z.shiftl 1 1.
Definition Private : Z := Z.shiftl 1 2.
Definition Final : Z := Z.shiftl 1 3.
Definition Abstract : Z := Z.shiftl 1 4.
Definition Static : Z := Z.shiftl 1 5.
Definition ReadOnly : Z := Z.shiftl 1 6.
Definition WriteOnly : Z := Z.shiftl 1 7.
Definition Magic : Z := Z.shiftl 1 8.
Definition Anonymous : Z := Z.shiftl 1 9.
Definition Reference : Z := Z.shiftl 1 10.
Definition Variadic : Z := Z.shiftl 1 11.
Definition Use : Z := Z.shiftl 1 12.

(** [m] carries the modifier [flag]: [(m & flag) === flag]. *)
Definition has (m flag : Z) : Prop := Z.land m flag = flag.
End SymbolModifier.

(** A packed range and a packed location ([types.ts]). *)
Definition PackedRange : Type := Z * Z.

Record PackedLocation : Type := mkPackedLocation {
  uriHash : Z;
  range : PackedRange
}.

(** [reference.ts]: a reference object; a field that the code has not
    assigned is [None]. *)
Module Reference.
Record t : Type := mk {
  kind : Z;
  name : string;
  range : PackedRange;
  unresolvedName : option string;
  type : option string
}.

Definition create (kind : Z) (name : string) (range : PackedRange) : t :=
  mk kind name range Datatypes.None Datatypes.None.

Definition set_kind (k : Z) (r : t) : t :=
  mk k (name r) (range r) (unresolvedName r) (type r).
Definition set_name (n : string) (r : t) : t :=
  mk (kind r) n (range r) (unresolvedName r) (type r).
Definition set_unresolvedName (u : string) (r : t) : t :=
  mk (kind r) (name r) (range r) (Some u) (type r).
End Reference.

Record PhpSymbolDoc : Type := mkPhpSymbolDoc {
  doc_description : option string;
  doc_type : option string
}.

(** [PhpSymbol]: the fields the symbol reader assigns. *)
Inductive PhpSymbol : Type := mkPhpSymbol {
  kind : Z;
  name : string;
  location : PackedLocation;
  modifiers : Z;
  type : option string;
  value : option string;
  doc : option PhpSymbolDoc;
  children : option (list PhpSymbol)
}.

Module PhpSymbolOps.
(** [PhpSymbol.create(kind, name, location)]. *)
Definition create (kind : Z) (name : string) (location : PackedLocation) : PhpSymbol :=
  mkPhpSymbol kind name location 0 None None None None.

Definition set_modifiers (m : Z) (s : PhpSymbol) : PhpSymbol :=
  mkPhpSymbol (kind s) (name s) (location s) m (type s) (value s) (doc s) (children s).
Definition set_type (t : string) (s : PhpSymbol) : PhpSymbol :=
  mkPhpSymbol (kind s) (name s) (location s) (modifiers s) (Some t) (value s) (doc s) (children s).
Definition set_value (v : string) (s : PhpSymbol) : PhpSymbol :=
  mkPhpSymbol (kind s) (name s) (location s) (modifiers s) (type s) (Some v) (doc s) (children s).
Definition set_doc (d : PhpSymbolDoc) (s : PhpSymbol) : PhpSymbol :=
  mkPhpSymbol (kind s) (name s) (location s) (modifiers s) (type s) (value s) (Some d) (children s).
Definition set_children (c : list PhpSymbol) (s : PhpSymbol) : PhpSymbol :=
  mkPhpSymbol (kind s) (name s) (location s) (modifiers s) (type s) (value s) (doc s) (Some c).
End PhpSymbolOps.

(** ** The parse tree, as far as the pass looks at it *)

(** The phrase types the symbol reader names ([parser/phrase.ts]).
    [Unknown] is the first member of the enumeration, the number [0]. *)
Module PhraseType.
Inductive t : Type :=
| Unknown
| AnonymousClassDeclaration | AnonymousClassDeclarationHeader
| AnonymousFunctionCreationExpression | AnonymousFunctionHeader
| AnonymousFunctionUseClause | AnonymousFunctionUseVariable
| ArgumentExpressionList | CatchClause
| ClassBaseClause | ClassConstDeclaration | ClassConstElement
| ClassConstElementList | ClassConstantAccessExpression
| ClassDeclaration | ClassDeclarationBody | ClassDeclarationHeader
| ClassInterfaceClause | ClosureUseList | ConstElement
| ConstantAccessExpression
| FullyQualifiedName | FunctionCallExpression | FunctionDeclaration
| FunctionDeclarationBody | FunctionDeclarationHeader | Identifier
| InterfaceBaseClause | InterfaceDeclaration | InterfaceDeclarationBody
| InterfaceDeclarationHeader | MemberModifierList | MemberName
| MethodCallExpression | MethodDeclaration | MethodDeclarationBody
| MethodDeclarationHeader | NamespaceAliasingClause | NamespaceDefinition
| NamespaceDefinitionHeader | NamespaceName | NamespaceUseClause
| NamespaceUseDeclaration | NamespaceUseGroupClause
| ParameterDeclaration | ParameterDeclarationList
| PropertyAccessExpression | PropertyDeclaration | PropertyElement
| PropertyElementList | PropertyInitialiser | QualifiedName
| QualifiedNameList | RelativeQualifiedName | RelativeScope | ReturnType
| ScopedCallExpression | ScopedMemberName
| ScopedPropertyAccessExpression | SimpleVariable | TopStatementList
| TraitDeclaration | TraitDeclarationBody | TraitDeclarationHeader
| TraitUseClause | TypeDeclaration.

#[global] Instance eq_dec : EqDecision t.
Proof. solve_decision. Defined.
End PhraseType.

(** The token types the symbol reader names ([parser/lexer.ts]). *)
Module TokenType.
Inductive t : Type :=
| Unknown | EndOfFile
| Abstract | Array | Callable | Const | Final | Function
| Private | Protected | Public | Static
| StringLiteral | FloatingLiteral | IntegerLiteral
| Name | VariableName
| Equals | Ampersand | Ellipsis | Comma | CloseBrace | DocumentComment.

#[global] Instance eq_dec : EqDecision t.
Proof. solve_decision. Defined.
End TokenType.

(** The identity of a [Phrase] or [Token] object of the tree. *)
Definition node : Type := nat.

(** A node as [postorder] sees it: its identity and its [phraseType],
    which is [undefined] ([None]) on a token. *)
Record Node : Type := mkNode {
  node_id : node;
  phraseType : option PhraseType.t
}.

(** ** The store of reference objects *)

(** The address of a [Reference] object. *)
Definition loc : Type := nat.

(** The [reference] property of a node: one reference, or an array of
    them (whose elements may be [undefined]). *)
Inductive RefSlot : Type :=
| SlotRef (l : loc)
| SlotRefs (ls : list (option loc)).

(** The reference objects allocated so far, and the [reference] slot of
    the nodes that have one. *)
Record Store : Type := mkStore {
  refs : list Reference.t;
  slots : gmap node RefSlot
}.

Module Store_.
Definition empty : Store := mkStore [] ∅.

(** [Reference.create(...)]: a new object. *)
Definition alloc (r : Reference.t) (σ : Store) : loc * Store :=
  (length (refs σ), mkStore (refs σ ++ [r]) (slots σ)).

(** A write to the fields of the object at [l]. *)
Definition update (l : loc) (f : Reference.t → Reference.t) (σ : Store) : Store :=
  mkStore (alter f l (refs σ)) (slots σ).

Definition deref (l : loc) (σ : Store) : option Reference.t := refs σ !! l.

(** [(<ReferencePhrase>node).reference = ...]. *)
Definition assign (n : node) (s : RefSlot) (σ : Store) : Store :=
  mkStore (refs σ) (<[n := s]> (slots σ)).
End Store_.

(** ** The transformers *)

(** The transformer classes that take part in name references, member
    access and [define] calls, with the fields their class declares.  A
    transformer that holds a [Reference] holds its address. *)
Inductive NodeTransformer : Type :=
| TokenTransform (node : node) (tokenType : TokenType.t) (text : string)
    (location : PackedLocation)
| DefaultNodeTransformer (node : node) (phraseType : PhraseType.t) (text : string)
| DelimiteredListTransformer (phraseType : PhraseType.t)
    (transforms : list NodeTransformer)
| IdentifierTransformer (text : string) (location : option PackedLocation)
| NamespaceNameTransformer (node : node) (text : string) (reference : loc)
| QualifiedNameTransformer (kind : Z) (reference : option loc)
| RelativeQualifiedNameTransformer (kind : Z) (reference : option loc)
| FullyQualifiedNameTransformer (kind : Z) (reference : option loc)
| MemberNameTransform (node : node) (reference : loc)
| ScopedMemberNameTransform (node : node) (reference : loc)
| MemberAccessExpressionTransform (phraseType : PhraseType.t) (symbolKind : Z)
| SimpleVariableTransform (node : node) (location : PackedLocation)
    (symbol : option PhpSymbol) (reference : option loc)
| DefineFunctionCallExpressionTransform (node : node) (location : PackedLocation)
    (symbol : option PhpSymbol) (reference : option loc).

Module Transformer.

Import Js.

(** [transformer.phraseType]. *)
Definition phraseType (t : NodeTransformer) : option PhraseType.t :=
  match t with
  | TokenTransform _ _ _ _ => None
  | DefaultNodeTransformer _ p _ => Some p
  | DelimiteredListTransformer p _ => Some p
  | IdentifierTransformer _ _ => Some PhraseType.Identifier
  | NamespaceNameTransformer _ _ _ => Some PhraseType.NamespaceName
  | QualifiedNameTransformer _ _ => Some PhraseType.QualifiedName
  | RelativeQualifiedNameTransformer _ _ => Some PhraseType.RelativeQualifiedName
  | FullyQualifiedNameTransformer _ _ => Some PhraseType.FullyQualifiedName
  | MemberNameTransform _ _ => Some PhraseType.MemberName
  | ScopedMemberNameTransform _ _ => Some PhraseType.ScopedMemberName
  | MemberAccessExpressionTransform p _ => Some p
  | SimpleVariableTransform _ _ _ _ => Some PhraseType.SimpleVariable
  | DefineFunctionCallExpressionTransform _ _ _ _ => Some PhraseType.FunctionCallExpression
  end.

(** [transformer.tokenType]. *)
Definition tokenType (t : NodeTransformer) : option TokenType.t :=
  match t with
  | TokenTransform _ k _ _ => Some k
  | _ => None
  end.

(** [transformer.node]; [None] where the class declares no such
    property. *)
Definition node_of (t : NodeTransformer) : option node :=
  match t with
  | TokenTransform n _ _ _ => Some n
  | DefaultNodeTransformer n _ _ => Some n
  | NamespaceNameTransformer n _ _ => Some n
  | MemberNameTransform n _ => Some n
  | ScopedMemberNameTransform n _ => Some n
  | SimpleVariableTransform n _ _ _ => Some n
  | DefineFunctionCallExpressionTransform n _ _ _ => Some n
  | _ => None
  end.

(** [(<TextTransformer>transformer).text].  A transformer without a
    [text] property yields the empty string here: the readers of the
    result below store it as a name or a value, and a name is only ever
    tested for being truthy, which [undefined] and the empty string are
    equally not. *)
Definition text (t : NodeTransformer) : string :=
  match t with
  | TokenTransform _ _ s _ => s
  | DefaultNodeTransformer _ _ s => s
  | IdentifierTransformer s _ => s
  | NamespaceNameTransformer _ s _ => s
  | _ => ""
  end.

(** [(<TokenTransform>transformer).location]. *)
Definition location_of (t : NodeTransformer) : option PackedLocation :=
  match t with
  | TokenTransform _ _ _ l => Some l
  | IdentifierTransformer _ l => l
  | SimpleVariableTransform _ l _ _ => Some l
  | DefineFunctionCallExpressionTransform _ l _ _ => Some l
  | _ => None
  end.

(** [(<ReferenceTransformer>transformer).reference]. *)
Definition reference_of (t : NodeTransformer) : option loc :=
  match t with
  | NamespaceNameTransformer _ _ l => Some l
  | QualifiedNameTransformer _ r => r
  | RelativeQualifiedNameTransformer _ r => r
  | FullyQualifiedNameTransformer _ r => r
  | MemberNameTransform _ l => Some l
  | ScopedMemberNameTransform _ l => Some l
  | SimpleVariableTransform _ _ _ r => r
  | DefineFunctionCallExpressionTransform _ _ _ r => r
  | _ => None
  end.

(** [transformer.tokenType === k] and [transformer.phraseType === p]. *)
Definition is_token (k : TokenType.t) (t : NodeTransformer) : bool :=
  bool_decide (tokenType t = Some k).

Definition is_phrase (p : PhraseType.t) (t : NodeTransformer) : bool :=
  bool_decide (phraseType t = Some p).

(** [RESERVED_WORDS]. *)
Definition RESERVED_WORDS : list string :=
  [ "int"; "string"; "bool"; "float"; "iterable"; "true"; "false"; "null";
    "void"; "object" ].

(** [RESERVED_WORDS[name]] is truthy: [name] is one of the keys, each
    mapped to [1], or a property that the object literal inherits. *)
Definition reserved (name : string) : bool :=
  bool_decide (name ∈ RESERVED_WORDS) || inherited name.

(** *** Constructors of the transformers that create a reference *)

Definition new_NamespaceNameTransformer (n : node) (range : PackedRange) (σ : Store)
  : NodeTransformer * Store :=
  let '(l, σ) := Store_.alloc (Reference.create SymbolKind.Class "" range) σ in
  (NamespaceNameTransformer n "" l, Store_.assign n (SlotRef l) σ).

Definition new_MemberNameTransform (n : node) (loc : PackedLocation) (σ : Store)
  : NodeTransformer * Store :=
  let '(l, σ) := Store_.alloc (Reference.create SymbolKind.None "" (range loc)) σ in
  (MemberNameTransform n l, Store_.assign n (SlotRef l) σ).

Definition new_ScopedMemberNameTransform (n : node) (loc : PackedLocation) (σ : Store)
  : NodeTransformer * Store :=
  let '(l, σ) := Store_.alloc (Reference.create SymbolKind.None "" (range loc)) σ in
  (ScopedMemberNameTransform n l, Store_.assign n (SlotRef l) σ).

Section Push.

(** [nameResolver.ts] is not among the sources: the resolver state and
    the two methods the transformers call are parameters. *)
Context {NameResolver : Type}.
Variable resolveNotFullyQualified : NameResolver → string → Z → string.
Variable resolveRelative : NameResolver → string → string.

(** The resolver object is shared by the pass and the transformers: a
    [push] sees the state the resolver is in when it runs. *)
Variable nameResolver : NameResolver.

(** [SymbolReader.tokenTypeToPhpType]. *)
Definition tokenTypeToPhpType (tokenType : option TokenType.t) : string :=
  match tokenType with
  | Some TokenType.StringLiteral => "string"
  | Some TokenType.IntegerLiteral => "int"
  | Some TokenType.FloatingLiteral => "float"
  | _ => ""
  end.

Definition NamespaceNameTransformer_push (n : node) (text0 : string) (l : loc)
  (transform : NodeTransformer) (σ : Store) : NodeTransformer * Store :=
  if is_token TokenType.Name transform then
    let text1 :=
      if truthy text0 then text0 +:+ "\" +:+ text transform
      else text transform in
    (NamespaceNameTransformer n text1 l, Store_.update l (Reference.set_name text1) σ)
  else (NamespaceNameTransformer n text0 l, σ).

(** The writes of [QualifiedNameTransformer.push] to the reference it
    takes over from the namespace name. *)
Definition qualified_name_resolve (kind : Z) (r : Reference.t) : Reference.t :=
  let r := Reference.set_kind kind r in
  let unresolvedName := Reference.name r in
  let lcUnresolvedName := toLowerCase unresolvedName in
  if reserved lcUnresolvedName then r
  else
    let r :=
      Reference.set_name
        (resolveNotFullyQualified nameResolver unresolvedName kind) r in
    if ((kind =? SymbolKind.Function)%Z || (kind =? SymbolKind.Constant)%Z)
       && negb (String.eqb (Reference.name r) unresolvedName)
    then Reference.set_unresolvedName unresolvedName r
    else r.

Definition QualifiedNameTransformer_push (kind : Z) (reference : option loc)
  (transformer : NodeTransformer) (σ : Store) : completion (NodeTransformer * Store) :=
  if is_phrase PhraseType.NamespaceName transformer then
    match reference_of transformer with
    | Some l =>
        Return (QualifiedNameTransformer kind (Some l),
                Store_.update l (qualified_name_resolve kind) σ)
    | None => TypeError "Cannot set property 'kind' of undefined"
    end
  else Return (QualifiedNameTransformer kind reference, σ).

Definition RelativeQualifiedNameTransformer_push (kind : Z) (reference : option loc)
  (transformer : NodeTransformer) (σ : Store) : completion (NodeTransformer * Store) :=
  if is_phrase PhraseType.NamespaceName transformer then
    match reference_of transformer with
    | Some l =>
        Return (RelativeQualifiedNameTransformer kind (Some l),
                Store_.update l
                  (λ r, Reference.set_kind kind
                          (Reference.set_name
                             (resolveRelative nameResolver (Reference.name r)) r))
                  σ)
    | None => TypeError "Cannot read property 'name' of undefined"
    end
  else Return (RelativeQualifiedNameTransformer kind reference, σ).

Definition FullyQualifiedNameTransformer_push (kind : Z) (reference : option loc)
  (transformer : NodeTransformer) (σ : Store) : completion (NodeTransformer * Store) :=
  if is_phrase PhraseType.NamespaceName transformer then
    match reference_of transformer with
    | Some l =>
        Return (FullyQualifiedNameTransformer kind (Some l),
                Store_.update l (Reference.set_kind kind) σ)
    | None => TypeError "Cannot set property 'kind' of undefined"
    end
  else Return (FullyQualifiedNameTransformer kind reference, σ).

Definition MemberNameTransform_push (n : node) (l : loc)
  (transformer : NodeTransformer) (σ : Store) : NodeTransformer * Store :=
  if is_token TokenType.Name transformer
  then (MemberNameTransform n l, Store_.update l (Reference.set_name (text transformer)) σ)
  else (MemberNameTransform n l, σ).

Definition ScopedMemberNameTransform_push (n : node) (l : loc)
  (transformer : NodeTransformer) (σ : Store) : NodeTransformer * Store :=
  if is_token TokenType.VariableName transformer
     || is_phrase PhraseType.Identifier transformer
  then (ScopedMemberNameTransform n l,
        Store_.update l (Reference.set_name (text transformer)) σ)
  else (ScopedMemberNameTransform n l, σ).

(** The writes of [MemberAccessExpressionTransform.push] to the reference
    of the member name. *)
Definition member_access_adorn (symbolKind : Z) (reference : Reference.t) : Reference.t :=
  let reference := Reference.set_kind symbolKind reference in
  if (symbolKind =? SymbolKind.Property)%Z
     && truthy (Reference.name reference)
     && negb (first_is "$" (Reference.name reference))
  then Reference.set_name ("$" +:+ Reference.name reference) reference
  else reference.

Definition MemberAccessExpressionTransform_push (phraseType : PhraseType.t)
  (symbolKind : Z) (transformer : NodeTransformer) (σ : Store)
  : completion (NodeTransformer * Store) :=
  if is_phrase PhraseType.ScopedMemberName transformer
     || is_phrase PhraseType.MemberName transformer
  then
    match reference_of transformer with
    | Some l =>
        Return (MemberAccessExpressionTransform phraseType symbolKind,
                Store_.update l (member_access_adorn symbolKind) σ)
    | None => TypeError "Cannot set property 'kind' of undefined"
    end
  else Return (MemberAccessExpressionTransform phraseType symbolKind, σ).

Definition IdentifierTransformer_push (transformer : NodeTransformer) : NodeTransformer :=
  IdentifierTransformer (text transformer) (location_of transformer).

Definition SimpleVariableTransform_push (n : node) (location : PackedLocation)
  (symbol : option PhpSymbol) (reference : option loc)
  (transform : NodeTransformer) (σ : Store) : NodeTransformer * Store :=
  if is_token TokenType.VariableName transform then
    let s := PhpSymbolOps.create SymbolKind.Variable_ (text transform) location in
    let '(l, σ) :=
      Store_.alloc (Reference.create SymbolKind.Variable_ (name s) (range location)) σ in
    (SimpleVariableTransform n location (Some s) (Some l),
     Store_.assign n (SlotRef l) σ)
  else (SimpleVariableTransform n location symbol reference, σ).

(** [DefineFunctionCallExpressionTransform.push].  Only a
    [TokenTransform] has a [tokenType], so a string-literal first
    argument and a scalar-literal second argument are token transforms. *)
Definition scalar_literal (arg : NodeTransformer) : bool :=
  is_token TokenType.FloatingLiteral arg
  || is_token TokenType.IntegerLiteral arg
  || is_token TokenType.StringLiteral arg.

Definition DefineFunctionCallExpressionTransform_push (n : node)
  (location : PackedLocation) (symbol : option PhpSymbol) (reference : option loc)
  (transformer : NodeTransformer) (σ : Store) : completion (NodeTransformer * Store) :=
  if is_phrase PhraseType.ArgumentExpressionList transformer then
    match transformer with
    | DelimiteredListTransformer _ transforms =>
        let arg1 := transforms !! 0%nat in
        let arg2 := transforms !! 1%nat in
        let '(symbol, reference, σ) :=
          match arg1 with
          | Some (TokenTransform _ TokenType.StringLiteral text1 location1) =>
              let constName := slice_1_m1 text1 in
              let constName :=
                if truthy constName && first_is "\" constName
                then slice_1 constName else constName in
              let '(l, σ) :=
                Store_.alloc
                  (Reference.create SymbolKind.Constant constName (range location1)) σ in
              (Some (PhpSymbolOps.create SymbolKind.Constant constName location),
               Some l, Store_.assign n (SlotRef l) σ)
          | _ => (symbol, reference, σ)
          end in
        match arg2 with
        | Some arg2 =>
            if scalar_literal arg2 then
              match symbol with
              | Some s =>
                  let s := PhpSymbolOps.set_value (text arg2) s in
                  let s := PhpSymbolOps.set_type (tokenTypeToPhpType (tokenType arg2)) s in
                  Return (DefineFunctionCallExpressionTransform n location (Some s) reference, σ)
              | None => TypeError "Cannot set property 'value' of undefined"
              end
            else Return (DefineFunctionCallExpressionTransform n location symbol reference, σ)
        | None => Return (DefineFunctionCallExpressionTransform n location symbol reference, σ)
        end
    | _ => TypeError "undefined is not iterable"
    end
  else Return (DefineFunctionCallExpressionTransform n location symbol reference, σ).

(** [parent.push(child)], by the class of [parent]. *)
Definition push (parent child : NodeTransformer) (σ : Store)
  : completion (NodeTransformer * Store) :=
  match parent with
  | TokenTransform _ _ _ _ => Return (parent, σ)
  | DefaultNodeTransformer _ _ _ => Return (parent, σ)
  | DelimiteredListTransformer p transforms =>
      Return (DelimiteredListTransformer p (transforms ++ [child]), σ)
  | IdentifierTransformer _ _ => Return (IdentifierTransformer_push child, σ)
  | NamespaceNameTransformer n t l => Return (NamespaceNameTransformer_push n t l child σ)
  | QualifiedNameTransformer k r => QualifiedNameTransformer_push k r child σ
  | RelativeQualifiedNameTransformer k r =>
      RelativeQualifiedNameTransformer_push k r child σ
  | FullyQualifiedNameTransformer k r =>
      FullyQualifiedNameTransformer_push k r child σ
  | MemberNameTransform n l => Return (MemberNameTransform_push n l child σ)
  | ScopedMemberNameTransform n l => Return (ScopedMemberNameTransform_push n l child σ)
  | MemberAccessExpressionTransform p k =>
      MemberAccessExpressionTransform_push p k child σ
  | SimpleVariableTransform n loc s r =>
      Return (SimpleVariableTransform_push n loc s r child σ)
  | DefineFunctionCallExpressionTransform n loc s r =>
      DefineFunctionCallExpressionTransform_push n loc s r child σ
  end.

(** The children of a node, pushed one after the other. *)
Fixpoint push_all (parent : NodeTransformer) (children : list NodeTransformer)
  (σ : Store) : completion (NodeTransformer * Store) :=
  match children with
  | [] => Return (parent, σ)
  | child :: rest =>
      '(parent, σ) ← push parent child σ;
      push_all parent rest σ
  end.

(** The transformer of a namespace name when the walk leaves the node:
    created on the way down, it has been pushed the transforms of the
    children. *)
Definition namespace_name (n : node) (range : PackedRange)
  (children : list NodeTransformer) (σ : Store) : completion (NodeTransformer * Store) :=
  let '(nn, σ) := new_NamespaceNameTransformer n range σ in
  push_all nn children σ.

End Push.

End Transformer.

(** ** UniqueSymbolCollection *)

Module UniqueSymbolCollection.

Import Js.

(** [UniqueSymbolCollection._inbuilt]: every key is mapped to [true]. *)
Definition _inbuilt_names : list string :=
  [ "$GLOBALS"; "$_SERVER"; "$_GET"; "$_POST"; "$_FILES"; "$_REQUEST";
    "$_SESSION"; "$_ENV"; "$_COOKIE"; "$php_errormsg"; "$HTTP_RAW_POST_DATA";
    "$http_response_header"; "$argc"; "$argv"; "$this" ].

Definition _inbuilt : gmap string bool :=
  list_to_map ((λ k, (k, true)) <$> _inbuilt_names).

Record t : Type := mk {
  _symbols : list PhpSymbol;
  _varMap : gmap string bool
}.

(** [constructor()]: [_varMap] is a copy of [_inbuilt]. *)
Definition new : t := mk [] _inbuilt.

(** [this._varMap[k] === undefined]: [k] is neither a key of the map nor
    a property that the object inherits. *)
Definition varMap_undefined (m : gmap string bool) (k : string) : bool :=
  match m !! k with
  | Some _ => false
  | None => negb (inherited k)
  end.

(** [s.kind & (SymbolKind.Parameter | SymbolKind.Variable)] is truthy. *)
Definition is_variable (s : PhpSymbol) : bool :=
  negb (Z.land (kind s) (Z.lor SymbolKind.Parameter_ SymbolKind.Variable_) =? 0)%Z.

Definition length (c : t) : nat := List.length (_symbols c).

Definition push (s : PhpSymbol) (c : t) : t :=
  if is_variable s then
    if varMap_undefined (_varMap c) (name s)
    then mk (_symbols c ++ [s]) (<[name s := true]> (_varMap c))
    else c
  else mk (_symbols c ++ [s]) (_varMap c).

Fixpoint pushMany (symbols : list PhpSymbol) (c : t) : t :=
  match symbols with
  | [] => c
  | s :: rest => pushMany rest (push s c)
  end.

Definition toArray (c : t) : list PhpSymbol := _symbols c.

End UniqueSymbolCollection.

(** ** PHPDoc members ([SymbolReader]) *)

(** The tags of a doc block, as the symbol reader reads them
    ([phpDoc.ts]). *)
Record MethodTagParam : Type := mkMethodTagParam {
  param_typeString : string;
  param_name : string
}.

Record Tag : Type := mkTag {
  tagName : string;
  tag_name : string;
  description : string;
  typeString : string;
  isStatic : bool;
  parameters : option (list MethodTagParam)
}.

Record PhpDoc : Type := mkPhpDoc {
  doc_text : string;
  propertyTags : list Tag;
  methodTags : list Tag
}.

Module SymbolReader.

Section Members.

(** [TypeString.nameResolve(typeString, nameResolver)], of
    [typeString.ts], with the resolver it is handed. *)
Context {NameResolver : Type}.
Variable nameResolve : string → NameResolver → string.

Definition magicPropertyModifier (t : Tag) : Z :=
  if String.eqb (tagName t) "@property-read" then SymbolModifier.ReadOnly
  else if String.eqb (tagName t) "@property-write" then SymbolModifier.WriteOnly
  else SymbolModifier.None.

Definition propertyTagToSymbol (t : Tag) (phpDocLoc : PackedLocation)
  (nameResolver : NameResolver) : PhpSymbol :=
  let s := PhpSymbolOps.create SymbolKind.Property (tag_name t) phpDocLoc in
  let s :=
    PhpSymbolOps.set_modifiers
      (Z.lor (Z.lor (magicPropertyModifier t) SymbolModifier.Magic)
         SymbolModifier.Public) s in
  PhpSymbolOps.set_doc
    (mkPhpSymbolDoc (Some (description t)) (Some (nameResolve (typeString t) nameResolver)))
    s.

Definition magicMethodParameterToSymbol (p : MethodTagParam)
  (phpDocLoc : PackedLocation) (nameResolver : NameResolver) : PhpSymbol :=
  let s := PhpSymbolOps.create SymbolKind.Parameter_ (param_name p) phpDocLoc in
  let s := PhpSymbolOps.set_modifiers SymbolModifier.Magic s in
  PhpSymbolOps.set_doc
    (mkPhpSymbolDoc None (Some (nameResolve (param_typeString p) nameResolver))) s.

Definition methodTagToSymbol (tag : Tag) (phpDocLoc : PackedLocation)
  (nameResolver : NameResolver) : PhpSymbol :=
  let s := PhpSymbolOps.create SymbolKind.Method (tag_name tag) phpDocLoc in
  let s :=
    PhpSymbolOps.set_modifiers (Z.lor SymbolModifier.Magic SymbolModifier.Public) s in
  let s :=
    PhpSymbolOps.set_doc
      (mkPhpSymbolDoc (Some (description tag))
         (Some (nameResolve (typeString tag) nameResolver))) s in
  let s := PhpSymbolOps.set_children [] s in
  let s :=
    if isStatic tag
    then PhpSymbolOps.set_modifiers (Z.lor (modifiers s) SymbolModifier.Static) s
    else s in
  match parameters tag with
  | None => s
  | Some ps =>
      PhpSymbolOps.set_children
        ((λ p, magicMethodParameterToSymbol p phpDocLoc nameResolver) <$> ps) s
  end.

Definition phpDocMembers (phpDoc : PhpDoc) (phpDocLoc : PackedLocation)
  (nameResolver : NameResolver) : list PhpSymbol :=
  ((λ t, propertyTagToSymbol t phpDocLoc nameResolver) <$> propertyTags phpDoc)
  ++ ((λ t, methodTagToSymbol t phpDocLoc nameResolver) <$> methodTags phpDoc).

End Members.

End SymbolReader.

(** ** SymbolsPass: the post-order step *)

Module SymbolsPass.

Import Js.

Record t : Type := mk {
  lastPhpDoc : option PhpDoc;
  lastPhpDocLocation : option PackedLocation;
  references : list loc;
  referenceNameSet : option (list string);
  _transformerStack : list (option NodeTransformer);
  _lastTransformer : option NodeTransformer
}.

(** [constructor(document, nameResolver)]: the stack and the reference
    list start empty; nothing else is assigned. *)
Definition new : t := mk None None [] None [] None.

(** [Set.prototype.add]: a set keeps its elements in insertion order. *)
Definition set_add (x : string) (s : list string) : list string :=
  if bool_decide (x ∈ s) then s else s ++ [x].

(** [this.referenceNameSet.add(x)]. *)
Definition referenceNameSet_add (x : string) (p : t) : completion t :=
  match referenceNameSet p with
  | Some s =>
      Return (mk (lastPhpDoc p) (lastPhpDocLocation p) (references p)
                (Some (set_add x s)) (_transformerStack p) (_lastTransformer p))
  | None => TypeError "Cannot read property 'add' of undefined"
  end.

Definition addRefName (ref : option Reference.t) (p : t) : completion t :=
  match ref with
  | None => Return p
  | Some ref =>
      p ← (if truthy (Reference.name ref)
           then referenceNameSet_add (Reference.name ref) p
           else Return p);
      match Reference.unresolvedName ref with
      | Some u => if truthy u then referenceNameSet_add u p else Return p
      | None => Return p
      end
  end.

Fixpoint addRefNames (refs : list (option Reference.t)) (p : t) : completion t :=
  match refs with
  | [] => Return p
  | ref :: rest => p ← addRefName ref p; addRefNames rest p
  end.

(** The phrase types of the first [switch] of [postorder]. *)
Definition clears_phpDoc (pt : PhraseType.t) : bool :=
  match pt with
  | PhraseType.ClassDeclarationHeader
  | PhraseType.InterfaceDeclarationHeader
  | PhraseType.AnonymousClassDeclarationHeader
  | PhraseType.FunctionDeclarationHeader
  | PhraseType.MethodDeclarationHeader
  | PhraseType.TraitDeclarationHeader
  | PhraseType.AnonymousFunctionHeader => true
  | _ => false
  end.

(** The phrase types of the second [switch] of [postorder]: "these nodes
    will have reference info". *)
Definition bears_reference (pt : PhraseType.t) : bool :=
  match pt with
  | PhraseType.FullyQualifiedName
  | PhraseType.QualifiedName
  | PhraseType.RelativeQualifiedName
  | PhraseType.SimpleVariable
  | PhraseType.MemberName
  | PhraseType.ScopedMemberName
  | PhraseType.NamespaceName
  | PhraseType.ClassDeclarationHeader
  | PhraseType.InterfaceDeclarationHeader
  | PhraseType.TraitDeclarationHeader
  | PhraseType.FunctionDeclarationHeader
  | PhraseType.ConstElement
  | PhraseType.PropertyElement
  | PhraseType.ClassConstElement
  | PhraseType.MethodDeclarationHeader
  | PhraseType.ParameterDeclaration
  | PhraseType.AnonymousFunctionUseVariable
  | PhraseType.RelativeScope => true
  | _ => false
  end.

(** The references in the [reference] slot of a node, in the order in
    which [postorder] hands them to [addRefName]. *)
Definition slot_references (n : node) (σ : Store) : list (option Reference.t) :=
  match slots σ !! n with
  | None => [None]
  | Some (SlotRef l) => [Store_.deref l σ]
  | Some (SlotRefs ls) => (λ l, l ≫= λ l, Store_.deref l σ) <$> ls
  end.

(** [addRefName] has a name to add for the reference: its name or its
    unresolved name is not empty. *)
Definition named (r : Reference.t) : bool :=
  truthy (Reference.name r)
  || match Reference.unresolvedName r with
     | Some u => truthy u
     | None => false
     end.

Section Postorder.

Context {NameResolver : Type}.
Variable resolveNotFullyQualified : NameResolver → string → Z → string.
Variable resolveRelative : NameResolver → string → string.
Variable nameResolver : NameResolver.

Definition postorder (node : Node) (p : t) (σ : Store) : completion (t * Store) :=
  match phraseType node with
  | None => Return (p, σ)
  | Some pt =>
      if bool_decide (pt = PhraseType.Unknown) then Return (p, σ) else
      match last (_transformerStack p) with
      | None | Some None => TypeError "Cannot read property 'node' of undefined"
      | Some (Some transformer) =>
          if bool_decide (Transformer.node_of transformer = Some (node_id node)) then
            let stack := removelast (_transformerStack p) in
            '(stack, σ) ←
              match last stack with
              | None => Return (stack, σ)
              | Some None => TypeError "Cannot read property 'push' of undefined"
              | Some (Some parent) =>
                  '(parent, σ) ←
                    Transformer.push resolveNotFullyQualified resolveRelative
                      nameResolver parent transformer σ;
                  Return (removelast stack ++ [Some parent], σ)
              end;
            let p :=
              if clears_phpDoc pt
              then mk None None (references p) (referenceNameSet p) stack
                     (Some transformer)
              else mk (lastPhpDoc p) (lastPhpDocLocation p) (references p)
                     (referenceNameSet p) stack (Some transformer) in
            if bears_reference pt then
              p ← addRefNames (slot_references (node_id node) σ) p;
              Return (p, σ)
            else Return (p, σ)
          else Return (p, σ)
      end
  end.

End Postorder.

End SymbolsPass.

(** ** Suffix keys *)

Module Keys.

Import Js.

Section Law.

(** Modelled from the spec: [PhpSymbol.keys] is declared in [symbol.ts],
    which is not among the sources; only its tests are.  Section 4.6 of
    the spec: "For a namespaced name, produce every suffix starting from
    each namespace-separator boundary; for a snake-case name, produce
    every suffix starting from each underscore.  Keys are lowercased."
    The examples of that section, which are the expected values of the
    tests, hold further keys, for which the spec states no rule: one
    after the [$] of [$myProperty], and one at each later capital of
    [MyFooClass], though none at the capitals of [THIS_IS_A_CONSTANT].
    That rule is left open: [word_start prev s] says whether a key starts
    at the suffix [s] that follows the character [prev], besides the
    suffixes that follow a separator or an underscore. *)
Variable word_start : ascii → string → bool.

(** Modelled from the spec: the namespace separator and the underscore. *)
Definition separator (c : ascii) : bool :=
  Ascii.eqb c "\" || Ascii.eqb c "_".

(** Modelled from the spec: a key starts at the suffix [s], which follows
    the character [prev]. *)
Definition starts_key (prev : ascii) (s : string) : bool :=
  separator prev || word_start prev s.

(** Modelled from the spec: the suffixes of a name at which a key
    starts, from left to right; [prev] is the character before [s].  A
    key is not empty. *)
Fixpoint suffixes (prev : ascii) (s : string) : list string :=
  match s with
  | EmptyString => []
  | String c r => (if starts_key prev s then [s] else []) ++ suffixes c r
  end.

(** Modelled from the spec: the proper suffixes of a name at which a key
    starts. *)
Definition word_suffixes (w : string) : list string :=
  match w with
  | EmptyString => []
  | String c r => suffixes c r
  end.

(** Modelled from the spec: [PhpSymbol.keys(s)]: the name, and then the
    suffixes of the name at which a key starts, all lowercased. *)
Definition keys (s : PhpSymbol) : list string :=
  toLowerCase <$> (name s :: word_suffixes (name s)).

(** The first proper suffix of a word at which a key starts, if there is
    one. *)
Fixpoint next_from (prev : ascii) (s : string) : option string :=
  match s with
  | EmptyString => None
  | String c r => if starts_key prev s then Some s else next_from c r
  end.

Definition next_suffix (w : string) : option string :=
  match w with
  | EmptyString => None
  | String c r => next_from c r
  end.

(** *** The suffix-keys law, in its own words *)

(** The suffix [w] of a name, which follows the character [prev], is at
    a boundary. *)
Definition at_boundary (prev : ascii) (w : string) : Prop :=
  prev = "\"%char ∨ prev = "_"%char ∨ word_start prev w = true.

(** [w'] is the strict right-suffix of [w] that starts at the next
    boundary of [w]: no longer proper suffix of [w] is at a boundary. *)
Definition next_boundary_suffix (w w' : string) : Prop :=
  ∃ p prev,
    w = p +:+ String prev w' ∧ w' ≠ "" ∧ at_boundary prev w'
    ∧ ∀ q prev' v, w = q +:+ String prev' v →
                   (String.length w' < String.length v)%nat → ¬ at_boundary prev' v.

(** [w] is a final word: no proper suffix of it is at a boundary. *)
Definition final_word (w : string) : Prop :=
  ∀ q prev v, w = q +:+ String prev v → v ≠ "" → ¬ at_boundary prev v.

End Law.

(** The law as the claim words it: [w'] is a right-suffix of [w] that
    follows a namespace separator or an underscore. *)
Definition separator_suffix (w w' : string) : Prop :=
  ∃ p prev, w = p +:+ String prev w' ∧ (prev = "\"%char ∨ prev = "_"%char).

(** One rule for the further keys under which the four tests have their
    expected values: a key starts after a [$], and at a capital that
    follows a lowercase letter. *)
Definition is_lower (c : ascii) : bool :=
  let n := nat_of_ascii c in (97 <=? n)%nat && (n <=? 122)%nat.

Definition camel_case_start (prev : ascii) (s : string) : bool :=
  Ascii.eqb prev "$"
  || match s with
     | String c _ => is_upper c && is_lower prev
     | EmptyString => false
     end.

End Keys.

(** ** The buckets of a cache directory *)

Module CacheInvariant.

Section Buckets.

Context {V : Type}.
Variable hash32 : string → Z.

(** A bucket file as [write] and [delete] leave it: it holds a pair, no
    two pairs under one key, and only keys that are filed under its
    name. *)
Definition bucket_ok (filePath : Z) (b : @Cache.Bucket V) : Prop :=
  b ≠ [] ∧ NoDup (fst <$> b)
  ∧ ∀ key, key ∈ fst <$> b → Cache._filePath hash32 key = filePath.

Definition directory_ok (d : @Cache.Directory V) : Prop :=
  ∀ filePath b, Cache.files d !! filePath = Some b → bucket_ok filePath b.

End Buckets.

End CacheInvariant.

(** A directory whose only bucket holds two pairs, under the keys [Aa]
    and [BB], and one on whose bucket file the file system fails. *)
Definition two_in_bucket : @Cache.Directory string :=
  Cache.mkDirectory {[ 2112%Z := [("Aa", "first"); ("BB", "second")] ]} ∅.

Definition failing_bucket : @Cache.Directory string :=
  Cache.mkDirectory {[ 2112%Z := [("Aa", "first")] ]} {[ 2112%Z := "EACCES" ]}.

(** ** Names and variables, from their children *)

Module Names.

(** The texts of the [Name] tokens among the children of a node, in
    order. *)
Definition name_texts (children : list NodeTransformer) : list string :=
  omap (λ t, if Transformer.is_token TokenType.Name t
             then Some (Transformer.text t) else None) children.

(** The text of the last [VariableName] token among the children, if
    there is one. *)
Definition variable_name (children : list NodeTransformer) : option string :=
  last (omap (λ t, if Transformer.is_token TokenType.VariableName t
                   then Some (Transformer.text t) else None) children).

(** The name of the constant of a [define] call, from the text of the
    string literal: without the quotes, and without one leading
    backslash. *)
Definition constant_name (literal : string) : string :=
  let constName := Js.slice_1_m1 literal in
  if Js.truthy constName && Js.first_is "\" constName
  then Js.slice_1 constName else constName.

End Names.

(** The children of the namespace name [Foo\Bar]: two [Name] tokens with
    the separator between them; and the argument list of
    [define('\App\DEBUG', 'on')]. *)
Definition Foo_Bar_children : list NodeTransformer :=
  [ TokenTransform 2 TokenType.Name "Foo" (mkPackedLocation 0 (0%Z, 3%Z));
    TokenTransform 3 TokenType.Unknown "\" (mkPackedLocation 0 (3%Z, 4%Z));
    TokenTransform 4 TokenType.Name "Bar" (mkPackedLocation 0 (4%Z, 7%Z)) ].

Definition define_DEBUG_arguments : list NodeTransformer :=
  [ TokenTransform 2 TokenType.StringLiteral "'\App\DEBUG'"
      (mkPackedLocation 0 (7%Z, 19%Z));
    TokenTransform 3 TokenType.StringLiteral "'on'" (mkPackedLocation 0 (21%Z, 25%Z)) ].

(** ** What a push may write *)

(** From [σ] to [σ'], the store has kept its reference objects, has
    changed none of them except the ones of [parent] and of [child], and
    has changed the [reference] slot of no node except the one of
    [parent]. *)
Definition writes_only (parent child : NodeTransformer) (σ σ' : Store) : Prop :=
  (length (refs σ) <= length (refs σ'))%nat
  ∧ (∀ l, (l < length (refs σ))%nat →
          Transformer.reference_of parent ≠ Some l →
          Transformer.reference_of child ≠ Some l →
          Store_.deref l σ' = Store_.deref l σ)
  ∧ (∀ n, Transformer.node_of parent ≠ Some n → slots σ' !! n = slots σ !! n).

(** ** What recording a name changes *)

(** From [p] to [p'], the pass has kept every field but the set of
    reference names, which has grown at its end, without duplicates if
    it had none; a pass without a set still has none. *)
Definition same_but_names (p p' : SymbolsPass.t) : Prop :=
  SymbolsPass.lastPhpDoc p' = SymbolsPass.lastPhpDoc p
  ∧ SymbolsPass.lastPhpDocLocation p' = SymbolsPass.lastPhpDocLocation p
  ∧ SymbolsPass.references p' = SymbolsPass.references p
  ∧ SymbolsPass._transformerStack p' = SymbolsPass._transformerStack p
  ∧ SymbolsPass._lastTransformer p' = SymbolsPass._lastTransformer p
  ∧ match SymbolsPass.referenceNameSet p with
    | Some s =>
        ∃ s', SymbolsPass.referenceNameSet p' = Some s'
              ∧ s `prefix_of` s' ∧ (NoDup s → NoDup s')
    | None => SymbolsPass.referenceNameSet p' = None
    end.

(** ** Members: modifiers, parameters, method headers and bodies, fields *)

(** The transformer classes of the members of a class and of what a
    body holds, next to the ones of [NodeTransformer], with the fields
    their class declares.  The record of a symbol has no [associated]
    field: the transformer of an anonymous class holds the [associated]
    list of its symbol, of references and of symbols, beside the symbol.  The pass
    sets and clears [lastPhpDoc] and [lastPhpDocLocation] together, so a
    transformer that is handed a doc block holds it with its location. *)
Inductive MemberTransformer : Type :=
| Node_ (t : NodeTransformer)
| MemberModifierListTransform (modifiers : Z)
| TypeDeclarationTransformer (type : option string)
| ParameterDeclarationTransformer (node : node) (location : PackedLocation)
    (doc : option (PhpDoc * PackedLocation)) (symbol : PhpSymbol)
    (reference : option loc)
| MethodDeclarationHeaderTransformer (node : node) (modifiers : Z) (name : string)
    (parameters : list PhpSymbol) (returnType : option string)
    (reference : option loc)
| FunctionDeclarationBodyTransform (phraseType : PhraseType.t)
    (_value : UniqueSymbolCollection.t)
| MethodDeclarationTransform (_children : UniqueSymbolCollection.t)
    (_symbol : PhpSymbol)
| PropertyElementTransformer (node : node) (location : PackedLocation)
    (doc : option (PhpDoc * PackedLocation)) (symbol : PhpSymbol)
    (reference : option loc)
| ClassConstantElementTransform (node : node) (location : PackedLocation)
    (doc : option (PhpDoc * PackedLocation)) (symbol : PhpSymbol)
| FieldDeclarationTransform (phraseType : PhraseType.t)
    (elementType : option PhraseType.t) (_modifier : Z) (symbols : list PhpSymbol)
| CatchClauseVariableNameTransform (symbol : PhpSymbol) (reference : loc)
| AnonymousClassDeclarationTransform (symbol : PhpSymbol)
    (associated : list (loc + PhpSymbol))
| AnonymousFunctionCreationExpressionTransform (_symbol : PhpSymbol)
    (_children : UniqueSymbolCollection.t).

Module Members.

Import Js.

(** [SymbolReader.modifierTokenToSymbolModifier]. *)
Definition modifierTokenToSymbolModifier (tokenType : TokenType.t) : Z :=
  match tokenType with
  | TokenType.Public => SymbolModifier.Public
  | TokenType.Protected => SymbolModifier.Protected
  | TokenType.Private => SymbolModifier.Private
  | TokenType.Abstract => SymbolModifier.Abstract
  | TokenType.Final => SymbolModifier.Final
  | TokenType.Static => SymbolModifier.Static
  | _ => SymbolModifier.None
  end.

(** [SymbolReader.modifierListToSymbolModifier(phrase)], on the token
    types of the children of the phrase; [None] is a phrase that is
    missing. *)
Definition modifierListToSymbolModifier (phrase : option (list TokenType.t)) : Z :=
  match phrase with
  | None => 0
  | Some tokens =>
      fold_left (λ flag t, Z.lor flag (modifierTokenToSymbolModifier t)) tokens
        SymbolModifier.None
  end.

(** [MemberModifierListTransform.push]. *)
Definition MemberModifierListTransform_push (modifiers : Z) (transform : NodeTransformer)
  : Z :=
  match Transformer.tokenType transform with
  | Some TokenType.Public => Z.lor modifiers SymbolModifier.Public
  | Some TokenType.Protected => Z.lor modifiers SymbolModifier.Protected
  | Some TokenType.Private => Z.lor modifiers SymbolModifier.Private
  | Some TokenType.Abstract => Z.lor modifiers SymbolModifier.Abstract
  | Some TokenType.Final => Z.lor modifiers SymbolModifier.Final
  | Some TokenType.Static => Z.lor modifiers SymbolModifier.Static
  | _ => modifiers
  end.

(** The three visibility modifiers. *)
Definition visibility : Z :=
  Z.lor (Z.lor SymbolModifier.Public SymbolModifier.Protected) SymbolModifier.Private.

(** *** What a parent reads of a child *)

Definition phraseType (t : MemberTransformer) : option PhraseType.t :=
  match t with
  | Node_ t => Transformer.phraseType t
  | MemberModifierListTransform _ => Some PhraseType.MemberModifierList
  | TypeDeclarationTransformer _ => Some PhraseType.TypeDeclaration
  | ParameterDeclarationTransformer _ _ _ _ _ => Some PhraseType.ParameterDeclaration
  | MethodDeclarationHeaderTransformer _ _ _ _ _ _ => Some PhraseType.MethodDeclarationHeader
  | FunctionDeclarationBodyTransform p _ => Some p
  | MethodDeclarationTransform _ _ => Some PhraseType.MethodDeclaration
  | PropertyElementTransformer _ _ _ _ _ => Some PhraseType.PropertyElement
  | ClassConstantElementTransform _ _ _ _ => Some PhraseType.ClassConstElement
  | FieldDeclarationTransform p _ _ _ => Some p
  | CatchClauseVariableNameTransform _ _ => None
  | AnonymousClassDeclarationTransform _ _ => Some PhraseType.AnonymousClassDeclaration
  | AnonymousFunctionCreationExpressionTransform _ _ =>
      Some PhraseType.AnonymousFunctionCreationExpression
  end.

Definition tokenType (t : MemberTransformer) : option TokenType.t :=
  match t with
  | Node_ t => Transformer.tokenType t
  | CatchClauseVariableNameTransform _ _ => Some TokenType.VariableName
  | _ => None
  end.

Definition is_token (k : TokenType.t) (t : MemberTransformer) : bool :=
  bool_decide (tokenType t = Some k).

Definition is_phrase (p : PhraseType.t) (t : MemberTransformer) : bool :=
  bool_decide (phraseType t = Some p).

(** [transformer.text], [undefined] ([None]) where the class has no such
    property. *)
Definition text (t : MemberTransformer) : option string :=
  match t with
  | Node_ (TokenTransform _ _ s _) => Some s
  | Node_ (DefaultNodeTransformer _ _ s) => Some s
  | Node_ (IdentifierTransformer s _) => Some s
  | Node_ (NamespaceNameTransformer _ s _) => Some s
  | _ => None
  end.

(** [transformer.location]. *)
Definition location_of (t : MemberTransformer) : option PackedLocation :=
  match t with
  | Node_ t => Transformer.location_of t
  | ParameterDeclarationTransformer _ l _ _ _ => Some l
  | PropertyElementTransformer _ l _ _ _ => Some l
  | ClassConstantElementTransform _ l _ _ => Some l
  | _ => None
  end.

(** [transformer.modifiers].  The readers use it under [|] and [&]
    only, where [undefined] counts as [0]. *)
Definition modifiers_of (t : MemberTransformer) : Z :=
  match t with
  | MemberModifierListTransform m => m
  | MethodDeclarationHeaderTransformer _ m _ _ _ _ => m
  | _ => 0
  end.

(** [transformer.type]. *)
Definition type_of (t : MemberTransformer) : option string :=
  match t with
  | TypeDeclarationTransformer ty => ty
  | _ => None
  end.

Section Push.

Context {NameResolver : Type}.

(** [TypeString.nameResolve], the three lookups of a doc block
    ([phpDoc.ts]) and [PhpSymbol.setScope] ([symbol.ts]) are not among
    the sources. *)
Variable nameResolve : string → NameResolver → string.
Variable findVarTag : PhpDoc → string → option Tag.
Variable findParamTag : PhpDoc → string → option Tag.
Variable returnTag : PhpDoc → option Tag.
Variable setScope : list PhpSymbol → string → list PhpSymbol.
Variable nameResolver : NameResolver.

(** [SymbolReader.assignPhpDocInfoToSymbol]. *)
Definition assignPhpDocInfoToSymbol (s : PhpSymbol) (doc : option (PhpDoc * PackedLocation))
  : PhpSymbol :=
  match doc with
  | None => s
  | Some (doc, docLocation) =>
      let tagDoc (tag : Tag) :=
        mkPhpSymbolDoc (Some (description tag))
          (Some (nameResolve (typeString tag) nameResolver)) in
      if (kind s =? SymbolKind.Property)%Z || (kind s =? SymbolKind.ClassConstant)%Z then
        match findVarTag doc (name s) with
        | Some tag => PhpSymbolOps.set_doc (tagDoc tag) s
        | None => s
        end
      else if (kind s =? SymbolKind.Method)%Z || (kind s =? SymbolKind.Function)%Z then
        PhpSymbolOps.set_doc
          (mkPhpSymbolDoc (Some (doc_text doc))
             (match returnTag doc with
              | Some tag => Some (nameResolve (typeString tag) nameResolver)
              | None => None
              end)) s
      else if (kind s =? SymbolKind.Parameter_)%Z then
        match findParamTag doc (name s) with
        | Some tag => PhpSymbolOps.set_doc (tagDoc tag) s
        | None => s
        end
      else if (kind s =? SymbolKind.Class)%Z || (kind s =? SymbolKind.Trait)%Z
              || (kind s =? SymbolKind.Interface)%Z then
        let s := PhpSymbolOps.set_doc (mkPhpSymbolDoc (Some (doc_text doc)) None) s in
        PhpSymbolOps.set_children
          (default [] (children s)
           ++ SymbolReader.phpDocMembers nameResolve doc docLocation nameResolver) s
      else s
  end.

(** [symbol.name = ...] and [symbol.type = ...], which may assign
    [undefined]. *)
Definition set_name (n : string) (s : PhpSymbol) : PhpSymbol :=
  mkPhpSymbol (kind s) n (location s) (modifiers s) (type s) (value s) (doc s) (children s).
Definition set_type_opt (t : option string) (s : PhpSymbol) : PhpSymbol :=
  mkPhpSymbol (kind s) (name s) (location s) (modifiers s) t (value s) (doc s) (children s).
Definition set_value_opt (v : option string) (s : PhpSymbol) : PhpSymbol :=
  mkPhpSymbol (kind s) (name s) (location s) (modifiers s) (type s) v (doc s) (children s).

(** [transformer.symbol]; the one of a method and the one of a closure
    are computed by their getters. *)
Definition MethodDeclarationTransform_symbol (_children : UniqueSymbolCollection.t)
  (_symbol : PhpSymbol) : PhpSymbol :=
  PhpSymbolOps.set_children
    (setScope (UniqueSymbolCollection.toArray _children) (name _symbol)) _symbol.

Definition AnonymousFunctionCreationExpressionTransform_symbol
  (_symbol : PhpSymbol) (_children : UniqueSymbolCollection.t) : PhpSymbol :=
  PhpSymbolOps.set_children
    (setScope (UniqueSymbolCollection.toArray _children) (name _symbol)) _symbol.

Definition symbol_of (t : MemberTransformer) : option PhpSymbol :=
  match t with
  | Node_ (SimpleVariableTransform _ _ s _) => s
  | Node_ (DefineFunctionCallExpressionTransform _ _ s _) => s
  | ParameterDeclarationTransformer _ _ _ s _ => Some s
  | MethodDeclarationTransform c s => Some (MethodDeclarationTransform_symbol c s)
  | PropertyElementTransformer _ _ _ s _ => Some s
  | ClassConstantElementTransform _ _ _ s => Some s
  | CatchClauseVariableNameTransform s _ => Some s
  | AnonymousClassDeclarationTransform s _ => Some s
  | AnonymousFunctionCreationExpressionTransform s c =>
      Some (AnonymousFunctionCreationExpressionTransform_symbol s c)
  | _ => None
  end.

(** [transformer.symbols]. *)
Definition symbols_of (t : MemberTransformer) : option (list PhpSymbol) :=
  match t with
  | FunctionDeclarationBodyTransform _ c => Some (UniqueSymbolCollection.toArray c)
  | FieldDeclarationTransform _ _ _ symbols => Some symbols
  | _ => None
  end.

(** *** Constructors *)

Definition new_ParameterDeclarationTransformer (n : node) (location : PackedLocation)
  (doc : option (PhpDoc * PackedLocation)) : MemberTransformer :=
  ParameterDeclarationTransformer n location doc
    (PhpSymbolOps.create SymbolKind.Parameter_ "" location) None.

Definition new_MethodDeclarationHeaderTransformer (n : node) : MemberTransformer :=
  MethodDeclarationHeaderTransformer n SymbolModifier.Public "" [] (Some "") None.

Definition new_FunctionDeclarationBodyTransform (p : PhraseType.t) : MemberTransformer :=
  FunctionDeclarationBodyTransform p UniqueSymbolCollection.new.

Definition new_MethodDeclarationTransform (location : PackedLocation)
  (doc : option (PhpDoc * PackedLocation)) : MemberTransformer :=
  MethodDeclarationTransform UniqueSymbolCollection.new
    (assignPhpDocInfoToSymbol (PhpSymbolOps.create SymbolKind.Method "" location) doc).

Definition new_PropertyElementTransformer (n : node) (location : PackedLocation)
  (doc : option (PhpDoc * PackedLocation)) : MemberTransformer :=
  PropertyElementTransformer n location doc
    (PhpSymbolOps.create SymbolKind.Property "" location) None.

Definition new_ClassConstantElementTransform (n : node) (location : PackedLocation)
  (doc : option (PhpDoc * PackedLocation)) : MemberTransformer :=
  ClassConstantElementTransform n location doc
    (PhpSymbolOps.set_modifiers SymbolModifier.Static
       (PhpSymbolOps.create SymbolKind.ClassConstant "" location)).

Definition new_FieldDeclarationTransform (p : PhraseType.t)
  (elementType : option PhraseType.t) : MemberTransformer :=
  FieldDeclarationTransform p elementType SymbolModifier.Public [].

Definition new_AnonymousClassDeclarationTransform (location : PackedLocation)
  (name0 : string) : MemberTransformer :=
  AnonymousClassDeclarationTransform
    (PhpSymbolOps.set_children []
       (PhpSymbolOps.set_modifiers SymbolModifier.Anonymous
          (PhpSymbolOps.create SymbolKind.Class name0 location))) [].

Definition new_AnonymousFunctionCreationExpressionTransform (location : PackedLocation)
  (name0 : string) : MemberTransformer :=
  AnonymousFunctionCreationExpressionTransform
    (PhpSymbolOps.set_modifiers SymbolModifier.Anonymous
       (PhpSymbolOps.create SymbolKind.Function name0 location))
    UniqueSymbolCollection.new.

Definition new_CatchClauseVariableNameTransform (name0 : string) (location : PackedLocation)
  (σ : Store) : MemberTransformer * Store :=
  let '(l, σ) := Store_.alloc (Reference.create SymbolKind.Variable_ name0 (range location)) σ in
  (CatchClauseVariableNameTransform (PhpSymbolOps.create SymbolKind.Variable_ name0 location) l,
   σ).

(** *** The [push] methods *)

Definition TypeDeclarationTransformer_push (type0 : option string)
  (transform : MemberTransformer) : MemberTransformer :=
  match phraseType transform with
  | Some PhraseType.FullyQualifiedName
  | Some PhraseType.RelativeQualifiedName
  | Some PhraseType.QualifiedName =>
      (* none of the three name transformers has a [name] property *)
      TypeDeclarationTransformer None
  | None =>
      if is_token TokenType.Callable transform then TypeDeclarationTransformer (Some "callable")
      else if is_token TokenType.Array transform then TypeDeclarationTransformer (Some "array")
      else TypeDeclarationTransformer type0
  | _ => TypeDeclarationTransformer type0
  end.

Definition ParameterDeclarationTransformer_push (n : node) (location : PackedLocation)
  (doc : option (PhpDoc * PackedLocation)) (symbol : PhpSymbol) (reference : option loc)
  (transform : MemberTransformer) (σ : Store) : completion (MemberTransformer * Store) :=
  if is_phrase PhraseType.TypeDeclaration transform then
    Return (ParameterDeclarationTransformer n location doc
              (set_type_opt (type_of transform) symbol) reference, σ)
  else if is_token TokenType.Ampersand transform then
    Return (ParameterDeclarationTransformer n location doc
              (PhpSymbolOps.set_modifiers
                 (Z.lor (modifiers symbol) SymbolModifier.Reference) symbol) reference, σ)
  else if is_token TokenType.Ellipsis transform then
    Return (ParameterDeclarationTransformer n location doc
              (PhpSymbolOps.set_modifiers
                 (Z.lor (modifiers symbol) SymbolModifier.Variadic) symbol) reference, σ)
  else if is_token TokenType.VariableName transform then
    match text transform, location_of transform with
    | Some text1, Some location1 =>
        let '(l, σ) :=
          Store_.alloc (Reference.create SymbolKind.Parameter_ text1 (range location1)) σ in
        let σ := Store_.assign n (SlotRef l) σ in
        Return (ParameterDeclarationTransformer n location doc
                  (assignPhpDocInfoToSymbol (set_name text1 symbol) doc) (Some l), σ)
    | _, _ => TypeError "Cannot read property 'range' of undefined"
    end
  else
    Return (ParameterDeclarationTransformer n location doc
              (set_value_opt (text transform) symbol) reference, σ).

Definition MethodDeclarationHeaderTransformer_push (n : node) (modifiers0 : Z)
  (name0 : string) (parameters : list PhpSymbol) (returnType : option string)
  (reference : option loc) (transformer : MemberTransformer) (σ : Store)
  : completion (MemberTransformer * Store) :=
  match phraseType transformer with
  | Some PhraseType.MemberModifierList =>
      let m := modifiers_of transformer in
      let m := if (Z.land m visibility =? 0)%Z then Z.lor m SymbolModifier.Public else m in
      Return (MethodDeclarationHeaderTransformer n m name0 parameters returnType reference, σ)
  | Some PhraseType.Identifier =>
      match location_of transformer with
      | Some location1 =>
          let name1 := default "" (text transformer) in
          let '(l, σ) :=
            Store_.alloc (Reference.create SymbolKind.Method name1 (range location1)) σ in
          let σ := Store_.assign n (SlotRef l) σ in
          Return (MethodDeclarationHeaderTransformer n modifiers0 name1 parameters
                    returnType (Some l), σ)
      | None => TypeError "Cannot read property 'range' of undefined"
      end
  | Some PhraseType.ParameterDeclaration =>
      match symbol_of transformer with
      | Some s =>
          Return (MethodDeclarationHeaderTransformer n modifiers0 name0 (parameters ++ [s])
                    returnType reference, σ)
      | None =>
          Return (MethodDeclarationHeaderTransformer n modifiers0 name0 parameters
                    returnType reference, σ)
      end
  | Some PhraseType.TypeDeclaration =>
      Return (MethodDeclarationHeaderTransformer n modifiers0 name0 parameters
                (type_of transformer) reference, σ)
  | _ =>
      Return (MethodDeclarationHeaderTransformer n modifiers0 name0 parameters
                returnType reference, σ)
  end.

(** [UniqueSymbolCollection.push] and [pushMany] on a value that may be
    [undefined]: reading its [kind], or its [length], throws. *)
Definition collection_push (s : option PhpSymbol) (c : UniqueSymbolCollection.t)
  : completion UniqueSymbolCollection.t :=
  match s with
  | Some s => Return (UniqueSymbolCollection.push s c)
  | None => TypeError "Cannot read property 'kind' of undefined"
  end.

Definition collection_pushMany (symbols : option (list PhpSymbol))
  (c : UniqueSymbolCollection.t) : completion UniqueSymbolCollection.t :=
  match symbols with
  | Some symbols => Return (UniqueSymbolCollection.pushMany symbols c)
  | None => TypeError "Cannot read property 'length' of undefined"
  end.

(** The phrase types whose symbol a body collects. *)
Definition body_symbol_phrase (p : PhraseType.t) : bool :=
  match p with
  | PhraseType.SimpleVariable
  | PhraseType.AnonymousFunctionCreationExpression
  | PhraseType.AnonymousClassDeclaration
  | PhraseType.FunctionCallExpression => true
  | _ => false
  end.

Definition FunctionDeclarationBodyTransform_push (p : PhraseType.t)
  (_value : UniqueSymbolCollection.t) (transform : MemberTransformer)
  : completion MemberTransformer :=
  match phraseType transform with
  | Some pt =>
      if body_symbol_phrase pt then
        c ← collection_push (symbol_of transform) _value;
        Return (FunctionDeclarationBodyTransform p c)
      else Return (FunctionDeclarationBodyTransform p _value)
  | None =>
      match transform with
      | CatchClauseVariableNameTransform s _ =>
          Return (FunctionDeclarationBodyTransform p (UniqueSymbolCollection.push s _value))
      | _ => Return (FunctionDeclarationBodyTransform p _value)
      end
  end.

Definition MethodDeclarationTransform_push (_children : UniqueSymbolCollection.t)
  (_symbol : PhpSymbol) (transform : MemberTransformer) : completion MemberTransformer :=
  match transform with
  | MethodDeclarationHeaderTransformer _ modifiers1 name1 parameters returnType _ =>
      let s := PhpSymbolOps.set_modifiers modifiers1 _symbol in
      let s := set_name name1 s in
      let c := UniqueSymbolCollection.pushMany parameters _children in
      Return (MethodDeclarationTransform c (set_type_opt returnType s))
  | _ =>
      if is_phrase PhraseType.MethodDeclarationBody transform then
        c ← collection_pushMany (symbols_of transform) _children;
        Return (MethodDeclarationTransform c _symbol)
      else Return (MethodDeclarationTransform _children _symbol)
  end.

Definition PropertyElementTransformer_push (n : node) (location : PackedLocation)
  (doc : option (PhpDoc * PackedLocation)) (symbol : PhpSymbol) (reference : option loc)
  (transformer : MemberTransformer) (σ : Store) : completion (MemberTransformer * Store) :=
  if is_token TokenType.VariableName transformer then
    match text transformer, location_of transformer with
    | Some text1, Some location1 =>
        let s := assignPhpDocInfoToSymbol (set_name text1 symbol) doc in
        let '(l, σ) :=
          Store_.alloc (Reference.create SymbolKind.Property (name s) (range location1)) σ in
        Return (PropertyElementTransformer n location doc s (Some l),
                Store_.assign n (SlotRef l) σ)
    | _, _ => TypeError "Cannot read property 'range' of undefined"
    end
  else Return (PropertyElementTransformer n location doc symbol reference, σ).

Definition scalar_literal (t : MemberTransformer) : bool :=
  is_token TokenType.StringLiteral t
  || is_token TokenType.IntegerLiteral t
  || is_token TokenType.FloatingLiteral t.

Definition ClassConstantElementTransform_push (n : node) (location : PackedLocation)
  (doc : option (PhpDoc * PackedLocation)) (symbol : PhpSymbol)
  (transformer : MemberTransformer) (σ : Store) : completion (MemberTransformer * Store) :=
  if is_phrase PhraseType.Identifier transformer then
    let s := assignPhpDocInfoToSymbol (set_name (default "" (text transformer)) symbol) doc in
    match location_of transformer with
    | Some location1 =>
        let '(l, σ) :=
          Store_.alloc
            (Reference.create SymbolKind.ClassConstant (name s) (range location1)) σ in
        Return (ClassConstantElementTransform n location doc s,
                Store_.assign n (SlotRef l) σ)
    | None => TypeError "Cannot read property 'range' of undefined"
    end
  else if scalar_literal transformer then
    let s := set_value_opt (text transformer) symbol in
    let s := PhpSymbolOps.set_type (Transformer.tokenTypeToPhpType (tokenType transformer)) s in
    Return (ClassConstantElementTransform n location doc s, σ)
  else Return (ClassConstantElementTransform n location doc symbol, σ).

Definition FieldDeclarationTransform_push (p : PhraseType.t)
  (elementType : option PhraseType.t) (_modifier : Z)
  (symbols : list PhpSymbol) (transformer : MemberTransformer) : MemberTransformer :=
  if is_phrase PhraseType.MemberModifierList transformer then
    FieldDeclarationTransform p elementType (modifiers_of transformer) symbols
  else if bool_decide (phraseType transformer = elementType) then
    match symbol_of transformer with
    | Some s =>
        FieldDeclarationTransform p elementType _modifier
          (symbols ++ [PhpSymbolOps.set_modifiers (Z.lor (modifiers s) _modifier) s])
    | None => FieldDeclarationTransform p elementType _modifier symbols
    end
  else FieldDeclarationTransform p elementType _modifier symbols.

(** The symbol that a body takes from a child: the one of a simple
    variable, a closure, an anonymous class or a call, and the one of a
    catch-clause variable. *)
Definition body_symbol (child : MemberTransformer) : option PhpSymbol :=
  match phraseType child with
  | Some pt => if body_symbol_phrase pt then symbol_of child else None
  | None =>
      match child with
      | CatchClauseVariableNameTransform s _ => Some s
      | _ => None
      end
  end.

(** A child of a phrase type whose symbol a body reads, but without a
    symbol. *)
Definition symbol_missing (child : MemberTransformer) : Prop :=
  (∃ pt, phraseType child = Some pt ∧ body_symbol_phrase pt = true)
  ∧ symbol_of child = None.

(** [FileTransform.push] and the children of the symbol that its getter
    returns: a child without a symbol and without symbols is passed
    over. *)
Definition FileTransform_push (_children : UniqueSymbolCollection.t)
  (transform : MemberTransformer) : UniqueSymbolCollection.t :=
  match symbol_of transform with
  | Some s => UniqueSymbolCollection.push s _children
  | None =>
      match symbols_of transform with
      | Some symbols => UniqueSymbolCollection.pushMany symbols _children
      | None => _children
      end
  end.

(** [parent.push(child)] for the classes above; [None] for a parent of
    the classes of [NodeTransformer], whose [push] takes a child of those
    classes, and for an anonymous class and a closure, whose [push] reads
    the transformers of their header and of a class body, which are not
    among the classes here. *)
Definition push (parent child : MemberTransformer) (σ : Store)
  : option (completion (MemberTransformer * Store)) :=
  match parent with
  | Node_ _ => None
  | AnonymousClassDeclarationTransform _ _ => None
  | AnonymousFunctionCreationExpressionTransform _ _ => None
  | MemberModifierListTransform m =>
      Some (Return
              (match child with
               | Node_ t => MemberModifierListTransform (MemberModifierListTransform_push m t)
               | _ => MemberModifierListTransform m
               end, σ))
  | TypeDeclarationTransformer ty => Some (Return (TypeDeclarationTransformer_push ty child, σ))
  | ParameterDeclarationTransformer n loc0 d s r =>
      Some (ParameterDeclarationTransformer_push n loc0 d s r child σ)
  | MethodDeclarationHeaderTransformer n m nm ps rt r =>
      Some (MethodDeclarationHeaderTransformer_push n m nm ps rt r child σ)
  | FunctionDeclarationBodyTransform p c =>
      Some (t ← FunctionDeclarationBodyTransform_push p c child; Return (t, σ))
  | MethodDeclarationTransform c s =>
      Some (t ← MethodDeclarationTransform_push c s child; Return (t, σ))
  | PropertyElementTransformer n loc0 d s r =>
      Some (PropertyElementTransformer_push n loc0 d s r child σ)
  | ClassConstantElementTransform n loc0 d s =>
      Some (ClassConstantElementTransform_push n loc0 d s child σ)
  | FieldDeclarationTransform p e m symbols =>
      Some (Return (FieldDeclarationTransform_push p e m symbols child, σ))
  | CatchClauseVariableNameTransform s r =>
      Some (Return (CatchClauseVariableNameTransform s r, σ))
  end.

(** The children of a node, pushed one after the other as the walk
    leaves them; the first that throws ends the walk. *)
Fixpoint push_all (parent : MemberTransformer) (children : list MemberTransformer)
  (σ : Store) : option (completion (MemberTransformer * Store)) :=
  match children with
  | [] => Some (Return (parent, σ))
  | child :: rest =>
      match push parent child σ with
      | Some (Return (parent, σ)) => push_all parent rest σ
      | other => other
      end
  end.

End Push.

(** The children of a member modifier list, pushed one after the
    other. *)
Definition MemberModifierListTransform_push_all (children : list NodeTransformer) : Z :=
  fold_left MemberModifierListTransform_push children SymbolModifier.None.

End Members.

(** ** Notions used to state the properties, and sample inputs *)

(** The invariant of a collection: the superglobals stay in the map,
    every variable or parameter of the array is in the map, none of them
    is named as a superglobal, and their names differ. *)
Record wf (c : UniqueSymbolCollection.t) : Prop := mk_wf {
  wf_inbuilt : ∀ k, k ∈ UniqueSymbolCollection._inbuilt_names →
    is_Some (UniqueSymbolCollection._varMap c !! k);
  wf_marked : ∀ s, s ∈ UniqueSymbolCollection._symbols c →
    UniqueSymbolCollection.is_variable s →
    is_Some (UniqueSymbolCollection._varMap c !! name s);
  wf_clean : ∀ s, s ∈ UniqueSymbolCollection._symbols c →
    UniqueSymbolCollection.is_variable s →
    name s ∉ UniqueSymbolCollection._inbuilt_names;
  wf_nodup :
    NoDup (name <$> filter (λ s, UniqueSymbolCollection.is_variable s)
                      (UniqueSymbolCollection._symbols c))
}.

(** A directory whose only bucket holds one pair, under the key [BB]. *)
Definition one_bucket : @Cache.Directory string :=
  Cache.mkDirectory {[ 2112%Z := [("BB", "kept")] ]} ∅.

(** A location, for the sample inputs. *)
Definition here : PackedLocation := mkPackedLocation 0 (0%Z, 0%Z).

(** A resolver whose state is the current namespace and whose methods
    prefix it, as the resolver does for a name without alias. *)
Definition prefix_namespace (namespaceName name : string) : string :=
  if Js.truthy namespaceName then namespaceName +:+ "\" +:+ name else name.

Definition sample_resolveNotFullyQualified (namespaceName name : string) (kind : Z)
  : string := prefix_namespace namespaceName name.

Definition sample_push := Transformer.push sample_resolveNotFullyQualified prefix_namespace.

(** The variables of [function f() { $a = 1; $a = 2; $b = 3; }]. *)
Definition variable_a : PhpSymbol := PhpSymbolOps.create SymbolKind.Variable_ "$a" here.
Definition variable_a_again : PhpSymbol :=
  PhpSymbolOps.create SymbolKind.Variable_ "$a" (mkPackedLocation 0 (7%Z, 9%Z)).
Definition variable_b : PhpSymbol := PhpSymbolOps.create SymbolKind.Variable_ "$b" here.

(** The constant of [define('$argv', 1)]. *)
Definition constant_argv : PhpSymbol :=
  PhpSymbolOps.set_type "int"
    (PhpSymbolOps.set_value "1" (PhpSymbolOps.create SymbolKind.Constant "$argv" here)).

(** The argument list of [define('$argv', 1)] and of [define(FOO, 1)]. *)
Definition define_argv_arguments : NodeTransformer :=
  DelimiteredListTransformer PhraseType.ArgumentExpressionList
    [ TokenTransform 2 TokenType.StringLiteral "'$argv'" here;
      TokenTransform 3 TokenType.IntegerLiteral "1" here ].

Definition define_FOO_arguments : NodeTransformer :=
  DelimiteredListTransformer PhraseType.ArgumentExpressionList
    [ DefaultNodeTransformer 2 PhraseType.ConstantAccessExpression "FOO";
      TokenTransform 3 TokenType.IntegerLiteral "1" here ].

(** The store and the transformers of the function name in
    [namespace App; strlen($x)], of the type name [INT], and of the
    member name in [$o->prop], when the names have received their
    tokens. *)
Definition strlen_store : Store :=
  mkStore [Reference.create SymbolKind.Class "strlen" (0%Z, 0%Z)] {[ 1%nat := SlotRef 0 ]}.

Definition INT_store : Store :=
  mkStore [Reference.create SymbolKind.Class "INT" (0%Z, 0%Z)] {[ 1%nat := SlotRef 0 ]}.

Definition prop_store : Store :=
  mkStore [Reference.create SymbolKind.None "prop" (0%Z, 0%Z)] {[ 1%nat := SlotRef 0 ]}.

(** A pass that is about to leave the member name of [$o->prop], with
    the transformer of the property access below the one of the member
    name, and an empty set of names. *)
Definition prop_pass : SymbolsPass.t :=
  SymbolsPass.mk None None [] (Some [])
    [ Some (MemberAccessExpressionTransform PhraseType.PropertyAccessExpression
              SymbolKind.Property);
      Some (MemberNameTransform 1 0) ]
    None.

Definition sample_postorder :=
  SymbolsPass.postorder sample_resolveNotFullyQualified prefix_namespace.

(** The symbols of the tests of [PhpSymbol.keys]. *)
Definition test_class : PhpSymbol :=
  PhpSymbolOps.create SymbolKind.Class "Foo\MyFooClass" here.
Definition test_function : PhpSymbol :=
  PhpSymbolOps.create SymbolKind.Function "_my_function" here.
Definition test_property : PhpSymbol :=
  PhpSymbolOps.create SymbolKind.Variable_ "$myProperty" here.
Definition test_constant : PhpSymbol :=
  PhpSymbolOps.create SymbolKind.Variable_ "THIS_IS_A_CONSTANT" here.

(** The tags of [@property-read int $x], [@property-write int $y] and
    [@method static Foo create()]. *)
Definition tag_property_read : Tag :=
  mkTag "@property-read" "$x" "" "int" false None.
Definition tag_property_write : Tag :=
  mkTag "@property-write" "$y" "" "int" false None.
Definition tag_method_static : Tag :=
  mkTag "@method" "create" "" "Foo" true (Some []).

Definition sample_doc : PhpDoc :=
  mkPhpDoc "" [tag_property_read; tag_property_write] [tag_method_static].

(** A type-string resolver that leaves the type as written. *)
Definition sample_nameResolve (typeString : string) (nameResolver : string) : string :=
  typeString.

(** The reference of [prop] after the property access has absorbed the
    member name, and the store and the pass that hold it. *)
Definition prop_reference : Reference.t :=
  Reference.mk SymbolKind.Property "$prop" (0%Z, 0%Z) None None.

Definition prop_store_adorned : Store :=
  mkStore [prop_reference] {[ 1%nat := SlotRef 0 ]}.

Definition prop_pass_after : SymbolsPass.t :=
  SymbolsPass.mk None None [] (Some ["$prop"])
    [ Some (MemberAccessExpressionTransform PhraseType.PropertyAccessExpression
              SymbolKind.Property) ]
    (Some (MemberNameTransform 1 0)).

(** The same pass as the constructor leaves its fields, with the two
    transformers on its stack. *)
Definition prop_pass_constructed : SymbolsPass.t :=
  SymbolsPass.mk None None [] None (SymbolsPass._transformerStack prop_pass) None.

Definition prop_node : Node := mkNode 1 (Some PhraseType.MemberName).

(** The pass as the constructor leaves its fields when it is about to
    leave the simple variable of [$o->prop], the first node of the
    statement that bears a reference: the transformer of the property
    access is below the one of the variable, which has received its
    token. *)
Definition variable_o : PhpSymbol :=
  PhpSymbolOps.create SymbolKind.Variable_ "$o" (mkPackedLocation 0 (6%Z, 8%Z)).

Definition variable_o_store : Store :=
  mkStore [Reference.create SymbolKind.Variable_ "$o" (6%Z, 8%Z)] {[ 2%nat := SlotRef 0 ]}.

Definition variable_o_pass_constructed : SymbolsPass.t :=
  SymbolsPass.mk None None [] None
    [ Some (MemberAccessExpressionTransform PhraseType.PropertyAccessExpression
              SymbolKind.Property);
      Some (SimpleVariableTransform 2 (mkPackedLocation 0 (6%Z, 8%Z)) (Some variable_o)
              (Some 0%nat)) ]
    None.

Definition variable_o_node : Node := mkNode 2 (Some PhraseType.SimpleVariable).


(** ** Sample members *)

(** A doc block reader that finds no tag, and a scope setter that leaves
    the symbols as they are. *)
Definition no_named_tag (doc : PhpDoc) (name : string) : option Tag := None.
Definition no_return_tag (doc : PhpDoc) : option Tag := None.
Definition keep_scope (symbols : list PhpSymbol) (scope : string) : list PhpSymbol := symbols.

Definition sample_member_push_all :=
  Members.push_all sample_nameResolve no_named_tag no_named_tag no_return_tag keep_scope "".

(** The parameter [$x] of a method and the children of the header of
    [static function f($x)]. *)
Definition parameter_x : PhpSymbol :=
  PhpSymbolOps.create SymbolKind.Parameter_ "$x" (mkPackedLocation 0 (18%Z, 20%Z)).

Definition static_f_header_children : list MemberTransformer :=
  [ MemberModifierListTransform SymbolModifier.Static;
    Node_ (IdentifierTransformer "f" (Some (mkPackedLocation 0 (16%Z, 17%Z))));
    ParameterDeclarationTransformer 5 (mkPackedLocation 0 (18%Z, 20%Z)) None parameter_x
      (Some 0%nat) ].

(** The children of a body that reads [$a], catches [$e] and reads [$a]
    again; and the children of a body that reads the variable variable
    [$$a]. *)
Definition exception_e : PhpSymbol :=
  PhpSymbolOps.create SymbolKind.Variable_ "$e" (mkPackedLocation 0 (40%Z, 42%Z)).

Definition body_children_a_e_a : list MemberTransformer :=
  [ Node_ (SimpleVariableTransform 7 here (Some variable_a) (Some 1%nat));
    CatchClauseVariableNameTransform exception_e 2;
    Node_ (TokenTransform 8 TokenType.Unknown ";" here);
    Node_ (SimpleVariableTransform 9 here (Some variable_a_again) (Some 3%nat)) ].

(** The children of a body that reads [$a], creates a closure that
    reads [$b], and creates an anonymous class. *)
Definition closure_symbol : PhpSymbol :=
  PhpSymbolOps.set_modifiers SymbolModifier.Anonymous
    (PhpSymbolOps.create SymbolKind.Function "#anon#test#20"
       (mkPackedLocation 0 (20%Z, 45%Z))).

Definition anonymous_class_symbol : PhpSymbol :=
  PhpSymbolOps.set_children []
    (PhpSymbolOps.set_modifiers SymbolModifier.Anonymous
       (PhpSymbolOps.create SymbolKind.Class "#anon#test#50"
          (mkPackedLocation 0 (50%Z, 62%Z)))).

Definition body_children_closure_class : list MemberTransformer :=
  [ Node_ (SimpleVariableTransform 7 here (Some variable_a) (Some 1%nat));
    AnonymousFunctionCreationExpressionTransform closure_symbol
      (UniqueSymbolCollection.pushMany [variable_b] UniqueSymbolCollection.new);
    Members.new_AnonymousClassDeclarationTransform (mkPackedLocation 0 (50%Z, 62%Z))
      "#anon#test#50" ].

Definition body_children_variable_variable : list MemberTransformer :=
  [ Node_ (SimpleVariableTransform 7 here (Some variable_a) (Some 1%nat));
    Node_ (SimpleVariableTransform 8 here None None) ].

(** The property elements of [static $count, $total;], and the modifier
    list of the declaration. *)
Definition property_count : PhpSymbol :=
  PhpSymbolOps.create SymbolKind.Property "$count" (mkPackedLocation 0 (7%Z, 13%Z)).
Definition property_total : PhpSymbol :=
  PhpSymbolOps.create SymbolKind.Property "$total" (mkPackedLocation 0 (15%Z, 21%Z)).

Definition static_property_elements : list MemberTransformer :=
  [ PropertyElementTransformer 3 (mkPackedLocation 0 (7%Z, 13%Z)) None property_count
      (Some 0%nat);
    Node_ (TokenTransform 4 TokenType.Unknown "," (mkPackedLocation 0 (13%Z, 14%Z)));
    PropertyElementTransformer 5 (mkPackedLocation 0 (15%Z, 21%Z)) None property_total
      (Some 1%nat) ].

(** The children of the parameter declaration [&...$rest]. *)
Definition by_reference_rest_children : list MemberTransformer :=
  [ Node_ (TokenTransform 6 TokenType.Ampersand "&" (mkPackedLocation 0 (18%Z, 19%Z)));
    Node_ (TokenTransform 7 TokenType.Ellipsis "..." (mkPackedLocation 0 (19%Z, 22%Z)));
    Node_ (TokenTransform 8 TokenType.VariableName "$rest"
             (mkPackedLocation 0 (22%Z, 27%Z))) ].

(** The children of the class constant element [LIMIT = 10]. *)
Definition LIMIT_children : list MemberTransformer :=
  [ Node_ (IdentifierTransformer "LIMIT" (Some (mkPackedLocation 0 (6%Z, 11%Z))));
    Node_ (TokenTransform 4 TokenType.IntegerLiteral "10" (mkPackedLocation 0 (14%Z, 16%Z))) ].

(** * Part II: properties *)

(** ** The file cache *)

Section CacheFacts.

Import Js.

Context {V : Type}.
Variable hash32 : string → Z.

Implicit Types (b : @Cache.Bucket V) (d : @Cache.Directory V) (key : string).

Lemma bucketFind_Some b key item :
  Cache.bucketFind b key = Some item → fst item = key ∧ In item b.
Proof.
  unfold Cache.bucketFind. intros H.
  destruct (find_some _ _ H) as [Hin Heq].
  apply String.eqb_eq in Heq. auto.
Qed.

Lemma bucketFind_app b1 b2 key :
  Cache.bucketFind (b1 ++ b2) key =
  match Cache.bucketFind b1 key with
  | Some item => Some item
  | None => Cache.bucketFind b2 key
  end.
Proof.
  unfold Cache.bucketFind.
  induction b1 as [|i b1 IH]; simpl; [reflexivity|].
  destruct (String.eqb (fst i) key); [reflexivity | exact IH].
Qed.

(** After [bucketRemove], no pair is left under the removed key. *)
Lemma bucketFind_bucketRemove_same b key :
  Cache.bucketFind (Cache.bucketRemove b key) key = None.
Proof.
  unfold Cache.bucketFind, Cache.bucketRemove.
  induction b as [|i b IH]; simpl; [reflexivity|].
  destruct (String.eqb (fst i) key) eqn:E; simpl; [exact IH|].
  rewrite E. exact IH.
Qed.

(** [bucketRemove] leaves the pairs of the other keys where they are. *)
Lemma bucketFind_bucketRemove_other b key key' :
  key' ≠ key →
  Cache.bucketFind (Cache.bucketRemove b key) key' = Cache.bucketFind b key'.
Proof.
  intros Hne. unfold Cache.bucketFind, Cache.bucketRemove.
  induction b as [|i b IH]; simpl; [reflexivity|].
  destruct (String.eqb (fst i) key) eqn:E; simpl.
  - apply String.eqb_eq in E.
    destruct (String.eqb (fst i) key') eqn:E'; [|exact IH].
    apply String.eqb_eq in E'. congruence.
  - destruct (String.eqb (fst i) key'); [reflexivity | exact IH].
Qed.

Lemma bucketFind_written_same b key (data : V) :
  Cache.bucketFind (Cache.bucketRemove b key ++ [(key, data)]) key = Some (key, data).
Proof.
  rewrite bucketFind_app, bucketFind_bucketRemove_same.
  unfold Cache.bucketFind. simpl. rewrite String.eqb_refl. reflexivity.
Qed.

Lemma bucketFind_written_other b key key' (data : V) :
  key' ≠ key →
  Cache.bucketFind (Cache.bucketRemove b key ++ [(key, data)]) key' =
  Cache.bucketFind b key'.
Proof.
  intros Hne. rewrite bucketFind_app, bucketFind_bucketRemove_other by exact Hne.
  destruct (Cache.bucketFind b key'); [reflexivity|].
  unfold Cache.bucketFind. simpl.
  destruct (String.eqb key key') eqn:E; [|reflexivity].
  apply String.eqb_eq in E. congruence.
Qed.

(** What [read] resolves to, when the bucket file can be read. *)
Lemma read_resolved d key :
  Cache.errors d !! Cache._filePath hash32 key = None →
  Cache.read hash32 key d =
  Resolved (snd <$> (Cache.files d !! Cache._filePath hash32 key
                       ≫= λ b, Cache.bucketFind b key)).
Proof.
  intros He. unfold Cache.read, Cache.readFile. rewrite He.
  destruct (Cache.files d !! Cache._filePath hash32 key) as [b|]; simpl; [|reflexivity].
  destruct (Cache.bucketFind b key); reflexivity.
Qed.

(** [write] resolves when the file system raises no error on the bucket
    file, and leaves the bucket with the pair written last. *)
Lemma write_resolved d key (data : V) :
  Cache.errors d !! Cache._filePath hash32 key = None →
  Cache.write hash32 key data d =
  (Resolved tt,
   Cache.mkDirectory
     (<[Cache._filePath hash32 key :=
          match Cache.files d !! Cache._filePath hash32 key with
          | Some b => Cache.bucketRemove b key ++ [(key, data)]
          | None => [(key, data)]
          end]> (Cache.files d))
     (Cache.errors d)).
Proof.
  intros He. unfold Cache.write, Cache.readFile, Cache.writeFile.
  rewrite He. reflexivity.
Qed.

(** C4.  When the file system raises no error on the bucket file of
    [key], [write(key, data)] resolves, and in the directory it leaves
    [read(key)] resolves to [data], whatever pairs of other keys the
    bucket holds; the write changes what [read] resolves to for no other
    key, whether that key shares the bucket or not. *)
Theorem write_then_read d key (data : V) :
  Cache.errors d !! Cache._filePath hash32 key = None →
  ∃ d',
    Cache.write hash32 key data d = (Resolved tt, d')
    ∧ Cache.read hash32 key d' = Resolved (Some data)
    ∧ ∀ key', key' ≠ key → Cache.read hash32 key' d' = Cache.read hash32 key' d.
Proof.
  intros He. eexists. split; [apply write_resolved; exact He|]. split.
  - rewrite read_resolved by exact He. simpl. rewrite lookup_insert_eq. simpl.
    destruct (Cache.files d !! Cache._filePath hash32 key) as [b|].
    + rewrite bucketFind_written_same. reflexivity.
    + unfold Cache.bucketFind. simpl. rewrite String.eqb_refl. reflexivity.
  - intros key' Hne. unfold Cache.read, Cache.readFile. simpl.
    destruct (Cache.errors d !! Cache._filePath hash32 key'); [reflexivity|].
    destruct (decide (Cache._filePath hash32 key = Cache._filePath hash32 key')) as [Hp|Hp].
    + rewrite <- Hp, lookup_insert_eq.
      destruct (Cache.files d !! Cache._filePath hash32 key) as [b|].
      * rewrite bucketFind_written_other by exact Hne. reflexivity.
      * unfold Cache.bucketFind. simpl.
        destruct (String.eqb key key') eqn:E; [|reflexivity].
        apply String.eqb_eq in E. congruence.
    + rewrite lookup_insert_ne by exact Hp. reflexivity.
Qed.

(** Two keys written one after the other are both read back, also when
    they share a bucket. *)
Corollary write_write_read d key1 key2 (data1 data2 : V) :
  key1 ≠ key2 →
  Cache.errors d !! Cache._filePath hash32 key1 = None →
  Cache.errors d !! Cache._filePath hash32 key2 = None →
  ∃ d1 d2,
    Cache.write hash32 key1 data1 d = (Resolved tt, d1)
    ∧ Cache.write hash32 key2 data2 d1 = (Resolved tt, d2)
    ∧ Cache.read hash32 key1 d2 = Resolved (Some data1)
    ∧ Cache.read hash32 key2 d2 = Resolved (Some data2).
Proof.
  intros Hne He1 He2.
  destruct (write_then_read d key1 data1 He1) as (d1 & Hw1 & Hr1 & _).
  assert (He2' : Cache.errors d1 !! Cache._filePath hash32 key2 = None).
  { rewrite write_resolved in Hw1 by exact He1. injection Hw1 as <-. exact He2. }
  destruct (write_then_read d1 key2 data2 He2') as (d2 & Hw2 & Hr2 & Hframe).
  exists d1, d2. repeat split; try assumption.
  rewrite Hframe by exact Hne. exact Hr1.
Qed.

(** [delete] of a key that the bucket holds next to others rewrites the
    bucket without it: the other keys are read as before. *)
Lemma delete_present_frame d key b :
  Cache.errors d !! Cache._filePath hash32 key = None →
  Cache.files d !! Cache._filePath hash32 key = Some b →
  is_Some (Cache.bucketFind b key) → (1 < length b)%nat →
  ∃ d',
    Cache.delete hash32 key d = (Resolved tt, d')
    ∧ ∀ key', key' ≠ key → Cache.read hash32 key' d' = Cache.read hash32 key' d.
Proof.
  intros He Hf Hfound Hlen.
  unfold Cache.delete, Cache.readFile. rewrite He, Hf.
  rewrite bool_decide_eq_true_2 by exact Hfound.
  apply Nat.ltb_lt in Hlen. rewrite Hlen. simpl.
  unfold Cache.writeFile. rewrite He. eexists. split; [reflexivity|].
  intros key' Hne. unfold Cache.read, Cache.readFile. simpl.
  destruct (Cache.errors d !! Cache._filePath hash32 key'); [reflexivity|].
  destruct (decide (Cache._filePath hash32 key = Cache._filePath hash32 key')) as [Hp|Hp].
  - rewrite <- Hp, lookup_insert_eq, Hf.
    rewrite bucketFind_bucketRemove_other by exact Hne. reflexivity.
  - rewrite lookup_insert_ne by exact Hp. reflexivity.
Qed.

(** [delete] of a key that the bucket of its file does not hold unlinks
    the file, and with it the pairs of the keys that share the bucket. *)
Lemma delete_absent_unlinks d key b :
  Cache.errors d !! Cache._filePath hash32 key = None →
  Cache.files d !! Cache._filePath hash32 key = Some b →
  Cache.bucketFind b key = None →
  ∃ d',
    Cache.delete hash32 key d = (Resolved tt, d')
    ∧ ∀ key', Cache._filePath hash32 key' = Cache._filePath hash32 key →
              Cache.read hash32 key' d' = Resolved None.
Proof.
  intros He Hf Hnone.
  unfold Cache.delete, Cache.readFile. rewrite He, Hf, Hnone.
  rewrite bool_decide_eq_false_2 by (intros [x Hx]; discriminate).
  simpl. unfold Cache.deleteFile. rewrite He. eexists. split; [reflexivity|].
  intros key' Hp. unfold Cache.read, Cache.readFile. simpl.
  rewrite Hp, He, lookup_delete_eq. reflexivity.
Qed.

End CacheFacts.

(** The keys [Aa] and [BB] share a bucket under the sample hash. *)
Example sample_hash32_collision :
  Cache._filePath Cache.sample_hash32 "Aa" = 2112%Z
  ∧ Cache._filePath Cache.sample_hash32 "BB" = 2112%Z.
Proof. split; reflexivity. Qed.

Lemma write_then_read_witness :
  ∃ d',
    Cache.write Cache.sample_hash32 "Aa" "new" one_bucket = (Js.Resolved tt, d')
    ∧ Cache.read Cache.sample_hash32 "Aa" d' = Js.Resolved (Some "new")
    ∧ ∀ key', key' ≠ "Aa" →
        Cache.read Cache.sample_hash32 key' d' =
        Cache.read Cache.sample_hash32 key' one_bucket.
Proof.
  apply (write_then_read Cache.sample_hash32 one_bucket "Aa" "new").
  reflexivity.
Defined.

(** C3.  The bucket file [2112] holds one pair, under the key [BB];
    the key [Aa] has the same bucket file and no pair in it.
    [read("BB")] resolves to the stored value; [delete("Aa")] resolves,
    and after it the bucket file is gone and [read("BB")] resolves to
    [undefined]. *)
Theorem delete_absent_key_loses_bucket :
  Cache.read Cache.sample_hash32 "BB" one_bucket = Js.Resolved (Some "kept")
  ∧ ∃ d',
      Cache.delete Cache.sample_hash32 "Aa" one_bucket = (Js.Resolved tt, d')
      ∧ Cache.files d' !! 2112%Z = None
      ∧ Cache.read Cache.sample_hash32 "BB" d' = Js.Resolved None.
Proof.
  split; [reflexivity|].
  eexists. split; [reflexivity|]. split; reflexivity.
Qed.

(** ** UniqueSymbolCollection *)

Section CollectionFacts.

Import UniqueSymbolCollection.

Implicit Types (s : PhpSymbol) (c : UniqueSymbolCollection.t).

Lemma _inbuilt_lookup k :
  _inbuilt !! k = if bool_decide (k ∈ _inbuilt_names) then Some true else None.
Proof.
  unfold _inbuilt. case_bool_decide as Hk.
  - apply elem_of_list_to_map_1'.
    + intros y Hy. apply list_elem_of_fmap in Hy as (k' & [= -> ->] & _). reflexivity.
    + apply list_elem_of_fmap. exists k. split; [reflexivity | exact Hk].
  - apply not_elem_of_list_to_map_1. rewrite <- list_fmap_compose.
    intros Hin. apply Hk. apply list_elem_of_fmap in Hin as (k' & -> & Hin). exact Hin.
Qed.

(** On a new collection a name is free exactly when it is neither a
    superglobal nor a property that every object inherits. *)
Lemma varMap_undefined_new k :
  varMap_undefined (_varMap new) k = true ↔
  ((k ∉ _inbuilt_names) ∧ Js.inherited k = false).
Proof.
  unfold varMap_undefined, new. simpl. rewrite _inbuilt_lookup.
  case_bool_decide as Hk; simpl.
  - split; [discriminate | intros [H _]; contradiction].
  - rewrite negb_true_iff. tauto.
Qed.

Lemma push_symbols s c :
  _symbols (push s c) = _symbols c
  ∨ _symbols (push s c) = _symbols c ++ [s].
Proof.
  unfold push. destruct (is_variable s); [|right; reflexivity].
  destruct (varMap_undefined _ _); [right | left]; reflexivity.
Qed.

Lemma push_mono s s' c : s' ∈ _symbols c → s' ∈ _symbols (push s c).
Proof.
  intros Hin. destruct (push_symbols s c) as [-> | ->]; [exact Hin|].
  apply elem_of_app. left. exact Hin.
Qed.

Lemma pushMany_mono symbols s' c :
  s' ∈ _symbols c → s' ∈ _symbols (pushMany symbols c).
Proof.
  revert c. induction symbols as [|s symbols IH]; intros c Hin; simpl; [exact Hin|].
  apply IH, push_mono, Hin.
Qed.

(** The array grows at its end, by symbols taken in order from the ones
    pushed. *)
Lemma pushMany_sublist symbols c :
  ∃ added, _symbols (pushMany symbols c) = _symbols c ++ added
           ∧ added `sublist_of` symbols.
Proof.
  revert c. induction symbols as [|s symbols IH]; intros c; simpl.
  - exists []. split; [symmetry; apply app_nil_r | constructor].
  - destruct (IH (push s c)) as (added & -> & Hsub).
    destruct (push_symbols s c) as [-> | ->].
    + exists added. split; [reflexivity|]. apply sublist_cons, Hsub.
    + exists (s :: added). split; [rewrite <- app_assoc; reflexivity|].
      apply sublist_skip, Hsub.
Qed.

Lemma push_other_kinds s c :
  filter (λ s, ¬ is_variable s) (_symbols (push s c)) =
  filter (λ s, ¬ is_variable s) (_symbols c) ++ filter (λ s, ¬ is_variable s) [s].
Proof.
  unfold push. destruct (is_variable s) eqn:E.
  - rewrite (filter_cons_False _ s []) by (rewrite E; simpl; tauto).
    rewrite filter_nil, app_nil_r.
    destruct (varMap_undefined _ _); simpl; [|reflexivity].
    rewrite filter_app, (filter_cons_False _ s []) by (rewrite E; simpl; tauto).
    rewrite filter_nil, app_nil_r. reflexivity.
  - simpl. apply filter_app.
Qed.

Lemma pushMany_other_kinds symbols c :
  filter (λ s, ¬ is_variable s) (_symbols (pushMany symbols c)) =
  filter (λ s, ¬ is_variable s) (_symbols c) ++ filter (λ s, ¬ is_variable s) symbols.
Proof.
  revert c. induction symbols as [|s symbols IH]; intros c; simpl.
  - rewrite filter_nil, app_nil_r. reflexivity.
  - rewrite IH, push_other_kinds, <- app_assoc. f_equal.
    symmetry. apply (filter_app _ [s] symbols).
Qed.

Lemma wf_new : wf new.
Proof.
  split; simpl.
  - intros k Hk. rewrite _inbuilt_lookup, bool_decide_eq_true_2 by exact Hk. eauto.
  - intros s Hs. apply elem_of_nil in Hs. contradiction.
  - intros s Hs. apply elem_of_nil in Hs. contradiction.
  - constructor.
Qed.

Lemma wf_push s c : wf c → wf (push s c).
Proof.
  intros [Hin Hmark Hclean Hnd]. unfold push.
  destruct (is_variable s) eqn:Evar.
  - destruct (varMap_undefined (_varMap c) (name s)) eqn:Efree; [|split; assumption].
    assert (Hnone : _varMap c !! name s = None).
    { unfold varMap_undefined in Efree.
      destruct (_varMap c !! name s); [discriminate | reflexivity]. }
    split; simpl.
    + intros k Hk. rewrite lookup_insert. case_decide; [eauto | apply Hin, Hk].
    + intros s' Hs' Hv. rewrite lookup_insert. case_decide; [eauto|].
      apply elem_of_app in Hs' as [Hs' | Hs']; [apply Hmark; assumption|].
      apply list_elem_of_singleton in Hs'. subst s'. contradiction.
    + intros s' Hs' Hv. apply elem_of_app in Hs' as [Hs' | Hs'];
        [apply Hclean; assumption|].
      apply list_elem_of_singleton in Hs'. subst s'.
      intros Hk. destruct (Hin _ Hk) as [x Hx]. congruence.
    + rewrite filter_app, fmap_app.
      rewrite (filter_cons_True _ s []) by (rewrite Evar; exact I).
      rewrite filter_nil. simpl. apply NoDup_app. split; [exact Hnd|]. split.
      * intros k Hk Hk'. apply list_elem_of_singleton in Hk'. subst k.
        apply list_elem_of_fmap in Hk as (s' & Hname & Hs').
        apply list_elem_of_filter in Hs' as [Hv Hs'].
        destruct (Hmark s' Hs' Hv) as [x Hx]. congruence.
      * apply NoDup_singleton.
  - split; simpl.
    + exact Hin.
    + intros s' Hs' Hv. apply elem_of_app in Hs' as [Hs' | Hs'];
        [apply Hmark; assumption|].
      apply list_elem_of_singleton in Hs'. subst s'. rewrite Evar in Hv. contradiction.
    + intros s' Hs' Hv. apply elem_of_app in Hs' as [Hs' | Hs'];
        [apply Hclean; assumption|].
      apply list_elem_of_singleton in Hs'. subst s'. rewrite Evar in Hv. contradiction.
    + rewrite filter_app, (filter_cons_False _ s []) by (rewrite Evar; simpl; tauto).
      rewrite filter_nil, app_nil_r. exact Hnd.
Qed.

Lemma wf_pushMany symbols c : wf c → wf (pushMany symbols c).
Proof.
  revert c. induction symbols as [|s symbols IH]; intros c Hwf; simpl; [exact Hwf|].
  apply IH, wf_push, Hwf.
Qed.

(** A variable whose name is free when it is pushed is kept. *)
Lemma push_free_kept s c :
  is_variable s → varMap_undefined (_varMap c) (name s) = true →
  s ∈ _symbols (push s c).
Proof.
  intros Hv Hfree. unfold push.
  destruct (is_variable s); [|contradiction]. rewrite Hfree. simpl.
  apply elem_of_app. right. apply list_elem_of_singleton. reflexivity.
Qed.

(** Pushing a symbol leaves the names other than its own free. *)
Lemma push_other_name_free s c k :
  (is_variable s → name s ≠ k) →
  varMap_undefined (_varMap c) k = true →
  varMap_undefined (_varMap (push s c)) k = true.
Proof.
  intros Hne Hfree. unfold push.
  destruct (is_variable s) eqn:Ev; [|exact Hfree].
  destruct (varMap_undefined (_varMap c) (name s)); [|exact Hfree].
  unfold varMap_undefined in *. simpl.
  rewrite lookup_insert_ne by (apply Hne; exact I). exact Hfree.
Qed.

Lemma pushMany_first_kept before s after c :
  is_variable s → varMap_undefined (_varMap c) (name s) = true →
  (∀ s', s' ∈ before → is_variable s' → name s' ≠ name s) →
  s ∈ _symbols (pushMany (before ++ s :: after) c).
Proof.
  intros Hv. revert c. induction before as [|s0 before IH]; intros c Hfree Hfirst; simpl.
  - apply pushMany_mono, push_free_kept; assumption.
  - apply IH.
    + apply push_other_name_free; [|exact Hfree].
      apply Hfirst. apply elem_of_cons. left. reflexivity.
    + intros s' Hs'. apply Hfirst. apply elem_of_cons. right. exact Hs'.
Qed.

(** C5, amended.  Of the symbols pushed into a new collection, the array
    holds at most one variable or parameter of each name, and none that
    is named as a superglobal; the first variable or parameter of a name
    is kept, unless the name is a superglobal or a property that every
    object inherits; the symbols of the other kinds are all kept,
    whatever their name, in the order in which they were pushed; and the
    array lists its symbols in that order. *)
Theorem unique_symbol_collection (symbols : list PhpSymbol) :
  let result := toArray (pushMany symbols new) in
  NoDup (name <$> filter (λ s, is_variable s) result)
  ∧ (∀ s, s ∈ result → is_variable s → name s ∉ _inbuilt_names)
  ∧ (∀ before s after,
       symbols = before ++ s :: after → is_variable s →
       name s ∉ _inbuilt_names → Js.inherited (name s) = false →
       (∀ s', s' ∈ before → is_variable s' → name s' ≠ name s) →
       s ∈ result)
  ∧ filter (λ s, ¬ is_variable s) result = filter (λ s, ¬ is_variable s) symbols
  ∧ result `sublist_of` symbols.
Proof.
  intros result. unfold result, toArray.
  pose proof (wf_pushMany symbols new wf_new) as [_ _ Hclean Hnd].
  split; [exact Hnd|]. split; [exact Hclean|]. split; [|split].
  - intros before s after -> Hv Hk Hinh Hfirst.
    apply pushMany_first_kept; [exact Hv | | exact Hfirst].
    apply varMap_undefined_new. split; assumption.
  - rewrite pushMany_other_kinds. reflexivity.
  - destruct (pushMany_sublist symbols new) as (added & -> & Hsub). exact Hsub.
Qed.

End CollectionFacts.

(** The variables of [function f() { $a = 1; $a = 2; $b = 3; }]. *)
Example unique_variables :
  UniqueSymbolCollection.toArray
    (UniqueSymbolCollection.pushMany [variable_a; variable_a_again; variable_b]
       UniqueSymbolCollection.new)
  = [variable_a; variable_b].
Proof. reflexivity. Qed.

Lemma unique_symbol_collection_witness :
  variable_a ∈
    UniqueSymbolCollection.toArray
      (UniqueSymbolCollection.pushMany [variable_a; variable_a_again; variable_b]
         UniqueSymbolCollection.new).
Proof.
  destruct (unique_symbol_collection [variable_a; variable_a_again; variable_b])
    as (_ & _ & Hfirst & _).
  apply (Hfirst [] variable_a [variable_a_again; variable_b]).
  - reflexivity.
  - exact I.
  - apply (bool_decide_unpack _). vm_compute. exact I.
  - reflexivity.
  - intros s' Hs'. apply elem_of_nil in Hs'. contradiction.
Defined.

(** The constant of [define('$argv', 1)] is kept, under the name of a
    superglobal. *)
Lemma superglobal_named_constant_kept :
  constant_argv ∈
    UniqueSymbolCollection.toArray
      (UniqueSymbolCollection.pushMany [constant_argv] UniqueSymbolCollection.new)
  ∧ name constant_argv ∈ UniqueSymbolCollection._inbuilt_names.
Proof.
  split.
  - apply list_elem_of_In. left. reflexivity.
  - apply (bool_decide_unpack _). vm_compute. exact I.
Qed.

(** ** The store *)

Lemma deref_update_eq l f σ :
  Store_.deref l (Store_.update l f σ) = f <$> Store_.deref l σ.
Proof. unfold Store_.deref, Store_.update. simpl. apply list_lookup_alter_eq. Qed.

Lemma deref_update_ne l l' f σ :
  l ≠ l' → Store_.deref l' (Store_.update l f σ) = Store_.deref l' σ.
Proof.
  intros Hne. unfold Store_.deref, Store_.update. simpl.
  apply list_lookup_alter_ne, Hne.
Qed.

Lemma deref_alloc r σ :
  Store_.deref (fst (Store_.alloc r σ)) (snd (Store_.alloc r σ)) = Some r.
Proof.
  unfold Store_.deref, Store_.alloc. simpl.
  rewrite lookup_app_r by reflexivity. rewrite Nat.sub_diag. reflexivity.
Qed.

(** ** Qualified names *)

Section NameFacts.

Import Js Transformer.

Context {NameResolver : Type}.
Variable resolveNotFullyQualified : NameResolver → string → Z → string.
Variable resolveRelative : NameResolver → string → string.
Variable nameResolver : NameResolver.

#[local] Abbreviation push := (Transformer.push resolveNotFullyQualified resolveRelative nameResolver).
#[local] Abbreviation push_all :=
  (Transformer.push_all resolveNotFullyQualified resolveRelative nameResolver).
#[local] Abbreviation resolve :=
  (Transformer.qualified_name_resolve resolveNotFullyQualified nameResolver).

(** Absorbing a namespace name, a [QualifiedNameTransformer] takes over
    its reference and rewrites it in place. *)
Lemma QualifiedNameTransformer_push_namespace kind reference0 n text l σ :
  push (QualifiedNameTransformer kind reference0) (NamespaceNameTransformer n text l) σ
  = Return (QualifiedNameTransformer kind (Some l), Store_.update l (resolve kind) σ).
Proof. reflexivity. Qed.

(** The reference of a namespace name that has received the tokens of
    the name carries the written text as its name, and no unresolved
    name. *)
Lemma NamespaceNameTransformer_tokens tokens n text l σ r :
  Store_.deref l σ = Some r →
  Reference.name r = text → Reference.unresolvedName r = None →
  ∃ text' σ' r',
    push_all (NamespaceNameTransformer n text l) tokens σ
    = Return (NamespaceNameTransformer n text' l, σ')
    ∧ Store_.deref l σ' = Some r'
    ∧ Reference.name r' = text' ∧ Reference.unresolvedName r' = None
    ∧ slots σ' = slots σ.
Proof.
  revert text σ r. induction tokens as [|tok tokens IH]; intros text σ r Hl Hn Hu.
  - exists text, σ, r. repeat split; assumption.
  - simpl. unfold NamespaceNameTransformer_push.
    destruct (is_token TokenType.Name tok).
    + set (text1 := if truthy text then _ else _).
      destruct (IH text1 (Store_.update l (Reference.set_name text1) σ)
                  (Reference.set_name text1 r)) as (text' & σ' & r' & H1 & H2 & H3 & H4 & H5).
      * rewrite deref_update_eq, Hl. reflexivity.
      * reflexivity.
      * exact Hu.
      * exists text', σ', r'. repeat split; assumption.
    + apply (IH text σ r); assumption.
Qed.

Lemma new_NamespaceNameTransformer_reference n range σ :
  ∃ l σ',
    new_NamespaceNameTransformer n range σ = (NamespaceNameTransformer n "" l, σ')
    ∧ Store_.deref l σ' = Some (Reference.create SymbolKind.Class "" range)
    ∧ slots σ' !! n = Some (SlotRef l).
Proof.
  unfold new_NamespaceNameTransformer. simpl. eexists _, _. split; [reflexivity|].
  split.
  - unfold Store_.deref, Store_.assign. simpl.
    rewrite lookup_app_r by reflexivity. rewrite Nat.sub_diag. reflexivity.
  - unfold Store_.assign. simpl. apply lookup_insert_eq.
Qed.

(** What the resolution leaves in the fields of the reference. *)
Lemma qualified_name_resolve_reserved kind r :
  reserved (toLowerCase (Reference.name r)) = true →
  resolve kind r = Reference.set_kind kind r.
Proof. intros H. unfold qualified_name_resolve. simpl. rewrite H. reflexivity. Qed.

Lemma reserved_word name : name ∈ RESERVED_WORDS → reserved name = true.
Proof.
  intros H. unfold reserved. rewrite bool_decide_eq_true_2 by exact H. reflexivity.
Qed.

Lemma qualified_name_resolve_kind kind r : Reference.kind (resolve kind r) = kind.
Proof.
  unfold qualified_name_resolve. simpl.
  destruct (reserved _); [reflexivity|].
  destruct (_ && _); reflexivity.
Qed.

Lemma qualified_name_resolve_unresolvedName kind r :
  Reference.unresolvedName r = None →
  (Reference.unresolvedName (resolve kind r) = Some (Reference.name r)
   ∧ (kind = SymbolKind.Function ∨ kind = SymbolKind.Constant)
   ∧ Reference.name (resolve kind r) ≠ Reference.name r)
  ∨ (Reference.unresolvedName (resolve kind r) = None
     ∧ ¬ ((kind = SymbolKind.Function ∨ kind = SymbolKind.Constant)
          ∧ Reference.name (resolve kind r) ≠ Reference.name r)).
Proof.
  intros Hu. unfold qualified_name_resolve. simpl.
  destruct (reserved _).
  { right. simpl. split; [exact Hu|]. intros [_ H]. apply H. reflexivity. }
  destruct ((kind =? SymbolKind.Function)%Z || (kind =? SymbolKind.Constant)%Z) eqn:Ek;
    simpl.
  - destruct (String.eqb _ _) eqn:En; simpl.
    + right. split; [exact Hu|]. intros [_ H]. apply H.
      apply String.eqb_eq in En. exact En.
    + left. split; [reflexivity|]. split.
      * apply orb_true_iff in Ek as [Ek | Ek]; apply Z.eqb_eq in Ek; auto.
      * apply String.eqb_neq in En. exact En.
  - right. split; [exact Hu|]. intros [[-> | ->] _]; discriminate.
Qed.

(** A [QualifiedNameTransformer] absorbs a namespace name whose
    reference [r] carries no unresolved name. *)
Lemma QualifiedNameTransformer_push_unresolvedName kind reference0 n text l σ r :
  Store_.deref l σ = Some r →
  Reference.unresolvedName r = None →
  ∃ σ' r',
    push (QualifiedNameTransformer kind reference0) (NamespaceNameTransformer n text l) σ
    = Return (QualifiedNameTransformer kind (Some l), σ')
    ∧ slots σ' = slots σ
    ∧ Store_.deref l σ' = Some r'
    ∧ Reference.kind r' = kind
    ∧ ((Reference.unresolvedName r' = Some (Reference.name r)
        ∧ (kind = SymbolKind.Function ∨ kind = SymbolKind.Constant)
        ∧ Reference.name r' ≠ Reference.name r)
       ∨ (Reference.unresolvedName r' = None
          ∧ ¬ ((kind = SymbolKind.Function ∨ kind = SymbolKind.Constant)
               ∧ Reference.name r' ≠ Reference.name r))).
Proof.
  intros Hl Hu. exists (Store_.update l (resolve kind) σ), (resolve kind r).
  split; [apply QualifiedNameTransformer_push_namespace|].
  split; [reflexivity|].
  split; [rewrite deref_update_eq, Hl; reflexivity|].
  split; [apply qualified_name_resolve_kind|].
  apply qualified_name_resolve_unresolvedName, Hu.
Qed.

(** C6.  The transformer of a namespace name is created for the node
    [n] and receives the transforms of its children; [written] is the
    text it has gathered, the name as written.  A
    [QualifiedNameTransformer] of contextual kind [kind] that absorbs it
    returns, and the reference it leaves, which is the one in the
    [reference] slot of [n], has its [unresolvedName] set, to the written
    name, exactly when the kind is [Function] or [Constant] and the name
    it now carries differs from the written one; in every other case the
    field is unset. *)
Theorem unresolvedName_iff_rewritten kind reference0 n range children σ :
  ∃ written l σ1 σ2 r',
    Transformer.namespace_name resolveNotFullyQualified resolveRelative nameResolver
      n range children σ
    = Return (NamespaceNameTransformer n written l, σ1)
    ∧ push (QualifiedNameTransformer kind reference0)
        (NamespaceNameTransformer n written l) σ1
      = Return (QualifiedNameTransformer kind (Some l), σ2)
    ∧ slots σ2 !! n = Some (SlotRef l)
    ∧ Store_.deref l σ2 = Some r'
    ∧ Reference.kind r' = kind
    ∧ ((Reference.unresolvedName r' = Some written
        ∧ (kind = SymbolKind.Function ∨ kind = SymbolKind.Constant)
        ∧ Reference.name r' ≠ written)
       ∨ (Reference.unresolvedName r' = None
          ∧ ¬ ((kind = SymbolKind.Function ∨ kind = SymbolKind.Constant)
               ∧ Reference.name r' ≠ written))).
Proof.
  unfold Transformer.namespace_name.
  destruct (new_NamespaceNameTransformer_reference n range σ) as (l & σ0 & -> & Hl0 & Hs0).
  destruct (NamespaceNameTransformer_tokens children n "" l σ0 _ Hl0 eq_refl eq_refl)
    as (written & σ1 & r & Hpush & Hl1 & Hname & Hu & Hs1).
  destruct (QualifiedNameTransformer_push_unresolvedName kind reference0 n written l σ1 r
              Hl1 Hu) as (σ2 & r' & Hq & Hs2 & Hl2 & Hk & Hcases).
  exists written, l, σ1, σ2, r'.
  split; [exact Hpush|]. split; [exact Hq|].
  split; [rewrite Hs2, Hs1; exact Hs0|].
  split; [exact Hl2|]. split; [exact Hk|].
  rewrite Hname in Hcases. exact Hcases.
Qed.

(** C7.  When the written name is, up to case, one of the reserved
    words, the reference that the [QualifiedNameTransformer] leaves
    carries the written name unchanged: neither the namespace nor an
    alias is applied, and no unresolved name is recorded. *)
Theorem reserved_word_unchanged kind reference0 n text l σ r :
  Store_.deref l σ = Some r →
  toLowerCase (Reference.name r) ∈ RESERVED_WORDS →
  ∃ σ' r',
    push (QualifiedNameTransformer kind reference0) (NamespaceNameTransformer n text l) σ
    = Return (QualifiedNameTransformer kind (Some l), σ')
    ∧ Store_.deref l σ' = Some r'
    ∧ Reference.name r' = Reference.name r
    ∧ Reference.unresolvedName r' = Reference.unresolvedName r.
Proof.
  intros Hl Hres. exists (Store_.update l (resolve kind) σ), (resolve kind r).
  split; [apply QualifiedNameTransformer_push_namespace|].
  split; [rewrite deref_update_eq, Hl; reflexivity|].
  rewrite qualified_name_resolve_reserved by (apply reserved_word, Hres).
  split; reflexivity.
Qed.

(** ** Member access *)

Lemma member_access_adorn_kind symbolKind r :
  Reference.kind (member_access_adorn symbolKind r) = symbolKind.
Proof. unfold member_access_adorn. destruct (_ && _); reflexivity. Qed.

Lemma member_access_adorn_property_name r :
  Reference.name (member_access_adorn SymbolKind.Property r) =
  if truthy (Reference.name r) && negb (first_is "$" (Reference.name r))
  then "$" +:+ Reference.name r else Reference.name r.
Proof.
  unfold member_access_adorn. simpl.
  destruct (truthy (Reference.name r)); simpl; [|reflexivity].
  destruct (first_is "$" (Reference.name r)); reflexivity.
Qed.

Lemma MemberAccessExpressionTransform_push_member phraseType symbolKind child l σ :
  (∃ n, child = MemberNameTransform n l ∨ child = ScopedMemberNameTransform n l) →
  push (MemberAccessExpressionTransform phraseType symbolKind) child σ
  = Return (MemberAccessExpressionTransform phraseType symbolKind,
            Store_.update l (member_access_adorn symbolKind) σ).
Proof. intros [n [-> | ->]]; reflexivity. Qed.

(** C9.  A member-access transformer of symbol kind [Property] absorbs
    a member name or a scoped member name whose reference is [r].  The
    push returns and rewrites that reference in place, so the [reference]
    slot of the member-name node sees it: its kind becomes [Property]; a
    name that is not empty and does not begin with [$] gets a [$] in
    front; a name that begins with [$], or is empty, stays as it is; so a
    name that is not empty begins with [$]. *)
Theorem property_reference_name_prefixed phraseType child l σ r :
  (∃ n, child = MemberNameTransform n l ∨ child = ScopedMemberNameTransform n l) →
  Store_.deref l σ = Some r →
  ∃ σ' r',
    push (MemberAccessExpressionTransform phraseType SymbolKind.Property) child σ
    = Return (MemberAccessExpressionTransform phraseType SymbolKind.Property, σ')
    ∧ Store_.deref l σ' = Some r'
    ∧ slots σ' = slots σ
    ∧ Reference.kind r' = SymbolKind.Property
    ∧ (truthy (Reference.name r) = true → first_is "$" (Reference.name r) = false →
       Reference.name r' = "$" +:+ Reference.name r)
    ∧ (first_is "$" (Reference.name r) = true ∨ Reference.name r = "" →
       Reference.name r' = Reference.name r)
    ∧ (truthy (Reference.name r') = true → first_is "$" (Reference.name r') = true).
Proof.
  intros Hchild Hl.
  exists (Store_.update l (member_access_adorn SymbolKind.Property) σ),
         (member_access_adorn SymbolKind.Property r).
  split; [apply MemberAccessExpressionTransform_push_member, Hchild|].
  split; [rewrite deref_update_eq, Hl; reflexivity|].
  split; [reflexivity|].
  split; [apply member_access_adorn_kind|].
  rewrite member_access_adorn_property_name.
  destruct (Reference.name r) as [|c rest] eqn:En; simpl.
  - split; [discriminate|]. split; [reflexivity | discriminate].
  - destruct (Ascii.eqb c "$") eqn:Ec; simpl.
    + split; [discriminate|]. split; [reflexivity|]. intros _. exact Ec.
    + split; [reflexivity|]. split; [|reflexivity].
      intros [H | H]; discriminate.
Qed.

End NameFacts.

(** Witnesses and examples for the name transformers. *)

Example strlen_store_built :
  let '(nn, σ) := Transformer.new_NamespaceNameTransformer 1 (0%Z, 0%Z) Store_.empty in
  sample_push "App" nn (TokenTransform 2 TokenType.Name "strlen" here) σ
  = Js.Return (NamespaceNameTransformer 1 "strlen" 0, strlen_store).
Proof. reflexivity. Qed.

Example strlen_resolved :
  sample_push "App" (QualifiedNameTransformer SymbolKind.Function None)
    (NamespaceNameTransformer 1 "strlen" 0) strlen_store
  = Js.Return
      (QualifiedNameTransformer SymbolKind.Function (Some 0%nat),
       mkStore
         [Reference.mk SymbolKind.Function "App\strlen" (0%Z, 0%Z) (Some "strlen") None]
         {[ 1%nat := SlotRef 0 ]}).
Proof. reflexivity. Qed.

(** The same name as a class name: it is rewritten, and no unresolved
    name is kept. *)
Example strlen_resolved_as_class :
  sample_push "App" (QualifiedNameTransformer SymbolKind.Class None)
    (NamespaceNameTransformer 1 "strlen" 0) strlen_store
  = Js.Return
      (QualifiedNameTransformer SymbolKind.Class (Some 0%nat),
       mkStore [Reference.mk SymbolKind.Class "App\strlen" (0%Z, 0%Z) None None]
         {[ 1%nat := SlotRef 0 ]}).
Proof. reflexivity. Qed.

Lemma reserved_word_unchanged_witness :
  ∃ σ' r',
    sample_push "App" (QualifiedNameTransformer SymbolKind.Class None)
      (NamespaceNameTransformer 1 "INT" 0) INT_store
    = Js.Return (QualifiedNameTransformer SymbolKind.Class (Some 0%nat), σ')
    ∧ Store_.deref 0 σ' = Some r'
    ∧ Reference.name r' = "INT"
    ∧ Reference.unresolvedName r' = None.
Proof.
  apply (reserved_word_unchanged sample_resolveNotFullyQualified prefix_namespace
           "App" SymbolKind.Class None 1%nat "INT" 0%nat INT_store
           (Reference.create SymbolKind.Class "INT" (0%Z, 0%Z))).
  - reflexivity.
  - vm_compute. set_solver.
Defined.

Lemma property_reference_name_prefixed_witness :
  ∃ σ' r',
    sample_push ""
      (MemberAccessExpressionTransform PhraseType.PropertyAccessExpression
         SymbolKind.Property)
      (MemberNameTransform 1 0) prop_store
    = Js.Return
        (MemberAccessExpressionTransform PhraseType.PropertyAccessExpression
           SymbolKind.Property, σ')
    ∧ Store_.deref 0 σ' = Some r'
    ∧ slots σ' = slots prop_store
    ∧ Reference.kind r' = SymbolKind.Property
    ∧ (Js.truthy "prop" = true → Js.first_is "$" "prop" = false →
       Reference.name r' = "$prop")
    ∧ (Js.first_is "$" "prop" = true ∨ "prop" = "" → Reference.name r' = "prop")
    ∧ (Js.truthy (Reference.name r') = true →
       Js.first_is "$" (Reference.name r') = true).
Proof.
  apply (property_reference_name_prefixed sample_resolveNotFullyQualified
           prefix_namespace "" PhraseType.PropertyAccessExpression
           (MemberNameTransform 1 0) 0%nat prop_store
           (Reference.create SymbolKind.None "prop" (0%Z, 0%Z))).
  - exists 1%nat. left. reflexivity.
  - reflexivity.
Defined.

(** ** [define] calls *)

Section DefineFacts.

Import Js Transformer.

(** A first argument that is missing or is not a string literal leaves
    the transformer without symbol and without reference; the second
    argument then decides whether the push returns. *)
Lemma define_without_string_literal n location transforms σ :
  (∀ n1 text1 location1,
     transforms !! 0%nat ≠ Some (TokenTransform n1 TokenType.StringLiteral text1 location1)) →
  DefineFunctionCallExpressionTransform_push n location None None
    (DelimiteredListTransformer PhraseType.ArgumentExpressionList transforms) σ
  = match transforms !! 1%nat with
    | Some arg2 =>
        if scalar_literal arg2
        then TypeError "Cannot set property 'value' of undefined"
        else Return (DefineFunctionCallExpressionTransform n location None None, σ)
    | None => Return (DefineFunctionCallExpressionTransform n location None None, σ)
    end.
Proof.
  intros Hfirst. unfold DefineFunctionCallExpressionTransform_push.
  replace (is_phrase PhraseType.ArgumentExpressionList _) with true by reflexivity.
  destruct (transforms !! 0%nat) as [arg1|] eqn:E1; [|reflexivity].
  destruct arg1 as [n1 k1 t1 l1| | | | | | | | | | | |]; try reflexivity.
  destruct k1; try reflexivity.
  exfalso. apply (Hfirst n1 t1 l1). reflexivity.
Qed.

(** With a string literal first, the constant and its reference are
    created, and a scalar second argument gives the value and the
    type. *)
Example define_argv :
  sample_push "" (DefineFunctionCallExpressionTransform 1 here None None)
    define_argv_arguments Store_.empty
  = Return
      (DefineFunctionCallExpressionTransform 1 here (Some constant_argv) (Some 0%nat),
       mkStore [Reference.create SymbolKind.Constant "$argv" (0%Z, 0%Z)]
         {[ 1%nat := SlotRef 0 ]}).
Proof. reflexivity. Qed.

(** C1.  [define(FOO, 1)]: the first argument is a constant access, not
    a string literal, and the second is an integer literal.  The
    transformer of the call has no symbol when it comes to record the
    value, and the push throws. *)
Theorem define_non_string_name_with_scalar_throws :
  sample_push "" (DefineFunctionCallExpressionTransform 1 here None None)
    define_FOO_arguments Store_.empty
  = TypeError "Cannot set property 'value' of undefined".
Proof. reflexivity. Qed.

End DefineFacts.

(** ** Magic members *)

Section MagicFacts.

Import SymbolReader.

Context {NameResolver : Type}.
Variable nameResolve : string → NameResolver → string.

#[local] Abbreviation propertyTagToSymbol := (SymbolReader.propertyTagToSymbol nameResolve).
#[local] Abbreviation methodTagToSymbol := (SymbolReader.methodTagToSymbol nameResolve).
#[local] Abbreviation phpDocMembers := (SymbolReader.phpDocMembers nameResolve).

Lemma magicPropertyModifier_cases t :
  (tagName t = "@property-read" ∧ magicPropertyModifier t = SymbolModifier.ReadOnly)
  ∨ (tagName t = "@property-write" ∧ magicPropertyModifier t = SymbolModifier.WriteOnly)
  ∨ (tagName t ≠ "@property-read" ∧ tagName t ≠ "@property-write"
     ∧ magicPropertyModifier t = SymbolModifier.None).
Proof.
  unfold magicPropertyModifier.
  destruct (String.eqb (tagName t) "@property-read") eqn:Er.
  { left. apply String.eqb_eq in Er. auto. }
  destruct (String.eqb (tagName t) "@property-write") eqn:Ew.
  { right. left. apply String.eqb_eq in Ew. auto. }
  right. right. apply String.eqb_neq in Er, Ew. auto.
Qed.

Lemma propertyTagToSymbol_modifiers t phpDocLoc nameResolver :
  modifiers (propertyTagToSymbol t phpDocLoc nameResolver) =
  Z.lor (Z.lor (magicPropertyModifier t) SymbolModifier.Magic) SymbolModifier.Public.
Proof. reflexivity. Qed.

Lemma methodTagToSymbol_modifiers tag phpDocLoc nameResolver :
  modifiers (methodTagToSymbol tag phpDocLoc nameResolver) =
  if isStatic tag
  then Z.lor (Z.lor SymbolModifier.Magic SymbolModifier.Public) SymbolModifier.Static
  else Z.lor SymbolModifier.Magic SymbolModifier.Public.
Proof.
  unfold SymbolReader.methodTagToSymbol.
  destruct (parameters tag), (isStatic tag); reflexivity.
Qed.

Lemma propertyTagToSymbol_magic_public t phpDocLoc nameResolver :
  SymbolModifier.has (modifiers (propertyTagToSymbol t phpDocLoc nameResolver))
    SymbolModifier.Magic
  ∧ SymbolModifier.has (modifiers (propertyTagToSymbol t phpDocLoc nameResolver))
      SymbolModifier.Public.
Proof.
  rewrite propertyTagToSymbol_modifiers. unfold SymbolModifier.has.
  destruct (magicPropertyModifier_cases t) as [[_ ->] | [[_ ->] | (_ & _ & ->)]];
    split; reflexivity.
Qed.

Lemma methodTagToSymbol_magic_public tag phpDocLoc nameResolver :
  SymbolModifier.has (modifiers (methodTagToSymbol tag phpDocLoc nameResolver))
    SymbolModifier.Magic
  ∧ SymbolModifier.has (modifiers (methodTagToSymbol tag phpDocLoc nameResolver))
      SymbolModifier.Public.
Proof.
  rewrite methodTagToSymbol_modifiers. unfold SymbolModifier.has.
  destruct (isStatic tag); split; reflexivity.
Qed.

(** The parameters of a magic method are children of its symbol; they
    carry [Magic] alone. *)
Lemma magicMethodParameterToSymbol_modifiers p phpDocLoc nameResolver :
  modifiers (SymbolReader.magicMethodParameterToSymbol nameResolve p phpDocLoc nameResolver)
  = SymbolModifier.Magic.
Proof. reflexivity. Qed.

(** C8.  Every symbol that [phpDocMembers] makes of the property tags
    and the method tags of a doc block carries [Magic] and [Public]; the
    symbol of a [@property-read] tag also carries [ReadOnly], the one of a
    [@property-write] tag [WriteOnly], and the one of a static method tag
    [Static]. *)
Theorem magic_member_modifiers (phpDoc : PhpDoc) (phpDocLoc : PackedLocation)
  (nameResolver : NameResolver) :
  (∀ s, s ∈ phpDocMembers phpDoc phpDocLoc nameResolver →
        SymbolModifier.has (modifiers s) SymbolModifier.Magic
        ∧ SymbolModifier.has (modifiers s) SymbolModifier.Public)
  ∧ (∀ t, t ∈ propertyTags phpDoc →
          propertyTagToSymbol t phpDocLoc nameResolver
            ∈ phpDocMembers phpDoc phpDocLoc nameResolver
          ∧ (tagName t = "@property-read" →
             SymbolModifier.has
               (modifiers (propertyTagToSymbol t phpDocLoc nameResolver))
               SymbolModifier.ReadOnly)
          ∧ (tagName t = "@property-write" →
             SymbolModifier.has
               (modifiers (propertyTagToSymbol t phpDocLoc nameResolver))
               SymbolModifier.WriteOnly))
  ∧ (∀ t, t ∈ methodTags phpDoc →
          methodTagToSymbol t phpDocLoc nameResolver
            ∈ phpDocMembers phpDoc phpDocLoc nameResolver
          ∧ (isStatic t = true →
             SymbolModifier.has
               (modifiers (methodTagToSymbol t phpDocLoc nameResolver))
               SymbolModifier.Static)).
Proof.
  split; [|split].
  - intros s Hs. unfold SymbolReader.phpDocMembers in Hs.
    apply elem_of_app in Hs as [Hs | Hs];
      apply list_elem_of_fmap in Hs as (t & -> & _).
    + apply propertyTagToSymbol_magic_public.
    + apply methodTagToSymbol_magic_public.
  - intros t Ht. split; [|split].
    + unfold SymbolReader.phpDocMembers. apply elem_of_app. left.
      apply list_elem_of_fmap. exists t. split; [reflexivity | exact Ht].
    + intros Hname. rewrite propertyTagToSymbol_modifiers.
      unfold magicPropertyModifier. rewrite Hname. reflexivity.
    + intros Hname. rewrite propertyTagToSymbol_modifiers.
      unfold magicPropertyModifier. rewrite Hname. reflexivity.
  - intros t Ht. split.
    + unfold SymbolReader.phpDocMembers. apply elem_of_app. right.
      apply list_elem_of_fmap. exists t. split; [reflexivity | exact Ht].
    + intros Hstatic. rewrite methodTagToSymbol_modifiers, Hstatic. reflexivity.
Qed.

End MagicFacts.

(** The members of a doc block with a read-only property, a write-only
    property and a static method. *)
Lemma magic_member_modifiers_witness :
  SymbolModifier.has
    (modifiers (SymbolReader.propertyTagToSymbol sample_nameResolve tag_property_read here ""))
    SymbolModifier.ReadOnly
  ∧ SymbolModifier.has
      (modifiers (SymbolReader.propertyTagToSymbol sample_nameResolve tag_property_write here ""))
      SymbolModifier.WriteOnly
  ∧ SymbolModifier.has
      (modifiers (SymbolReader.methodTagToSymbol sample_nameResolve tag_method_static here ""))
      SymbolModifier.Static.
Proof.
  destruct (magic_member_modifiers sample_nameResolve sample_doc here "")
    as (_ & Hproperty & Hmethod).
  split; [|split].
  - apply (Hproperty tag_property_read); [apply list_elem_of_In; simpl; auto | reflexivity].
  - apply (Hproperty tag_property_write); [apply list_elem_of_In; simpl; auto | reflexivity].
  - apply (Hmethod tag_method_static); [apply list_elem_of_In; simpl; auto | reflexivity].
Defined.

(** ** The references of the pass *)

Section PassFacts.

Import Js SymbolsPass.

Context {NameResolver : Type}.
Variable resolveNotFullyQualified : NameResolver → string → Z → string.
Variable resolveRelative : NameResolver → string → string.
Variable nameResolver : NameResolver.

#[local] Abbreviation postorder :=
  (SymbolsPass.postorder resolveNotFullyQualified resolveRelative nameResolver).

Implicit Types (p : SymbolsPass.t) (r : Reference.t).

(** The constructor creates no set of names. *)
Lemma new_has_no_name_set :
  referenceNameSet SymbolsPass.new = None ∧ references SymbolsPass.new = [].
Proof. split; reflexivity. Qed.

(** Without a set of names, [addRefName] returns only when it has no
    name to add, and then changes nothing. *)
Lemma addRefName_without_set ref p :
  referenceNameSet p = None →
  addRefName ref p
  = if from_option named false ref
    then TypeError "Cannot read property 'add' of undefined"
    else Return p.
Proof.
  intros Hset. unfold addRefName, named, referenceNameSet_add.
  destruct ref as [r|]; [|reflexivity]. simpl.
  destruct (truthy (Reference.name r)); simpl.
  - rewrite Hset. reflexivity.
  - destruct (Reference.unresolvedName r) as [u|]; [|reflexivity].
    destruct (truthy u); [rewrite Hset|]; reflexivity.
Qed.

Lemma addRefNames_without_set refs p :
  referenceNameSet p = None →
  addRefNames refs p
  = if existsb (from_option named false) refs
    then TypeError "Cannot read property 'add' of undefined"
    else Return p.
Proof.
  intros Hset. induction refs as [|ref refs IH]; simpl; [reflexivity|].
  rewrite (addRefName_without_set ref p Hset).
  destruct (from_option named false ref); simpl; [reflexivity | exact IH].
Qed.

(** On a pass without a set of names, which is every pass that the
    constructor has built, a post-order step that returns has appended
    nothing to the list [references] and has met no reference with a
    name: where the node bears references and its transformer is on top
    of the stack, every reference in the slot of the node has an empty
    name and no unresolved name to speak of. *)
Lemma postorder_without_set (node : Node) p σ p' σ' :
  referenceNameSet p = None →
  postorder node p σ = Return (p', σ') →
  references p' = references p
  ∧ referenceNameSet p' = None
  ∧ (∀ pt transformer,
       phraseType node = Some pt → bears_reference pt = true →
       last (_transformerStack p) = Some (Some transformer) →
       Transformer.node_of transformer = Some (node_id node) →
       ∀ r, Some r ∈ slot_references (node_id node) σ' → named r = false).
Proof.
  intros Hset. unfold SymbolsPass.postorder.
  destruct (phraseType node) as [pt|] eqn:Ept.
  2:{ intros [= <- <-]. split; [reflexivity|]. split; [exact Hset | discriminate]. }
  case_bool_decide as Hunknown.
  { intros [= <- <-]. split; [reflexivity|]. split; [exact Hset|].
    intros pt' t [= <-]. subst pt. discriminate. }
  destruct (last (_transformerStack p)) as [[transformer|]|] eqn:Etop; try discriminate.
  case_bool_decide as Hnode.
  2:{ intros [= <- <-]. split; [reflexivity|]. split; [exact Hset|].
      intros pt' t _ _ [= <-]. contradiction. }
  set (step := match last (removelast (_transformerStack p)) with
               | Some (Some parent) => _ | Some None => _ | None => _ end).
  destruct step as [[stack σ1]|]; [|discriminate]. simpl.
  destruct (bears_reference pt) eqn:Ebears.
  - set (p1 := if clears_phpDoc pt then _ else _).
    assert (Hp1 : references p1 = references p ∧ referenceNameSet p1 = None).
    { unfold p1. destruct (clears_phpDoc pt); split; simpl; auto. }
    destruct Hp1 as [Hr1 Hs1].
    rewrite (addRefNames_without_set _ p1 Hs1).
    destruct (existsb _ _) eqn:Eex; [discriminate|]. simpl. intros [= <- <-].
    split; [exact Hr1|]. split; [exact Hs1|].
    intros _ _ _ _ _ _ r Hr.
    destruct (named r) eqn:En; [|reflexivity].
    assert (Htrue : existsb (from_option named false)
                      (slot_references (node_id node) σ1) = true).
    { apply existsb_exists. exists (Some r). split; [apply list_elem_of_In, Hr | exact En]. }
    congruence.
  - intros [= <- <-]. split; [|split].
    + destruct (clears_phpDoc pt); reflexivity.
    + destruct (clears_phpDoc pt); exact Hset.
    + intros pt' t [= <-]. congruence.
Qed.

End PassFacts.

(** C2.  [$o->prop] on a pass as the constructor leaves it, with no set
    of names: the post-order step at the simple variable [$o], the first
    node that bears a reference, pops its transformer and then throws in
    [addRefName], and so would the step at the member name [prop]; the
    list [references] of the pass is empty. *)
Theorem named_reference_aborts_the_pass :
  SymbolsPass.references variable_o_pass_constructed = []
  ∧ sample_postorder "" variable_o_node variable_o_pass_constructed variable_o_store
    = Js.TypeError "Cannot read property 'add' of undefined"
  ∧ sample_postorder "" prop_node prop_pass_constructed prop_store
    = Js.TypeError "Cannot read property 'add' of undefined".
Proof. repeat split. Qed.

(** ** Suffix keys *)

(** The expected values of the tests of [PhpSymbol.keys]. *)
Example keys_test_class :
  Keys.keys Keys.camel_case_start test_class
  = ["foo\myfooclass"; "myfooclass"; "fooclass"; "class"].
Proof. reflexivity. Qed.

Example keys_test_function :
  Keys.keys Keys.camel_case_start test_function
  = ["_my_function"; "my_function"; "function"].
Proof. reflexivity. Qed.

Example keys_test_property :
  Keys.keys Keys.camel_case_start test_property
  = ["$myproperty"; "myproperty"; "property"].
Proof. reflexivity. Qed.

Example keys_test_constant :
  Keys.keys Keys.camel_case_start test_constant
  = ["this_is_a_constant"; "is_a_constant"; "a_constant"; "constant"].
Proof. reflexivity. Qed.

Section KeysFacts.

Import Js Keys.

Variable word_start : ascii → string → bool.

#[local] Abbreviation keys := (Keys.keys word_start).
#[local] Abbreviation starts_key := (Keys.starts_key word_start).
#[local] Abbreviation suffixes := (Keys.suffixes word_start).
#[local] Abbreviation word_suffixes := (Keys.word_suffixes word_start).
#[local] Abbreviation next_from := (Keys.next_from word_start).
#[local] Abbreviation next_suffix := (Keys.next_suffix word_start).
#[local] Abbreviation at_boundary := (Keys.at_boundary word_start).
#[local] Abbreviation next_boundary_suffix := (Keys.next_boundary_suffix word_start).
#[local] Abbreviation final_word := (Keys.final_word word_start).

Lemma toLowerCase_app a b : toLowerCase (a +:+ b) = toLowerCase a +:+ toLowerCase b.
Proof. induction a as [|c a IH]; simpl; [reflexivity | rewrite IH; reflexivity]. Qed.

Lemma length_app_string a b :
  String.length (a +:+ b) = (String.length a + String.length b)%nat.
Proof.
  induction a as [|c a IH]; [reflexivity|].
  change (String c a +:+ b) with (String c (a +:+ b)). simpl. rewrite IH. reflexivity.
Qed.

(** Where a word splits before a character. *)
Lemma split_cons c s q c' v :
  String c s = q +:+ String c' v →
  (q = "" ∧ c = c' ∧ s = v) ∨ (∃ q', q = String c q' ∧ s = q' +:+ String c' v).
Proof.
  destruct q as [|x q'].
  - change ("" +:+ String c' v) with (String c' v). intros [= -> ->]. left. auto.
  - change (String x q' +:+ String c' v) with (String x (q' +:+ String c' v)).
    intros [= -> ->]. right. exists q'. auto.
Qed.

Lemma split_empty q c v : "" ≠ q +:+ String c v.
Proof. destruct q; discriminate. Qed.

Lemma starts_key_at_boundary prev w : starts_key prev w = true ↔ at_boundary prev w.
Proof.
  unfold Keys.starts_key, Keys.separator, Keys.at_boundary.
  rewrite !orb_true_iff, !Ascii.eqb_eq. tauto.
Qed.

Lemma starts_key_not_at_boundary prev w : starts_key prev w = false → ¬ at_boundary prev w.
Proof. intros H Hb. apply starts_key_at_boundary in Hb. congruence. Qed.

(** The suffixes are the proper suffixes at a boundary, all of them. *)
Lemma suffixes_complete prev s q prev' v :
  String prev s = q +:+ String prev' v → v ≠ "" → starts_key prev' v = true →
  v ∈ suffixes prev s.
Proof.
  revert prev q. induction s as [|c r IH]; intros prev q Hsplit Hv Hkey.
  - apply split_cons in Hsplit as [(_ & _ & <-) | (q' & _ & Hq)]; [contradiction|].
    exfalso. apply (split_empty _ _ _ Hq).
  - simpl. apply split_cons in Hsplit as [(_ & <- & <-) | (q' & _ & Hq)].
    + rewrite Hkey. apply elem_of_cons. left. reflexivity.
    + apply elem_of_app. right. apply (IH c q' Hq Hv Hkey).
Qed.

Lemma next_from_None prev s q prev' v :
  next_from prev s = None →
  String prev s = q +:+ String prev' v → v ≠ "" → starts_key prev' v = false.
Proof.
  revert prev q. induction s as [|c r IH]; intros prev q Hnone Hsplit Hv.
  - apply split_cons in Hsplit as [(_ & _ & <-) | (q' & _ & Hq)]; [contradiction|].
    exfalso. apply (split_empty _ _ _ Hq).
  - simpl in Hnone. destruct (starts_key prev (String c r)) eqn:Ekey; [discriminate|].
    apply split_cons in Hsplit as [(_ & <- & <-) | (q' & _ & Hq)]; [exact Ekey|].
    apply (IH c q' Hnone Hq Hv).
Qed.

Lemma next_from_Some prev s w' :
  next_from prev s = Some w' →
  ∃ p prev0,
    String prev s = p +:+ String prev0 w' ∧ w' ≠ "" ∧ starts_key prev0 w' = true
    ∧ (String.length w' <= String.length s)%nat
    ∧ ∀ q prev' v, String prev s = q +:+ String prev' v →
                   (String.length w' < String.length v)%nat → starts_key prev' v = false.
Proof.
  revert prev. induction s as [|c r IH]; intros prev Hsome; simpl in Hsome; [discriminate|].
  destruct (starts_key prev (String c r)) eqn:Ekey.
  - injection Hsome as <-. exists "", prev.
    split; [reflexivity|]. split; [discriminate|]. split; [exact Ekey|]. split; [lia|].
    intros q prev' v Hsplit Hlen. exfalso.
    apply (f_equal String.length) in Hsplit. rewrite length_app_string in Hsplit.
    simpl in Hsplit, Hlen. lia.
  - destruct (IH c Hsome) as (p & prev0 & Hp & Hne & Hkey & Hle & Hfirst).
    exists (String prev p), prev0.
    split; [change (String prev (String c r) = String prev (p +:+ String prev0 w'));
            rewrite Hp; reflexivity|].
    split; [exact Hne|]. split; [exact Hkey|]. split; [simpl; lia|].
    intros q prev' v Hsplit Hlen.
    apply split_cons in Hsplit as [(_ & <- & <-) | (q' & _ & Hq)]; [exact Ekey|].
    apply (Hfirst q' prev' v Hq Hlen).
Qed.

(** The suffixes start with the one at the first boundary, and go on
    with the suffixes of that one. *)
Lemma suffixes_next prev s :
  suffixes prev s =
  match next_from prev s with
  | Some w' => w' :: word_suffixes w'
  | None => []
  end.
Proof.
  revert prev. induction s as [|c r IH]; intros prev; simpl; [reflexivity|].
  destruct (starts_key prev (String c r)); simpl; [reflexivity | apply IH].
Qed.

Lemma word_suffixes_next w :
  word_suffixes w =
  match next_suffix w with
  | Some w' => w' :: word_suffixes w'
  | None => []
  end.
Proof. destruct w as [|c r]; simpl; [reflexivity | apply suffixes_next]. Qed.

Lemma next_suffix_shorter w w' :
  next_suffix w = Some w' → (String.length w' < String.length w)%nat.
Proof.
  destruct w as [|c r]; simpl; [discriminate|]. intros H.
  destruct (next_from_Some _ _ _ H) as (_ & _ & _ & _ & _ & Hle & _). lia.
Qed.

(** In the list of the word and its suffixes, a word is followed by its
    suffix at the first boundary, and the last word has none. *)
Lemma word_suffixes_consecutive w i w1 w2 :
  (w :: word_suffixes w) !! i = Some w1 → (w :: word_suffixes w) !! S i = Some w2 →
  next_suffix w1 = Some w2.
Proof.
  remember (String.length w) as n eqn:Hn.
  revert w Hn i. induction (lt_wf n) as [n _ IH]. intros w -> i.
  rewrite word_suffixes_next.
  destruct (next_suffix w) as [w'|] eqn:E.
  - destruct i as [|i]; simpl.
    + intros [= <-] [= <-]. exact E.
    + apply (IH _ (next_suffix_shorter _ _ E) w' eq_refl i).
  - destruct i as [|i]; simpl; [intros _ H | intros H]; discriminate H.
Qed.

Lemma word_suffixes_last w final :
  last (w :: word_suffixes w) = Some final → next_suffix final = None.
Proof.
  remember (String.length w) as n eqn:Hn.
  revert w Hn. induction (lt_wf n) as [n _ IH]. intros w ->.
  rewrite word_suffixes_next.
  destruct (next_suffix w) as [w'|] eqn:E.
  - rewrite last_cons_cons. apply (IH _ (next_suffix_shorter _ _ E) w' eq_refl).
  - simpl. intros [= <-]. exact E.
Qed.

Lemma next_suffix_Some w w' : next_suffix w = Some w' → next_boundary_suffix w w'.
Proof.
  destruct w as [|c r]; simpl; [discriminate|]. intros H.
  destruct (next_from_Some _ _ _ H) as (p & prev0 & Hp & Hne & Hkey & _ & Hfirst).
  exists p, prev0. split; [exact Hp|]. split; [exact Hne|].
  split; [apply starts_key_at_boundary, Hkey|].
  intros q prev' v Hsplit Hlen. apply starts_key_not_at_boundary.
  apply (Hfirst q prev' v Hsplit Hlen).
Qed.

Lemma next_suffix_None w : next_suffix w = None → final_word w.
Proof.
  destruct w as [|c r]; simpl; intros H q prev v Hsplit Hv.
  - exfalso. apply (split_empty _ _ _ Hsplit).
  - apply starts_key_not_at_boundary. apply (next_from_None _ _ _ _ _ H Hsplit Hv).
Qed.

(** Lowercasing keeps the namespace separator and the underscore, and
    makes no other character one of them. *)
Lemma lower_ascii_separator c :
  (lower_ascii c = "\"%char → c = "\"%char) ∧ (lower_ascii c = "_"%char → c = "_"%char).
Proof.
  destruct c as [[] [] [] [] [] [] [] []]; split; intros H; vm_compute in H;
    first [reflexivity | discriminate H].
Qed.

Lemma toLowerCase_split w p c v :
  toLowerCase w = p +:+ String c v →
  ∃ p' c' v', w = p' +:+ String c' v' ∧ lower_ascii c' = c ∧ toLowerCase v' = v.
Proof.
  revert w. induction p as [|x p IH]; intros w.
  - change ("" +:+ String c v) with (String c v).
    destruct w as [|c' v']; simpl; [discriminate|]. intros [= Hc Hv].
    exists "", c', v'. auto.
  - change (String x p +:+ String c v) with (String x (p +:+ String c v)).
    destruct w as [|y w]; simpl; [discriminate|]. intros [= _ Hw].
    destruct (IH w Hw) as (p' & c' & v' & -> & Hc & Hv).
    exists (String y p'), c', v'. auto.
Qed.

(** C10, amended.  The keys of a symbol are the lowercased words of a
    list that starts with the name; each further word is the strict
    right-suffix of the word before it that starts at the next boundary
    of that word, and the last word holds no boundary.  A boundary
    follows a namespace separator, follows an underscore, or is one of
    the further word starts, for which the spec states no rule.  So the
    first key is the lowercased name; every further key is a strict
    right-suffix of the key before it; the last key holds no namespace
    separator and no underscore before another character; and every
    suffix of the name that follows a namespace separator or an
    underscore gives a key. *)
Theorem suffix_keys_law (s : PhpSymbol) :
  ∃ words,
    keys s = toLowerCase <$> (name s :: words)
    ∧ (∀ i w1 w2, (name s :: words) !! i = Some w1 → (name s :: words) !! S i = Some w2 →
                  next_boundary_suffix w1 w2)
    ∧ (∀ final, last (name s :: words) = Some final → final_word final)
    ∧ keys s !! 0%nat = Some (toLowerCase (name s))
    ∧ (∀ i k1 k2, keys s !! i = Some k1 → keys s !! S i = Some k2 →
                  ∃ p prev, k1 = p +:+ String prev k2)
    ∧ (∀ final, last (keys s) = Some final →
                ∀ p prev v, final = p +:+ String prev v → v ≠ "" →
                            prev ≠ "\"%char ∧ prev ≠ "_"%char)
    ∧ (∀ p prev w, name s = p +:+ String prev w → w ≠ "" →
                   prev = "\"%char ∨ prev = "_"%char → toLowerCase w ∈ keys s).
Proof.
  exists (word_suffixes (name s)).
  assert (Hnext : ∀ i w1 w2,
            (name s :: word_suffixes (name s)) !! i = Some w1 →
            (name s :: word_suffixes (name s)) !! S i = Some w2 →
            next_boundary_suffix w1 w2).
  { intros i w1 w2 H1 H2.
    apply next_suffix_Some, (word_suffixes_consecutive (name s) i w1 w2 H1 H2). }
  assert (Hlast : ∀ final, last (name s :: word_suffixes (name s)) = Some final →
                           final_word final).
  { intros final H. apply next_suffix_None, (word_suffixes_last (name s) final H). }
  split; [reflexivity|]. split; [exact Hnext|]. split; [exact Hlast|].
  split; [reflexivity|]. split; [|split].
  - intros i k1 k2 H1 H2. unfold Keys.keys in H1, H2.
    rewrite list_lookup_fmap in H1, H2.
    destruct ((name s :: word_suffixes (name s)) !! i) as [w1|] eqn:E1; [|discriminate].
    destruct ((name s :: word_suffixes (name s)) !! S i) as [w2|] eqn:E2; [|discriminate].
    simpl in H1, H2. injection H1 as <-. injection H2 as <-.
    destruct (Hnext i w1 w2 E1 E2) as (p & prev & -> & _).
    exists (toLowerCase p), (lower_ascii prev). apply toLowerCase_app.
  - intros final Hfinal p prev v Hsplit Hv. unfold Keys.keys in Hfinal.
    rewrite fmap_last in Hfinal.
    destruct (last (name s :: word_suffixes (name s))) as [w|] eqn:Ew; [|discriminate].
    simpl in Hfinal. injection Hfinal as <-.
    destruct (toLowerCase_split _ _ _ _ Hsplit) as (p' & c' & v' & -> & Hc & Hv').
    assert (Hv'' : v' ≠ "") by (intros ->; apply Hv; symmetry; exact Hv').
    pose proof (Hlast _ eq_refl p' c' v' eq_refl Hv'') as Hnot.
    destruct (lower_ascii_separator c') as [Hsep Hund]. rewrite Hc in Hsep, Hund.
    split; intros Hp; apply Hnot; [left; auto | right; left; auto].
  - intros p prev w Hsplit Hw Hsep. unfold Keys.keys.
    apply list_elem_of_fmap. exists w. split; [reflexivity|].
    apply elem_of_cons. right.
    destruct (name s) as [|c r]; [exfalso; apply (split_empty _ _ _ Hsplit)|].
    simpl. apply (suffixes_complete c r p prev w Hsplit Hw).
    apply starts_key_at_boundary. destruct Hsep as [-> | ->]; [left | right; left]; reflexivity.
Qed.

End KeysFacts.

(** By the words of the spec alone, with no further word start, the
    name of the first test has two keys: the test expects four. *)
Example keys_by_the_words_alone :
  Keys.keys (λ _ _, false) test_class = ["foo\myfooclass"; "myfooclass"].
Proof. reflexivity. Qed.

Lemma myfooclass_holds_no_separator : ¬ Keys.separator_suffix "myfooclass" "fooclass".
Proof.
  intros (p & prev & Hsplit & Hsep).
  destruct p as [|c1 [|c2 p]].
  - discriminate Hsplit.
  - injection Hsplit as _ Hprev. subst prev. destruct Hsep; discriminate.
  - apply (f_equal String.length) in Hsplit.
    change (String c1 (String c2 p) +:+ String prev "fooclass")
      with (String c1 (String c2 (p +:+ String prev "fooclass"))) in Hsplit.
    simpl in Hsplit. rewrite length_app_string in Hsplit. simpl in Hsplit. lia.
Qed.

(** Whatever the rule for the further keys is: when the first test
    passes, the keys of its symbol are not, each after the first, a
    suffix of the key before at a namespace separator or an underscore. *)
Lemma separator_law_fails_the_test (word_start : ascii → string → bool) :
  Keys.keys word_start test_class = ["foo\myfooclass"; "myfooclass"; "fooclass"; "class"] →
  ¬ (∀ i k1 k2, Keys.keys word_start test_class !! i = Some k1 →
                Keys.keys word_start test_class !! S i = Some k2 →
                Keys.separator_suffix k1 k2).
Proof.
  intros Htest Hlaw. rewrite Htest in Hlaw.
  apply myfooclass_holds_no_separator, (Hlaw 1%nat); reflexivity.
Qed.

(** C10, counterexample.  The third key of [Foo\MyFooClass], in the
    claim's own example and in the expected value of the first test, is
    [fooclass], after [myfooclass], which holds neither a namespace
    separator nor an underscore: it is not a suffix at one of the
    boundaries that the law names. *)
Lemma keys_not_separator_chain :
  Keys.keys Keys.camel_case_start test_class
  = ["foo\myfooclass"; "myfooclass"; "fooclass"; "class"]
  ∧ ¬ Keys.separator_suffix "myfooclass" "fooclass".
Proof. split; [reflexivity | apply myfooclass_holds_no_separator]. Qed.

(** ** The file cache: deletion, errors, and the shape of the buckets *)

Section CacheExtras.

Import Js CacheInvariant.

Context {V : Type}.
Variable hash32 : string → Z.

Implicit Types (b : @Cache.Bucket V) (d : @Cache.Directory V) (key : string).

(** X1.  When the file system raises no error on the bucket file of [key],
    [delete(key)] resolves, and [read(key)] then resolves to [undefined],
    whether the bucket is rewritten, unlinked or was never there. *)
Theorem delete_then_read d key :
  Cache.errors d !! Cache._filePath hash32 key = None →
  ∃ d',
    Cache.delete hash32 key d = (Resolved tt, d')
    ∧ Cache.read hash32 key d' = Resolved None.
Proof.
  intros He. unfold Cache.delete, Cache.readFile. rewrite He.
  destruct (Cache.files d !! Cache._filePath hash32 key) as [b|] eqn:Hf.
  - destruct (bool_decide (is_Some (Cache.bucketFind b key)) && (1 <? length b)%nat).
    + unfold Cache.writeFile. rewrite He. eexists. split; [reflexivity|].
      rewrite (read_resolved hash32) by exact He. simpl.
      rewrite lookup_insert_eq. simpl.
      rewrite bucketFind_bucketRemove_same. reflexivity.
    + unfold Cache.deleteFile. rewrite He. eexists. split; [reflexivity|].
      rewrite (read_resolved hash32) by exact He. simpl.
      rewrite lookup_delete_eq. reflexivity.
  - exists d. split; [reflexivity|].
    rewrite (read_resolved hash32) by exact He. rewrite Hf. reflexivity.
Qed.

(** X2.  [delete] of a key that its bucket holds resolves and changes what
    no other key reads, whether the bucket is rewritten without the pair
    or, as the last pair of the bucket, unlinked with its file. *)
Theorem delete_held_key_keeps_others d key b :
  Cache.errors d !! Cache._filePath hash32 key = None →
  Cache.files d !! Cache._filePath hash32 key = Some b →
  is_Some (Cache.bucketFind b key) →
  ∃ d',
    Cache.delete hash32 key d = (Resolved tt, d')
    ∧ ∀ key', key' ≠ key → Cache.read hash32 key' d' = Cache.read hash32 key' d.
Proof.
  intros He Hf Hfound.
  destruct (1 <? length b)%nat eqn:Hlen.
  - apply (delete_present_frame hash32 d key b He Hf Hfound).
    apply Nat.ltb_lt. exact Hlen.
  - unfold Cache.delete, Cache.readFile. rewrite He, Hf.
    rewrite bool_decide_eq_true_2 by exact Hfound. rewrite Hlen. simpl.
    unfold Cache.deleteFile. rewrite He. eexists. split; [reflexivity|].
    intros key' Hne. unfold Cache.read, Cache.readFile. simpl.
    destruct (Cache.errors d !! Cache._filePath hash32 key'); [reflexivity|].
    destruct (decide (Cache._filePath hash32 key = Cache._filePath hash32 key'))
      as [Hp|Hp].
    + rewrite <- Hp, lookup_delete_eq, Hf.
      destruct b as [|[k v] [|i b]]; [| |discriminate Hlen].
      * destruct Hfound as [x Hx]. discriminate Hx.
      * unfold Cache.bucketFind in *. simpl in *.
        destruct (String.eqb k key) eqn:E.
        -- apply String.eqb_eq in E. subst k.
           apply String.eqb_neq in Hne. rewrite String.eqb_sym, Hne. reflexivity.
        -- destruct Hfound as [x Hx]. discriminate Hx.
    + rewrite lookup_delete_ne by exact Hp. reflexivity.
Qed.

(** X3.  When the file system fails on the bucket file of [key], [read],
    [write] and [delete] are rejected with the message of the error, and
    the directory stays as it was. *)
Theorem io_error_rejects d key (data : V) message :
  Cache.errors d !! Cache._filePath hash32 key = Some message →
  Cache.read hash32 key d = Rejected message
  ∧ Cache.write hash32 key data d = (Rejected message, d)
  ∧ Cache.delete hash32 key d = (Rejected message, d).
Proof.
  intros He. unfold Cache.read, Cache.write, Cache.delete, Cache.readFile.
  rewrite He. repeat split.
Qed.

Lemma bucketRemove_keys b key k :
  k ∈ fst <$> Cache.bucketRemove b key ↔ (k ∈ fst <$> b ∧ k ≠ key).
Proof.
  unfold Cache.bucketRemove. induction b as [|[k0 v0] b IH]; simpl.
  - rewrite elem_of_nil. tauto.
  - destruct (String.eqb k0 key) eqn:E; simpl.
    + apply String.eqb_eq in E. subst k0. rewrite IH, elem_of_cons.
      split; [tauto|]. intros [[-> | H] Hne]; [contradiction | tauto].
    + apply String.eqb_neq in E. rewrite !elem_of_cons, IH.
      split; [intros [-> | H]; tauto|]. tauto.
Qed.

Lemma bucketRemove_NoDup b key :
  NoDup (fst <$> b) → NoDup (fst <$> Cache.bucketRemove b key).
Proof.
  unfold Cache.bucketRemove. induction b as [|[k0 v0] b IH]; simpl; [auto|].
  intros Hnd. apply NoDup_cons in Hnd as [Hk0 Hnd].
  destruct (String.eqb k0 key); simpl; [auto|].
  apply NoDup_cons. split; [|auto].
  intros Hin. apply Hk0. apply (bucketRemove_keys b key k0) in Hin. tauto.
Qed.

Lemma bucketFind_None b key : Cache.bucketFind b key = None ↔ key ∉ fst <$> b.
Proof.
  unfold Cache.bucketFind. induction b as [|[k0 v0] b IH]; simpl.
  - rewrite elem_of_nil. tauto.
  - rewrite elem_of_cons. destruct (String.eqb k0 key) eqn:E.
    + apply String.eqb_eq in E. split; [discriminate | intros H; exfalso; auto].
    + apply String.eqb_neq in E. rewrite IH. split; [intros H [Hk | Hk]; auto | tauto].
Qed.

(** Two pairs under distinct keys: one of them outlives the removal of
    a key. *)
Lemma bucketRemove_nonempty b key :
  NoDup (fst <$> b) → (1 < length b)%nat → Cache.bucketRemove b key ≠ [].
Proof.
  destruct b as [|[k1 v1] [|[k2 v2] b]]; simpl; try lia. intros Hnd _.
  apply NoDup_cons in Hnd as [Hk1 _].
  assert (Hne : k1 ≠ k2).
  { intros ->. apply Hk1. apply elem_of_cons. left. reflexivity. }
  unfold Cache.bucketRemove. simpl.
  destruct (String.eqb k1 key) eqn:E1; simpl; [|discriminate].
  destruct (String.eqb k2 key) eqn:E2; simpl; [|discriminate].
  apply String.eqb_eq in E1, E2. congruence.
Qed.

Lemma directory_ok_insert d filePath b :
  directory_ok hash32 d → bucket_ok hash32 filePath b →
  directory_ok hash32 (Cache.mkDirectory (<[filePath := b]> (Cache.files d)) (Cache.errors d)).
Proof.
  intros Hd Hb p b'. simpl. rewrite lookup_insert. case_decide.
  - intros [= <-]. subst p. exact Hb.
  - apply Hd.
Qed.

(** X4.  [write] and [delete] keep the buckets of the directory in shape:
    whatever they resolve or reject to, no bucket file is left empty, no
    bucket holds two pairs under one key, and every key stays in the
    bucket file it is filed under. *)
Theorem buckets_stay_ok d :
  directory_ok hash32 d →
  (∀ key data, directory_ok hash32 (snd (Cache.write hash32 key data d)))
  ∧ (∀ key, directory_ok hash32 (snd (Cache.delete hash32 key d))).
Proof.
  intros Hd. split.
  - intros key data. unfold Cache.write, Cache.readFile, Cache.writeFile.
    destruct (Cache.errors d !! Cache._filePath hash32 key) eqn:He; simpl; [exact Hd|].
    apply directory_ok_insert; [exact Hd|].
    destruct (Cache.files d !! Cache._filePath hash32 key) as [b|] eqn:Hf.
    + destruct (Hd _ _ Hf) as (_ & Hnd & Hpath). split; [|split].
      * intros H. apply app_eq_nil in H as [_ H]. discriminate.
      * rewrite fmap_app. apply NoDup_app. split; [apply bucketRemove_NoDup, Hnd|].
        split; [|apply NoDup_singleton].
        intros k Hk Hk'. apply list_elem_of_singleton in Hk'. simpl in Hk'.
        apply bucketRemove_keys in Hk. tauto.
      * intros k Hk. rewrite fmap_app in Hk. apply elem_of_app in Hk as [Hk | Hk].
        -- apply bucketRemove_keys in Hk as [Hk _]. apply Hpath, Hk.
        -- apply list_elem_of_singleton in Hk. simpl in Hk. subst k. reflexivity.
    + split; [discriminate|]. split; [apply NoDup_singleton|].
      intros k Hk. apply list_elem_of_singleton in Hk. simpl in Hk. subst k. reflexivity.
  - intros key. unfold Cache.delete, Cache.readFile.
    destruct (Cache.errors d !! Cache._filePath hash32 key) eqn:He; simpl; [exact Hd|].
    destruct (Cache.files d !! Cache._filePath hash32 key) as [b|] eqn:Hf; [|exact Hd].
    destruct (Hd _ _ Hf) as (_ & Hnd & Hpath).
    destruct (bool_decide (is_Some (Cache.bucketFind b key))) eqn:Efound; simpl.
    + destruct (1 <? length b)%nat eqn:Elen.
      * unfold Cache.writeFile. rewrite He. simpl.
        apply directory_ok_insert; [exact Hd|]. apply Nat.ltb_lt in Elen.
        split; [apply bucketRemove_nonempty; assumption|].
        split; [apply bucketRemove_NoDup, Hnd|].
        intros k Hk. apply bucketRemove_keys in Hk as [Hk _]. apply Hpath, Hk.
      * unfold Cache.deleteFile. rewrite He. simpl.
        intros p b'. simpl. rewrite lookup_delete. case_decide; [discriminate | apply Hd].
    + unfold Cache.deleteFile. rewrite He. simpl.
      intros p b'. simpl. rewrite lookup_delete. case_decide; [discriminate | apply Hd].
Qed.

End CacheExtras.

Lemma delete_then_read_witness :
  ∃ d',
    Cache.delete Cache.sample_hash32 "Aa" two_in_bucket = (Js.Resolved tt, d')
    ∧ Cache.read Cache.sample_hash32 "Aa" d' = Js.Resolved None.
Proof.
  apply (delete_then_read Cache.sample_hash32 two_in_bucket "Aa"). reflexivity.
Defined.

Lemma io_error_rejects_witness :
  Cache.read Cache.sample_hash32 "Aa" failing_bucket = Js.Rejected "EACCES"
  ∧ Cache.write Cache.sample_hash32 "Aa" "new" failing_bucket
    = (Js.Rejected "EACCES", failing_bucket)
  ∧ Cache.delete Cache.sample_hash32 "Aa" failing_bucket
    = (Js.Rejected "EACCES", failing_bucket).
Proof.
  apply (io_error_rejects Cache.sample_hash32 failing_bucket "Aa" "new" "EACCES").
  reflexivity.
Defined.

Lemma two_in_bucket_ok : CacheInvariant.directory_ok Cache.sample_hash32 two_in_bucket.
Proof.
  intros p b. unfold two_in_bucket. simpl. rewrite lookup_singleton.
  case_decide; [|discriminate]. intros [= <-]. subst p. split; [discriminate|]. split.
  - simpl. apply NoDup_cons. split; [|apply NoDup_singleton].
    intros H. apply list_elem_of_singleton in H. discriminate.
  - intros k Hk. simpl in Hk. apply elem_of_cons in Hk as [-> | Hk]; [reflexivity|].
    apply list_elem_of_singleton in Hk. subst k. reflexivity.
Defined.

Lemma buckets_stay_ok_witness :
  CacheInvariant.directory_ok Cache.sample_hash32
    (snd (Cache.delete Cache.sample_hash32 "Aa" two_in_bucket)).
Proof.
  apply (buckets_stay_ok Cache.sample_hash32 two_in_bucket two_in_bucket_ok).
Defined.

Lemma delete_held_key_keeps_others_witness :
  ∃ d',
    Cache.delete Cache.sample_hash32 "Aa" two_in_bucket = (Js.Resolved tt, d')
    ∧ ∀ key', key' ≠ "Aa" →
        Cache.read Cache.sample_hash32 key' d' =
        Cache.read Cache.sample_hash32 key' two_in_bucket.
Proof.
  apply (delete_held_key_keeps_others Cache.sample_hash32 two_in_bucket "Aa"
           [("Aa", "first"); ("BB", "second")]).
  - reflexivity.
  - reflexivity.
  - exists ("Aa", "first"). reflexivity.
Defined.

(** ** UniqueSymbolCollection: collecting in two steps *)

Section CollectionExtras.

Import UniqueSymbolCollection.

Implicit Types (s : PhpSymbol) (c : UniqueSymbolCollection.t).

Lemma pushMany_app symbols1 symbols2 c :
  pushMany (symbols1 ++ symbols2) c = pushMany symbols2 (pushMany symbols1 c).
Proof.
  revert c. induction symbols1 as [|s symbols1 IH]; intros c; simpl; [reflexivity|].
  apply IH.
Qed.

(** The symbols that a collection [c0] keeps of [symbols] can stand for
    [symbols] in any collection [c] that knows every name that [c0]
    knows. *)
Lemma pushMany_kept_stand_in symbols c0 c :
  (∀ k, varMap_undefined (_varMap c) k = true → varMap_undefined (_varMap c0) k = true) →
  ∃ kept,
    _symbols (pushMany symbols c0) = _symbols c0 ++ kept
    ∧ pushMany kept c = pushMany symbols c.
Proof.
  revert c0 c. induction symbols as [|s symbols IH]; intros c0 c Hle; simpl.
  - exists []. split; [symmetry; apply app_nil_r | reflexivity].
  - unfold push at 1. destruct (is_variable s) eqn:Ev.
    + destruct (varMap_undefined (_varMap c0) (name s)) eqn:E0.
      * destruct (IH (mk (_symbols c0 ++ [s]) (<[name s := true]> (_varMap c0)))
                    (push s c)) as (kept & Hk & Hp).
        { intros k. unfold push. rewrite Ev. simpl.
          destruct (varMap_undefined (_varMap c) (name s)) eqn:Ec; simpl.
          - unfold varMap_undefined. rewrite !lookup_insert.
            case_decide; [auto|]. apply Hle.
          - intros Hu. unfold varMap_undefined. rewrite lookup_insert.
            case_decide as Hname; [subst k; congruence|]. apply Hle, Hu. }
        exists (s :: kept). split.
        -- rewrite Hk. simpl. rewrite <- app_assoc. reflexivity.
        -- simpl. exact Hp.
      * destruct (IH c0 c Hle) as (kept & Hk & Hp).
        exists kept. split; [exact Hk|]. rewrite Hp. f_equal.
        unfold push. rewrite Ev.
        destruct (varMap_undefined (_varMap c) (name s)) eqn:Ec; [|reflexivity].
        apply Hle in Ec. congruence.
    + destruct (IH (mk (_symbols c0 ++ [s]) (_varMap c0)) (push s c)) as (kept & Hk & Hp).
      { intros k. unfold push. rewrite Ev. simpl. apply Hle. }
      exists (s :: kept). split.
      * rewrite Hk. simpl. rewrite <- app_assoc. reflexivity.
      * simpl. exact Hp.
Qed.

(** The array of a new collection that has collected [body] can stand
    for [body] in any collection that the code can build. *)
Lemma pushMany_collected body c :
  wf c → pushMany (toArray (pushMany body new)) c = pushMany body c.
Proof.
  intros Hwf.
  destruct (pushMany_kept_stand_in body new c) as (kept & Hk & Hp).
  - intros k Hu. apply varMap_undefined_new.
    unfold varMap_undefined in Hu.
    destruct (_varMap c !! k) eqn:Ek; [discriminate|].
    split; [|apply negb_true_iff, Hu].
    intros Hin. destruct (wf_inbuilt c Hwf k Hin) as [x Hx]. congruence.
  - unfold toArray. rewrite Hk. simpl. exact Hp.
Qed.

(** X5.  A method collects the symbols of its body in a collection of
    their own and then pushes the array of that collection after its
    parameters.  The children it ends with are the ones that a single
    collection keeps of the parameters followed by the body symbols.  In
    particular, collecting an array that a new collection has produced
    gives the same array again. *)
Theorem collect_body_then_merge (parameters body : list PhpSymbol) :
  toArray (pushMany (toArray (pushMany body new)) (pushMany parameters new))
  = toArray (pushMany (parameters ++ body) new)
  ∧ toArray (pushMany (toArray (pushMany body new)) new) = toArray (pushMany body new).
Proof.
  split.
  - rewrite pushMany_app. f_equal. apply pushMany_collected, wf_pushMany, wf_new.
  - f_equal. apply pushMany_collected, wf_new.
Qed.

End CollectionExtras.

(** ** Names: the text a namespace name gathers *)

Lemma string_app_assoc (a b c : string) : (a +:+ b) +:+ c = a +:+ (b +:+ c).
Proof.
  induction a as [|x a IH]; [reflexivity|].
  change (String x ((a +:+ b) +:+ c) = String x (a +:+ b +:+ c)).
  rewrite IH. reflexivity.
Qed.

Lemma concat_merge_first sep a b rest :
  String.concat sep ((a +:+ sep +:+ b) :: rest) = String.concat sep (a :: b :: rest).
Proof.
  destruct rest as [|c rest]; simpl; [reflexivity|].
  rewrite !string_app_assoc. reflexivity.
Qed.

Section NameExtras.

Import Js Transformer Names.

Context {NameResolver : Type}.
Variable resolveNotFullyQualified : NameResolver → string → Z → string.
Variable resolveRelative : NameResolver → string → string.
Variable nameResolver : NameResolver.

#[local] Abbreviation push :=
  (Transformer.push resolveNotFullyQualified resolveRelative nameResolver).
#[local] Abbreviation push_all :=
  (Transformer.push_all resolveNotFullyQualified resolveRelative nameResolver).
#[local] Abbreviation namespace_name :=
  (Transformer.namespace_name resolveNotFullyQualified resolveRelative nameResolver).

Lemma name_texts_cons child children :
  name_texts (child :: children) =
  if is_token TokenType.Name child then text child :: name_texts children
  else name_texts children.
Proof. unfold name_texts. simpl. destruct (is_token TokenType.Name child); reflexivity. Qed.

Lemma push_all_namespace_name_started children n text0 l σ :
  text0 ≠ "" → Forall (λ t, t ≠ "") (name_texts children) →
  ∃ σ', push_all (NamespaceNameTransformer n text0 l) children σ
        = Return (NamespaceNameTransformer n
                    (String.concat "\" (text0 :: name_texts children)) l, σ').
Proof.
  revert text0 σ. induction children as [|child children IH]; intros text0 σ Hne Hall.
  - exists σ. reflexivity.
  - rewrite name_texts_cons in *. simpl. unfold NamespaceNameTransformer_push.
    destruct (is_token TokenType.Name child).
    + apply Forall_cons in Hall as [Hchild Hall].
      replace (truthy text0) with true by (destruct text0; [contradiction | reflexivity]).
      destruct (IH (text0 +:+ "\" +:+ text child)
                  (Store_.update l (Reference.set_name (text0 +:+ "\" +:+ text child)) σ))
        as (σ' & Hσ'); [destruct text0; [contradiction | discriminate] | exact Hall |].
      exists σ'. rewrite Hσ', concat_merge_first. reflexivity.
    + apply IH; assumption.
Qed.

Lemma push_all_namespace_name_text children n l σ :
  Forall (λ t, t ≠ "") (name_texts children) →
  ∃ σ', push_all (NamespaceNameTransformer n "" l) children σ
        = Return (NamespaceNameTransformer n (String.concat "\" (name_texts children)) l, σ').
Proof.
  revert σ. induction children as [|child children IH]; intros σ Hall.
  - exists σ. reflexivity.
  - rewrite name_texts_cons in *. simpl. unfold NamespaceNameTransformer_push.
    destruct (is_token TokenType.Name child).
    + apply Forall_cons in Hall as [Hchild Hall]. simpl.
      apply push_all_namespace_name_started; assumption.
    + apply IH, Hall.
Qed.

(** X6.  The transformer of a namespace name gathers the texts of the
    [Name] tokens among its children, joined by the namespace separator,
    and ignores every other child; the reference in the slot of its node
    carries that text as its name.  (A token has a text that is not
    empty.) *)
Theorem namespace_name_joins_names n range children σ :
  Forall (λ t, t ≠ "") (name_texts children) →
  ∃ l σ1 r,
    namespace_name n range children σ
    = Return (NamespaceNameTransformer n (String.concat "\" (name_texts children)) l, σ1)
    ∧ slots σ1 !! n = Some (SlotRef l)
    ∧ Store_.deref l σ1 = Some r
    ∧ Reference.name r = String.concat "\" (name_texts children).
Proof.
  intros Hall. unfold Transformer.namespace_name.
  destruct (new_NamespaceNameTransformer_reference n range σ) as (l & σ0 & -> & Hl0 & Hs0).
  destruct (NamespaceNameTransformer_tokens resolveNotFullyQualified resolveRelative
              nameResolver children n "" l σ0 _ Hl0 eq_refl eq_refl)
    as (written & σ1 & r & Hpush & Hl1 & Hname & _ & Hs1).
  destruct (push_all_namespace_name_text children n l σ0 Hall) as (σ1' & Hpush').
  rewrite Hpush in Hpush'. injection Hpush' as Hw _.
  exists l, σ1, r. rewrite <- Hw.
  split; [exact Hpush|]. split; [rewrite Hs1; exact Hs0|]. split; assumption.
Qed.

(** X7.  A fully qualified name takes the written name verbatim and a
    relative name hands it to [resolveRelative], reserved word or not;
    both give the reference the contextual kind, and neither records an
    unresolved name. *)
Theorem fully_qualified_and_relative_names kind reference0 n range children σ :
  ∃ written l σ1 σ2 σ3 full relative,
    namespace_name n range children σ = Return (NamespaceNameTransformer n written l, σ1)
    ∧ push (FullyQualifiedNameTransformer kind reference0)
        (NamespaceNameTransformer n written l) σ1
      = Return (FullyQualifiedNameTransformer kind (Some l), σ2)
    ∧ Store_.deref l σ2 = Some full
    ∧ Reference.name full = written
    ∧ Reference.kind full = kind
    ∧ Reference.unresolvedName full = None
    ∧ push (RelativeQualifiedNameTransformer kind reference0)
        (NamespaceNameTransformer n written l) σ1
      = Return (RelativeQualifiedNameTransformer kind (Some l), σ3)
    ∧ Store_.deref l σ3 = Some relative
    ∧ Reference.name relative = resolveRelative nameResolver written
    ∧ Reference.kind relative = kind
    ∧ Reference.unresolvedName relative = None.
Proof.
  unfold Transformer.namespace_name.
  destruct (new_NamespaceNameTransformer_reference n range σ) as (l & σ0 & -> & Hl0 & Hs0).
  destruct (NamespaceNameTransformer_tokens resolveNotFullyQualified resolveRelative
              nameResolver children n "" l σ0 _ Hl0 eq_refl eq_refl)
    as (written & σ1 & r & Hpush & Hl1 & Hname & Hu & Hs1).
  exists written, l, σ1.
  eexists _, _, _, _. split; [exact Hpush|].
  split; [reflexivity|].
  split; [rewrite deref_update_eq, Hl1; reflexivity|].
  split; [exact Hname|]. split; [reflexivity|]. split; [exact Hu|].
  split; [reflexivity|].
  split; [rewrite deref_update_eq, Hl1; reflexivity|].
  split; [simpl; rewrite Hname; reflexivity|]. split; [reflexivity | exact Hu].
Qed.

End NameExtras.

Lemma namespace_name_joins_names_witness :
  ∃ l σ1 r,
    Transformer.namespace_name sample_resolveNotFullyQualified prefix_namespace "App"
      1%nat (0%Z, 7%Z) Foo_Bar_children Store_.empty
    = Js.Return (NamespaceNameTransformer 1 "Foo\Bar" l, σ1)
    ∧ slots σ1 !! 1%nat = Some (SlotRef l)
    ∧ Store_.deref l σ1 = Some r
    ∧ Reference.name r = "Foo\Bar".
Proof.
  apply (namespace_name_joins_names sample_resolveNotFullyQualified prefix_namespace "App"
           1%nat (0%Z, 7%Z) Foo_Bar_children Store_.empty).
  repeat constructor; discriminate.
Defined.

(** ** What a push writes to the store *)

Section PushExtras.

Import Js Transformer Names.

Context {NameResolver : Type}.
Variable resolveNotFullyQualified : NameResolver → string → Z → string.
Variable resolveRelative : NameResolver → string → string.
Variable nameResolver : NameResolver.

#[local] Abbreviation push :=
  (Transformer.push resolveNotFullyQualified resolveRelative nameResolver).
#[local] Abbreviation push_all :=
  (Transformer.push_all resolveNotFullyQualified resolveRelative nameResolver).

Lemma writes_only_refl parent child σ : writes_only parent child σ σ.
Proof. split; [lia|]. split; reflexivity. Qed.

Lemma writes_only_update parent child l f σ :
  Transformer.reference_of parent = Some l ∨ Transformer.reference_of child = Some l →
  writes_only parent child σ (Store_.update l f σ).
Proof.
  intros Hl. split; [|split].
  - unfold Store_.update. simpl. rewrite length_alter. lia.
  - intros l' _ Hp Hc. apply deref_update_ne. intros <-. destruct Hl; contradiction.
  - reflexivity.
Qed.

Lemma writes_only_alloc parent child n r σ :
  Transformer.node_of parent = Some n →
  writes_only parent child σ
    (Store_.assign n (SlotRef (fst (Store_.alloc r σ))) (snd (Store_.alloc r σ))).
Proof.
  intros Hn. split; [|split]; simpl.
  - rewrite length_app. lia.
  - intros l' Hlt _ _. unfold Store_.deref. simpl. apply lookup_app_l, Hlt.
  - intros n' Hn'. apply lookup_insert_ne. congruence.
Qed.

(** X8.  A push that returns has written to nothing but the reference of
    the parent, the reference of the child and the [reference] slot of the
    node of the parent: every other reference object and every other slot
    is as it was, and no reference object is lost. *)
Theorem push_writes_only parent child σ parent' σ' :
  push parent child σ = Return (parent', σ') → writes_only parent child σ σ'.
Proof.
  destruct parent as [n k t loc0|n p t|p ts|t loc0|n t l|k r|k r|k r|n l|n l|p k|n loc0 s r
                     |n loc0 s r]; simpl.
  - intros [= <- <-]. apply writes_only_refl.
  - intros [= <- <-]. apply writes_only_refl.
  - intros [= <- <-]. apply writes_only_refl.
  - intros [= <- <-]. apply writes_only_refl.
  - unfold NamespaceNameTransformer_push.
    destruct (is_token TokenType.Name child); intros [= <- <-];
      [apply writes_only_update; left; reflexivity | apply writes_only_refl].
  - unfold QualifiedNameTransformer_push.
    destruct (is_phrase PhraseType.NamespaceName child); [|intros [= <- <-]; apply writes_only_refl].
    destruct (reference_of child) as [l|] eqn:El; [|discriminate].
    intros [= <- <-]. apply writes_only_update. right. exact El.
  - unfold RelativeQualifiedNameTransformer_push.
    destruct (is_phrase PhraseType.NamespaceName child); [|intros [= <- <-]; apply writes_only_refl].
    destruct (reference_of child) as [l|] eqn:El; [|discriminate].
    intros [= <- <-]. apply writes_only_update. right. exact El.
  - unfold FullyQualifiedNameTransformer_push.
    destruct (is_phrase PhraseType.NamespaceName child); [|intros [= <- <-]; apply writes_only_refl].
    destruct (reference_of child) as [l|] eqn:El; [|discriminate].
    intros [= <- <-]. apply writes_only_update. right. exact El.
  - unfold MemberNameTransform_push.
    destruct (is_token TokenType.Name child); intros [= <- <-];
      [apply writes_only_update; left; reflexivity | apply writes_only_refl].
  - unfold ScopedMemberNameTransform_push.
    destruct (_ || _); intros [= <- <-];
      [apply writes_only_update; left; reflexivity | apply writes_only_refl].
  - unfold MemberAccessExpressionTransform_push.
    destruct (_ || _); [|intros [= <- <-]; apply writes_only_refl].
    destruct (reference_of child) as [l|] eqn:El; [|discriminate].
    intros [= <- <-]. apply writes_only_update. right. exact El.
  - unfold SimpleVariableTransform_push.
    destruct (is_token TokenType.VariableName child); intros [= <- <-];
      [|apply writes_only_refl].
    apply (writes_only_alloc (SimpleVariableTransform n loc0 s r) child n). reflexivity.
  - unfold DefineFunctionCallExpressionTransform_push.
    destruct (is_phrase PhraseType.ArgumentExpressionList child);
      [|intros [= <- <-]; apply writes_only_refl].
    destruct child as [| |p ts| | | | | | | | | |]; try discriminate.
    set (first := match ts !! 0%nat with
                  | Some (TokenTransform _ TokenType.StringLiteral _ _) => _
                  | _ => _ end).
    assert (Hfirst : writes_only (DefineFunctionCallExpressionTransform n loc0 s r)
                       (DelimiteredListTransformer p ts) σ (snd first)).
    { unfold first. destruct (ts !! 0%nat) as [[n1 k1 t1 l1| | | | | | | | | | | |]|];
        try apply writes_only_refl.
      destruct k1; try apply writes_only_refl.
      apply (writes_only_alloc (DefineFunctionCallExpressionTransform n loc0 s r) _ n).
      reflexivity. }
    destruct first as [[s1 r1] σ1]. simpl in Hfirst.
    destruct (ts !! 1%nat) as [arg2|]; [|intros [= <- <-]; exact Hfirst].
    destruct (scalar_literal arg2); [|intros [= <- <-]; exact Hfirst].
    destruct s1; [|discriminate]. intros [= <- <-]. exact Hfirst.
Qed.

(** ** Member access of the other kinds *)

(** X9.  A member access of a kind other than [Property] (a method call, a
    class constant) gives the reference of the member name its kind and
    leaves the name as written: no [$] is put in front.  A child that is
    not a member name is ignored. *)
Theorem member_access_other_kinds phraseType symbolKind child σ :
  symbolKind ≠ SymbolKind.Property →
  (∀ n l r, (child = MemberNameTransform n l ∨ child = ScopedMemberNameTransform n l) →
            Store_.deref l σ = Some r →
            ∃ σ', push (MemberAccessExpressionTransform phraseType symbolKind) child σ
                  = Return (MemberAccessExpressionTransform phraseType symbolKind, σ')
                  ∧ Store_.deref l σ' = Some (Reference.set_kind symbolKind r))
  ∧ (is_phrase PhraseType.MemberName child = false →
     is_phrase PhraseType.ScopedMemberName child = false →
     push (MemberAccessExpressionTransform phraseType symbolKind) child σ
     = Return (MemberAccessExpressionTransform phraseType symbolKind, σ)).
Proof.
  intros Hkind. split.
  - intros n l r Hchild Hl.
    exists (Store_.update l (member_access_adorn symbolKind) σ). split.
    + destruct Hchild as [-> | ->]; reflexivity.
    + rewrite deref_update_eq, Hl. simpl. f_equal. unfold member_access_adorn.
      replace (symbolKind =? SymbolKind.Property)%Z with false; [reflexivity|].
      symmetry. apply Z.eqb_neq, Hkind.
  - intros Hm Hs. simpl. unfold MemberAccessExpressionTransform_push.
    rewrite Hm, Hs. reflexivity.
Qed.

(** ** Simple variables *)

Lemma variable_name_cons child children :
  variable_name (child :: children) =
  match variable_name children with
  | Some v => Some v
  | None => if is_token TokenType.VariableName child then Some (text child) else None
  end.
Proof.
  unfold variable_name. simpl.
  destruct (is_token TokenType.VariableName child).
  - apply last_cons.
  - fold (omap (λ t, if is_token TokenType.VariableName t then Some (text t) else None)
            children).
    destruct (last _); reflexivity.
Qed.

Lemma simple_variable_children children n location symbol reference σ :
  ∃ t' σ',
    push_all (SimpleVariableTransform n location symbol reference) children σ
    = Return (t', σ')
    ∧ match variable_name children with
      | Some v =>
          ∃ l, t' = SimpleVariableTransform n location
                      (Some (PhpSymbolOps.create SymbolKind.Variable_ v location)) (Some l)
               ∧ Store_.deref l σ'
                 = Some (Reference.create SymbolKind.Variable_ v (range location))
               ∧ slots σ' !! n = Some (SlotRef l)
      | None => t' = SimpleVariableTransform n location symbol reference ∧ σ' = σ
      end.
Proof.
  revert symbol reference σ.
  induction children as [|child children IH]; intros symbol reference σ.
  - exists (SimpleVariableTransform n location symbol reference), σ.
    split; [reflexivity|]. split; reflexivity.
  - rewrite variable_name_cons. simpl. unfold SimpleVariableTransform_push.
    destruct (is_token TokenType.VariableName child).
    + simpl.
      destruct (IH (Some (PhpSymbolOps.create SymbolKind.Variable_ (text child) location))
                  (Some (length (refs σ)))
                  (Store_.assign n (SlotRef (length (refs σ)))
                     (mkStore
                        (refs σ ++ [Reference.create SymbolKind.Variable_ (text child)
                                      (range location)])
                        (slots σ)))) as (t' & σ' & Hpush & Hres).
      exists t', σ'. split; [exact Hpush|].
      destruct (variable_name children) as [v|]; [exact Hres|].
      destruct Hres as [-> ->]. exists (length (refs σ)).
      split; [reflexivity|]. split.
      * unfold Store_.deref. simpl. rewrite lookup_app_r by reflexivity.
        rewrite Nat.sub_diag. reflexivity.
      * simpl. apply lookup_insert_eq.
    + destruct (IH symbol reference σ) as (t' & σ' & Hpush & Hres).
      exists t', σ'. split; [exact Hpush|].
      destruct (variable_name children); exact Hres.
Qed.

(** X10.  The transformer of a simple variable that is pushed its children
    has a symbol exactly when it has a reference, exactly when a
    [VariableName] token is among the children: both are then of kind
    [Variable] and named by the text of the last such token, and the
    reference is the one in the slot of the node.  Without such a token (a
    variable variable) there is no symbol, no reference, and the store is
    untouched. *)
Theorem simple_variable_symbol_and_reference children n location σ :
  ∃ t' σ',
    push_all (SimpleVariableTransform n location None None) children σ = Return (t', σ')
    ∧ match variable_name children with
      | Some v =>
          ∃ l, t' = SimpleVariableTransform n location
                      (Some (PhpSymbolOps.create SymbolKind.Variable_ v location)) (Some l)
               ∧ Store_.deref l σ'
                 = Some (Reference.create SymbolKind.Variable_ v (range location))
               ∧ slots σ' !! n = Some (SlotRef l)
      | None => t' = SimpleVariableTransform n location None None ∧ σ' = σ
      end.
Proof. apply simple_variable_children. Qed.

End PushExtras.

Lemma push_writes_only_witness :
  writes_only
    (MemberAccessExpressionTransform PhraseType.PropertyAccessExpression SymbolKind.Property)
    (MemberNameTransform 1 0) prop_store prop_store_adorned.
Proof.
  apply (push_writes_only sample_resolveNotFullyQualified prefix_namespace ""
           (MemberAccessExpressionTransform PhraseType.PropertyAccessExpression
              SymbolKind.Property)
           (MemberNameTransform 1 0) prop_store
           (MemberAccessExpressionTransform PhraseType.PropertyAccessExpression
              SymbolKind.Property)
           prop_store_adorned).
  reflexivity.
Defined.

Lemma member_access_other_kinds_witness :
  ∃ σ',
    sample_push ""
      (MemberAccessExpressionTransform PhraseType.MethodCallExpression SymbolKind.Method)
      (MemberNameTransform 1 0) prop_store
    = Js.Return
        (MemberAccessExpressionTransform PhraseType.MethodCallExpression SymbolKind.Method,
         σ')
    ∧ Store_.deref 0 σ'
      = Some (Reference.mk SymbolKind.Method "prop" (0%Z, 0%Z) None None).
Proof.
  destruct (member_access_other_kinds sample_resolveNotFullyQualified prefix_namespace ""
              PhraseType.MethodCallExpression SymbolKind.Method (MemberNameTransform 1 0)
              prop_store) as [Hmember _]; [discriminate|].
  apply (Hmember 1%nat 0%nat (Reference.create SymbolKind.None "prop" (0%Z, 0%Z))).
  - left. reflexivity.
  - reflexivity.
Defined.

(** ** [define] with a string literal *)

Section DefineExtras.

Import Js Transformer Names.

Context {NameResolver : Type}.
Variable resolveNotFullyQualified : NameResolver → string → Z → string.
Variable resolveRelative : NameResolver → string → string.
Variable nameResolver : NameResolver.

#[local] Abbreviation push :=
  (Transformer.push resolveNotFullyQualified resolveRelative nameResolver).

Lemma list_ascii_of_string_app a b :
  list_ascii_of_string (a +:+ b) = list_ascii_of_string a ++ list_ascii_of_string b.
Proof.
  induction a as [|x a IH]; [reflexivity|].
  change (x :: list_ascii_of_string (a +:+ b)
          = x :: (list_ascii_of_string a ++ list_ascii_of_string b)).
  rewrite IH. reflexivity.
Qed.

(** Between its two quotes, a literal holds the name. *)
Lemma slice_1_m1_quoted q body q' : slice_1_m1 (String q (body +:+ String q' "")) = body.
Proof.
  unfold slice_1_m1. simpl. rewrite list_ascii_of_string_app. simpl.
  rewrite removelast_last. apply string_of_list_ascii_of_string.
Qed.

Lemma constant_name_quoted q body q' :
  constant_name (String q (body +:+ String q' "")) =
  if first_is "\" body then slice_1 body else body.
Proof.
  unfold constant_name. rewrite slice_1_m1_quoted.
  destruct body; reflexivity.
Qed.

(** X11.  When the first argument of a [define] call is a string literal,
    the push returns, whatever the other arguments are.  The transformer
    then holds a [Constant] symbol at the location of the call and a
    [Constant] reference at the range of the literal, which is also in the
    slot of the node; both are named by the literal without its quotes and
    without one leading backslash.  The symbol has a value and a type
    exactly when the second argument is a scalar literal: the text of that
    literal and its PHP type. *)
Theorem define_string_literal n callLocation symbol0 reference0 transforms n1 literal
  location1 σ :
  transforms !! 0%nat = Some (TokenTransform n1 TokenType.StringLiteral literal location1) →
  ∃ s l σ',
    push (DefineFunctionCallExpressionTransform n callLocation symbol0 reference0)
      (DelimiteredListTransformer PhraseType.ArgumentExpressionList transforms) σ
    = Return (DefineFunctionCallExpressionTransform n callLocation (Some s) (Some l), σ')
    ∧ kind s = SymbolKind.Constant
    ∧ name s = constant_name literal
    ∧ location s = callLocation
    ∧ slots σ' !! n = Some (SlotRef l)
    ∧ Store_.deref l σ'
      = Some (Reference.create SymbolKind.Constant (constant_name literal) (range location1))
    ∧ (∀ q body q', literal = String q (body +:+ String q' "") →
                    name s = if first_is "\" body then slice_1 body else body)
    ∧ match transforms !! 1%nat with
      | Some arg2 =>
          if scalar_literal arg2
          then value s = Some (text arg2)
               ∧ type s = Some (tokenTypeToPhpType (tokenType arg2))
          else value s = None ∧ type s = None
      | None => value s = None ∧ type s = None
      end.
Proof.
  intros Hfirst. simpl. unfold DefineFunctionCallExpressionTransform_push.
  replace (is_phrase PhraseType.ArgumentExpressionList _) with true by reflexivity.
  rewrite Hfirst. fold (constant_name literal). simpl.
  assert (Hquoted : ∀ q body q', literal = String q (body +:+ String q' "") →
            constant_name literal = if first_is "\" body then slice_1 body else body).
  { intros q body q' ->. apply constant_name_quoted. }
  assert (Hl : Store_.deref (length (refs σ))
                 (Store_.assign n (SlotRef (length (refs σ)))
                    (mkStore
                       (refs σ ++ [Reference.create SymbolKind.Constant
                                     (constant_name literal) (range location1)])
                       (slots σ)))
               = Some (Reference.create SymbolKind.Constant (constant_name literal)
                         (range location1))).
  { unfold Store_.deref. simpl. rewrite lookup_app_r by reflexivity.
    rewrite Nat.sub_diag. reflexivity. }
  destruct (transforms !! 1%nat) as [arg2|].
  - destruct (scalar_literal arg2).
    + eexists _, _, _. split; [reflexivity|]. simpl.
      repeat (split; [first [reflexivity | apply lookup_insert_eq | exact Hl | exact Hquoted]|]).
      split; reflexivity.
    + eexists _, _, _. split; [reflexivity|]. simpl.
      repeat (split; [first [reflexivity | apply lookup_insert_eq | exact Hl | exact Hquoted]|]).
      split; reflexivity.
  - eexists _, _, _. split; [reflexivity|]. simpl.
    repeat (split; [first [reflexivity | apply lookup_insert_eq | exact Hl | exact Hquoted]|]).
    split; reflexivity.
Qed.

End DefineExtras.

Lemma define_string_literal_witness :
  ∃ s l σ',
    sample_push "" (DefineFunctionCallExpressionTransform 1 here None None)
      (DelimiteredListTransformer PhraseType.ArgumentExpressionList define_DEBUG_arguments)
      Store_.empty
    = Js.Return (DefineFunctionCallExpressionTransform 1 here (Some s) (Some l), σ')
    ∧ name s = "App\DEBUG"
    ∧ value s = Some "'on'"
    ∧ type s = Some "string".
Proof.
  destruct (define_string_literal sample_resolveNotFullyQualified prefix_namespace ""
              1%nat here None None define_DEBUG_arguments 2%nat "'\App\DEBUG'"
              (mkPackedLocation 0 (7%Z, 19%Z)) Store_.empty eq_refl)
    as (s & l & σ' & Hpush & _ & _ & _ & _ & _ & Hname & Hvalue).
  exists s, l, σ'. split; [exact Hpush|]. split.
  - apply (Hname "'"%char "\App\DEBUG" "'"%char). reflexivity.
  - exact Hvalue.
Defined.

(** ** The post-order step: the stack and the doc block *)

Section PassExtras.

Import Js SymbolsPass.

Context {NameResolver : Type}.
Variable resolveNotFullyQualified : NameResolver → string → Z → string.
Variable resolveRelative : NameResolver → string → string.
Variable nameResolver : NameResolver.

#[local] Abbreviation postorder :=
  (SymbolsPass.postorder resolveNotFullyQualified resolveRelative nameResolver).

Implicit Types (p : SymbolsPass.t) (r : Reference.t).

Lemma set_add_prefix x s : s `prefix_of` set_add x s.
Proof.
  unfold set_add. case_bool_decide; [reflexivity|]. apply prefix_app_r. reflexivity.
Qed.

Lemma set_add_NoDup x s : NoDup s → NoDup (set_add x s).
Proof.
  intros Hnd. unfold set_add. case_bool_decide as Hx; [exact Hnd|].
  apply NoDup_app. split; [exact Hnd|]. split; [|apply NoDup_singleton].
  intros y Hy Hy'. apply list_elem_of_singleton in Hy'. subst y. contradiction.
Qed.

Lemma same_but_names_refl p : same_but_names p p.
Proof.
  repeat (split; [reflexivity|]).
  destruct (referenceNameSet p) as [s|]; [|reflexivity].
  exists s. split; [reflexivity|]. split; [reflexivity | auto].
Qed.

Lemma same_but_names_trans p1 p2 p3 :
  same_but_names p1 p2 → same_but_names p2 p3 → same_but_names p1 p3.
Proof.
  intros (H1 & H2 & H3 & H4 & H5 & H6) (G1 & G2 & G3 & G4 & G5 & G6).
  repeat (split; [congruence|]).
  destruct (referenceNameSet p1) as [s1|].
  - destruct H6 as (s2 & Hs2 & Hp2 & Hn2). rewrite Hs2 in G6.
    destruct G6 as (s3 & Hs3 & Hp3 & Hn3).
    exists s3. split; [exact Hs3|]. split; [etransitivity; eassumption | auto].
  - rewrite H6 in G6. exact G6.
Qed.

Lemma referenceNameSet_add_same_but_names x p p' :
  referenceNameSet_add x p = Return p' → same_but_names p p'.
Proof.
  unfold referenceNameSet_add.
  destruct (referenceNameSet p) as [s|] eqn:Es; [|discriminate].
  intros [= <-]. repeat (split; [reflexivity|]). rewrite Es. simpl.
  exists (set_add x s). split; [reflexivity|].
  split; [apply set_add_prefix | apply set_add_NoDup].
Qed.

Lemma addRefName_same_but_names ref p p' :
  addRefName ref p = Return p' → same_but_names p p'.
Proof.
  unfold addRefName. destruct ref as [r|]; [|intros [= <-]; apply same_but_names_refl].
  destruct (truthy (Reference.name r)).
  - destruct (referenceNameSet_add (Reference.name r) p) as [p1|] eqn:E1; [|discriminate].
    simpl. pose proof (referenceNameSet_add_same_but_names _ _ _ E1) as H1.
    destruct (Reference.unresolvedName r) as [u|]; [|intros [= <-]; exact H1].
    destruct (truthy u); [|intros [= <-]; exact H1].
    intros E2. apply (same_but_names_trans p p1 p' H1).
    apply (referenceNameSet_add_same_but_names _ _ _ E2).
  - simpl. destruct (Reference.unresolvedName r) as [u|];
      [|intros [= <-]; apply same_but_names_refl].
    destruct (truthy u); [|intros [= <-]; apply same_but_names_refl].
    apply referenceNameSet_add_same_but_names.
Qed.

Lemma addRefNames_same_but_names refs p p' :
  addRefNames refs p = Return p' → same_but_names p p'.
Proof.
  revert p. induction refs as [|ref refs IH]; intros p; simpl.
  - intros [= <-]. apply same_but_names_refl.
  - destruct (addRefName ref p) as [p1|] eqn:E1; [|discriminate]. simpl. intros E2.
    apply (same_but_names_trans p p1 p');
      [apply (addRefName_same_but_names _ _ _ E1) | apply IH, E2].
Qed.

(** X12.  A post-order step that returns has either changed nothing at
    all, or popped the transformer of the node off the stack: the stack is
    one shorter, the transformers below the parent are as they were, the
    popped transformer is the last one of the pass, and the doc block seen
    last is dropped when the node is a declaration header and kept
    otherwise. *)
Theorem postorder_pops_the_node (node : Node) p σ p' σ' :
  postorder node p σ = Return (p', σ') →
  (p' = p ∧ σ' = σ)
  ∨ (∃ pt transformer,
       phraseType node = Some pt
       ∧ last (_transformerStack p) = Some (Some transformer)
       ∧ Transformer.node_of transformer = Some (node_id node)
       ∧ _lastTransformer p' = Some transformer
       ∧ S (length (_transformerStack p')) = length (_transformerStack p)
       ∧ removelast (_transformerStack p') = removelast (removelast (_transformerStack p))
       ∧ lastPhpDoc p' = (if clears_phpDoc pt then None else lastPhpDoc p)
       ∧ lastPhpDocLocation p'
         = (if clears_phpDoc pt then None else lastPhpDocLocation p)).
Proof.
  unfold SymbolsPass.postorder.
  destruct (phraseType node) as [pt|] eqn:Ept; [|intros [= <- <-]; left; auto].
  case_bool_decide as Hunknown; [intros [= <- <-]; left; auto|].
  destruct (last (_transformerStack p)) as [[transformer|]|] eqn:Etop; try discriminate.
  case_bool_decide as Hnode; [|intros [= <- <-]; left; auto].
  apply last_Some in Etop as [rest Hstack]. rewrite Hstack, removelast_last.
  intros Hrun. right. exists pt, transformer.
  split; [reflexivity|]. split; [reflexivity|]. split; [exact Hnode|].
  assert (Hpopped : ∃ stack σ1,
            S (length stack) = length (rest ++ [Some transformer])
            ∧ removelast stack = removelast rest
            ∧ (if bears_reference pt
               then p1 ← addRefNames (slot_references (node_id node) σ1)
                          (if clears_phpDoc pt
                           then mk None None (references p) (referenceNameSet p) stack
                                  (Some transformer)
                           else mk (lastPhpDoc p) (lastPhpDocLocation p) (references p)
                                  (referenceNameSet p) stack (Some transformer));
                    Return (p1, σ1)
               else Return
                      (if clears_phpDoc pt
                       then mk None None (references p) (referenceNameSet p) stack
                              (Some transformer)
                       else mk (lastPhpDoc p) (lastPhpDocLocation p) (references p)
                              (referenceNameSet p) stack (Some transformer), σ1))
              = Return (p', σ')).
  { destruct (last rest) as [[parent|]|] eqn:Erest.
    - apply last_Some in Erest as [below ->]. rewrite removelast_last in Hrun.
      destruct (Transformer.push _ _ _ parent transformer σ) as [[parent' σ1]|];
        [|discriminate].
      simpl in Hrun. exists (below ++ [Some parent']), σ1.
      split; [rewrite !length_app; simpl; lia|].
      split; [rewrite !removelast_last; reflexivity | exact Hrun].
    - discriminate.
    - apply last_None in Erest. subst rest. simpl in Hrun.
      exists [], σ. split; [reflexivity|]. split; [reflexivity | exact Hrun]. }
  destruct Hpopped as (stack & σ1 & Hlen & Hbelow & Hrest).
  rewrite <- Hlen, <- Hbelow.
  destruct (bears_reference pt).
  - destruct (addRefNames _ _) as [p1|] eqn:Eadd; [|discriminate].
    simpl in Hrest. injection Hrest as <- <-.
    destruct (addRefNames_same_but_names _ _ _ Eadd) as (H1 & H2 & _ & H4 & H5 & _).
    rewrite H1, H2, H4, H5. destruct (clears_phpDoc pt); simpl; auto.
  - injection Hrest as <- <-. destruct (clears_phpDoc pt); simpl; auto.
Qed.

End PassExtras.

Lemma postorder_pops_the_node_witness :
  (prop_pass_after = prop_pass ∧ prop_store_adorned = prop_store)
  ∨ (∃ pt transformer,
       phraseType prop_node = Some pt
       ∧ last (SymbolsPass._transformerStack prop_pass) = Some (Some transformer)
       ∧ Transformer.node_of transformer = Some (node_id prop_node)
       ∧ SymbolsPass._lastTransformer prop_pass_after = Some transformer
       ∧ S (length (SymbolsPass._transformerStack prop_pass_after))
         = length (SymbolsPass._transformerStack prop_pass)
       ∧ removelast (SymbolsPass._transformerStack prop_pass_after)
         = removelast (removelast (SymbolsPass._transformerStack prop_pass))
       ∧ SymbolsPass.lastPhpDoc prop_pass_after
         = (if SymbolsPass.clears_phpDoc pt then None
            else SymbolsPass.lastPhpDoc prop_pass)
       ∧ SymbolsPass.lastPhpDocLocation prop_pass_after
         = (if SymbolsPass.clears_phpDoc pt then None
            else SymbolsPass.lastPhpDocLocation prop_pass)).
Proof.
  apply (postorder_pops_the_node sample_resolveNotFullyQualified prefix_namespace ""
           prop_node prop_pass prop_store prop_pass_after prop_store_adorned).
  reflexivity.
Defined.


(** ** Member modifier lists *)

Section ModifierExtras.

Import Members.

(** A modifier of one bit is carried when that bit is set. *)
Lemma has_bit m i :
  (0 ≤ i)%Z → SymbolModifier.has m (Z.shiftl 1 i) ↔ Z.testbit m i = true.
Proof.
  intros Hi. unfold SymbolModifier.has. rewrite Z.shiftl_1_l. split.
  - intros H. apply (f_equal (λ z, Z.testbit z i)) in H.
    rewrite Z.land_spec, Z.pow2_bits_true in H by exact Hi.
    rewrite andb_true_r in H. exact H.
  - intros H. apply Z.bits_inj'. intros j Hj.
    rewrite Z.land_spec, Z.pow2_bits_eqb by exact Hi.
    destruct (Z.eqb_spec i j) as [->|Hne].
    + rewrite H. reflexivity.
    + apply andb_false_r.
Qed.

(** A child adds the modifier of its token type, if it has one. *)
Lemma MemberModifierListTransform_push_lor m t :
  MemberModifierListTransform_push m t
  = Z.lor m (from_option modifierTokenToSymbolModifier 0%Z (Transformer.tokenType t)).
Proof.
  unfold MemberModifierListTransform_push.
  destruct (Transformer.tokenType t) as [k|]; simpl; [|symmetry; apply Z.lor_0_r].
  destruct k; simpl; try reflexivity; symmetry; apply Z.lor_0_r.
Qed.

Lemma push_all_testbit children m i :
  Z.testbit (fold_left MemberModifierListTransform_push children m) i
  = Z.testbit m i
    || existsb (λ t, Z.testbit
                       (from_option modifierTokenToSymbolModifier 0%Z
                          (Transformer.tokenType t)) i) children.
Proof.
  revert m. induction children as [|t children IH]; intros m; simpl.
  - symmetry. apply orb_false_r.
  - rewrite IH, MemberModifierListTransform_push_lor, Z.lor_spec.
    symmetry. apply orb_assoc.
Qed.

Lemma keyword_bit (k : TokenType.t) (i : Z) children :
  (∀ o, Z.testbit (from_option modifierTokenToSymbolModifier 0%Z o) i = true ↔ o = Some k) →
  existsb (λ t, Z.testbit
                  (from_option modifierTokenToSymbolModifier 0%Z
                     (Transformer.tokenType t)) i) children = true
  ↔ Some k ∈ Transformer.tokenType <$> children.
Proof.
  intros Hk. rewrite existsb_exists, list_elem_of_fmap. split.
  - intros (t & Hin & Hbit). exists t. split.
    + symmetry. apply Hk, Hbit.
    + apply list_elem_of_In, Hin.
  - intros (t & Heq & Hin). exists t. split.
    + apply list_elem_of_In, Hin.
    + apply Hk. symmetry. exact Heq.
Qed.

Ltac keyword_only :=
  intros [[]|]; split; intros H; try reflexivity; try discriminate H;
  vm_compute in H; discriminate H.

Lemma has_keyword (k : TokenType.t) (i : Z) children :
  (0 ≤ i)%Z →
  (∀ o, Z.testbit (from_option modifierTokenToSymbolModifier 0%Z o) i = true ↔ o = Some k) →
  SymbolModifier.has (MemberModifierListTransform_push_all children) (Z.shiftl 1 i)
  ↔ Some k ∈ Transformer.tokenType <$> children.
Proof.
  intros Hi Hk. rewrite has_bit by exact Hi.
  unfold MemberModifierListTransform_push_all. rewrite push_all_testbit.
  rewrite <- (keyword_bit k i children Hk).
  change (Z.testbit SymbolModifier.None i) with (Z.testbit 0 i).
  rewrite Z.bits_0. reflexivity.
Qed.

Lemma push_all_within children m :
  Z.land m 63 = m →
  Z.land (fold_left MemberModifierListTransform_push children m) 63
  = fold_left MemberModifierListTransform_push children m.
Proof.
  revert m. induction children as [|t children IH]; intros m Hm; simpl; [exact Hm|].
  apply IH. rewrite MemberModifierListTransform_push_lor, Z.land_lor_distr_l, Hm.
  f_equal. destruct (Transformer.tokenType t) as [[]|]; reflexivity.
Qed.

Lemma modifierList_fold tokens children m :
  tokens = omap Transformer.tokenType children →
  fold_left (λ flag t, Z.lor flag (modifierTokenToSymbolModifier t)) tokens m
  = fold_left MemberModifierListTransform_push children m.
Proof.
  intros ->. revert m. induction children as [|t children IH]; intros m; simpl.
  - reflexivity.
  - rewrite MemberModifierListTransform_push_lor.
    destruct (Transformer.tokenType t) as [k|]; simpl.
    + apply IH.
    + rewrite Z.lor_0_r. apply IH.
Qed.

(** X14.  The modifiers that a member modifier list ends with carry
    [Public], [Protected], [Private], [Abstract], [Final] or [Static]
    exactly when a child of the list is the token of that keyword, in
    whatever order and however often the keywords are written; they carry
    no other modifier; and they are the flags that
    [modifierListToSymbolModifier] computes from the tokens of the phrase. *)
Theorem member_modifier_list_keywords (children : list NodeTransformer) :
  let m := MemberModifierListTransform_push_all children in
  let tokens := Transformer.tokenType <$> children in
  (SymbolModifier.has m SymbolModifier.Public ↔ Some TokenType.Public ∈ tokens)
  ∧ (SymbolModifier.has m SymbolModifier.Protected ↔ Some TokenType.Protected ∈ tokens)
  ∧ (SymbolModifier.has m SymbolModifier.Private ↔ Some TokenType.Private ∈ tokens)
  ∧ (SymbolModifier.has m SymbolModifier.Abstract ↔ Some TokenType.Abstract ∈ tokens)
  ∧ (SymbolModifier.has m SymbolModifier.Final ↔ Some TokenType.Final ∈ tokens)
  ∧ (SymbolModifier.has m SymbolModifier.Static ↔ Some TokenType.Static ∈ tokens)
  ∧ Z.land m
      (Z.lor SymbolModifier.Public
         (Z.lor SymbolModifier.Protected
            (Z.lor SymbolModifier.Private
               (Z.lor SymbolModifier.Abstract
                  (Z.lor SymbolModifier.Final SymbolModifier.Static))))) = m
  ∧ modifierListToSymbolModifier (Some (omap Transformer.tokenType children)) = m.
Proof.
  intros m tokens. subst m tokens.
  split; [apply (has_keyword TokenType.Public 0); [lia | keyword_only]|].
  split; [apply (has_keyword TokenType.Protected 1); [lia | keyword_only]|].
  split; [apply (has_keyword TokenType.Private 2); [lia | keyword_only]|].
  split; [apply (has_keyword TokenType.Abstract 4); [lia | keyword_only]|].
  split; [apply (has_keyword TokenType.Final 3); [lia | keyword_only]|].
  split; [apply (has_keyword TokenType.Static 5); [lia | keyword_only]|].
  split.
  - apply (push_all_within children 0). reflexivity.
  - apply modifierList_fold. reflexivity.
Qed.

End ModifierExtras.

(** ** Method headers *)

Section HeaderExtras.

Import Members.

Context {NameResolver : Type}.
Variable nameResolve : string → NameResolver → string.
Variable findVarTag : PhpDoc → string → option Tag.
Variable findParamTag : PhpDoc → string → option Tag.
Variable returnTag : PhpDoc → option Tag.
Variable setScope : list PhpSymbol → string → list PhpSymbol.
Variable nameResolver : NameResolver.

#[local] Abbreviation push_all :=
  (Members.push_all nameResolve findVarTag findParamTag returnTag setScope nameResolver).

Lemma visibility_Public m : Z.land (Z.lor m SymbolModifier.Public) visibility ≠ 0%Z.
Proof.
  intros H. apply (f_equal (λ z, Z.testbit z 0)) in H.
  rewrite Z.land_spec, Z.lor_spec in H.
  change (Z.testbit SymbolModifier.Public 0) with true in H.
  change (Z.testbit visibility 0) with true in H.
  rewrite orb_true_r in H. discriminate H.
Qed.

Lemma header_push_all children :
  ∀ n m nm ps rt r σ t σ',
    push_all (MethodDeclarationHeaderTransformer n m nm ps rt r) children σ
    = Some (Js.Return (t, σ')) →
    ∃ m' nm' rt' r',
      t = MethodDeclarationHeaderTransformer n m' nm'
            (ps ++ omap (λ c, if is_phrase PhraseType.ParameterDeclaration c
                              then symbol_of setScope c else None) children) rt' r'
      ∧ (Z.land m visibility ≠ 0%Z → Z.land m' visibility ≠ 0%Z)
      ∧ match last (filter (λ c, phraseType c = Some PhraseType.MemberModifierList)
                      children) with
        | None => m' = m
        | Some c =>
            m' = if (Z.land (modifiers_of c) visibility =? 0)%Z
                 then Z.lor (modifiers_of c) SymbolModifier.Public
                 else modifiers_of c
        end.
Proof.
  induction children as [|c children IH]; intros n m nm ps rt r σ t σ' Hall.
  - simpl in Hall. injection Hall as <- <-.
    exists m, nm, rt, r. rewrite app_nil_r. simpl. auto.
  - simpl in Hall. unfold MethodDeclarationHeaderTransformer_push in Hall.
    rewrite filter_cons. cbn [omap list_omap]. unfold is_phrase at 1.
    destruct (phraseType c) as [p|] eqn:Ep.
    + destruct (decide (p = PhraseType.MemberModifierList)) as [->|Hp].
      * apply IH in Hall as (m' & nm' & rt' & r' & -> & Hvis & Hlast).
        rewrite decide_True by reflexivity.
        rewrite bool_decide_eq_false_2 by discriminate. simpl.
        exists m', nm', rt', r'. split; [reflexivity|]. split.
        -- intros _. apply Hvis.
           destruct (Z.eqb_spec (Z.land (modifiers_of c) visibility) 0) as [E|E];
             [apply visibility_Public | exact E].
        -- destruct (filter _ children) as [|c' l]; simpl in *; [exact Hlast|].
           destruct (last (c' :: l)) eqn:El; [exact Hlast|].
           apply last_None in El. discriminate El.
      * rewrite decide_False by congruence.
        destruct (decide (p = PhraseType.ParameterDeclaration)) as [->|Hq].
        -- rewrite bool_decide_eq_true_2 by reflexivity. simpl.
           destruct (symbol_of setScope c) as [s|].
           ++ apply IH in Hall as (m' & nm' & rt' & r' & -> & Hvis & Hlast).
              exists m', nm', rt', r'. rewrite <- app_assoc. auto.
           ++ apply IH in Hall as (m' & nm' & rt' & r' & -> & Hvis & Hlast).
              exists m', nm', rt', r'. auto.
        -- rewrite bool_decide_eq_false_2 by congruence. simpl.
           destruct p; try congruence;
             try (apply IH in Hall as (m' & nm' & rt' & r' & -> & Hvis & Hlast);
                  exists m', nm', rt', r'; auto).
           destruct (location_of c) as [l1|]; [|discriminate Hall].
           destruct (Store_.alloc _ σ) as [l σ1].
           apply IH in Hall as (m' & nm' & rt' & r' & -> & Hvis & Hlast).
           exists m', nm', rt', r'. auto.
    + rewrite decide_False by discriminate.
      rewrite bool_decide_eq_false_2 by discriminate. simpl.
      apply IH in Hall as (m' & nm' & rt' & r' & -> & Hvis & Hlast).
      exists m', nm', rt', r'. auto.
Qed.

(** X15.  The header of a method whose children have all been pushed
    always carries a visibility.  Without a modifier list it is [Public];
    the modifiers of the last modifier list are taken as they are when
    they name a visibility, and with [Public] added when they name none
    (as for [static function f()]).  The parameters of the header are the
    symbols of its parameter declarations, in the order of the
    declarations. *)
Theorem method_header_visibility n children σ t σ' :
  push_all (new_MethodDeclarationHeaderTransformer n) children σ
  = Some (Js.Return (t, σ')) →
  ∃ m nm rt r,
    t = MethodDeclarationHeaderTransformer n m nm
          (omap (λ c, if is_phrase PhraseType.ParameterDeclaration c
                      then symbol_of setScope c else None) children) rt r
    ∧ Z.land m visibility ≠ 0%Z
    ∧ match last (filter (λ c, phraseType c = Some PhraseType.MemberModifierList)
                    children) with
      | None => m = SymbolModifier.Public
      | Some c =>
          (Z.land (modifiers_of c) visibility ≠ 0%Z → m = modifiers_of c)
          ∧ (Z.land (modifiers_of c) visibility = 0%Z
             → m = Z.lor (modifiers_of c) SymbolModifier.Public)
      end.
Proof.
  intros Hall. apply header_push_all in Hall as (m & nm & rt & r & -> & Hvis & Hlast).
  exists m, nm, rt, r. split; [reflexivity|]. split.
  - apply Hvis. discriminate.
  - destruct (last _) as [c|]; [|exact Hlast].
    destruct (Z.eqb_spec (Z.land (modifiers_of c) visibility) 0) as [E|E];
      split; intros E'; congruence.
Qed.

End HeaderExtras.

Lemma method_header_visibility_witness :
  ∃ t σ',
    sample_member_push_all (Members.new_MethodDeclarationHeaderTransformer 4)
      static_f_header_children Store_.empty
    = Some (Js.Return (t, σ'))
    ∧ ∃ nm rt r,
        t = MethodDeclarationHeaderTransformer 4
              (Z.lor SymbolModifier.Static SymbolModifier.Public) nm [parameter_x] rt r.
Proof.
  eexists _, _. split; [vm_compute; reflexivity|].
  destruct (method_header_visibility sample_nameResolve no_named_tag no_named_tag
              no_return_tag keep_scope "" 4%nat static_f_header_children Store_.empty
              _ _ eq_refl)
    as (m & nm & rt & r & Ht & _ & Hlast).
  cbn in Hlast. destruct Hlast as [_ Hm].
  exists nm, rt, r. rewrite (Hm eq_refl) in Ht. exact Ht.
Defined.

(** ** Bodies, files and methods *)

Section BodyExtras.

Import Members.

Context {NameResolver : Type}.
Variable resolveNotFullyQualified : NameResolver → string → Z → string.
Variable resolveRelative : NameResolver → string → string.
Variable nameResolve : string → NameResolver → string.
Variable findVarTag : PhpDoc → string → option Tag.
Variable findParamTag : PhpDoc → string → option Tag.
Variable returnTag : PhpDoc → option Tag.
Variable setScope : list PhpSymbol → string → list PhpSymbol.
Variable nameResolver : NameResolver.

#[local] Abbreviation push_all :=
  (Members.push_all nameResolve findVarTag findParamTag returnTag setScope nameResolver).
#[local] Abbreviation symbol_of := (Members.symbol_of setScope).
#[local] Abbreviation body_symbol := (Members.body_symbol setScope).
#[local] Abbreviation symbol_missing := (Members.symbol_missing setScope).
#[local] Abbreviation body_push := (Members.FunctionDeclarationBodyTransform_push setScope).

Lemma symbol_missing_dec child : symbol_missing child ∨ ¬ symbol_missing child.
Proof.
  unfold Members.symbol_missing.
  destruct (phraseType child) as [pt|] eqn:Ep.
  - destruct (body_symbol_phrase pt) eqn:Eb.
    + destruct (symbol_of child) as [s|] eqn:Es.
      * right. intros [_ H]. discriminate H.
      * left. split; [exists pt; auto | reflexivity].
    + right. intros [(pt' & Ep' & Eb') _]. congruence.
  - right. intros [(pt' & Ep' & _) _]. discriminate Ep'.
Qed.

Lemma body_push_symbol p c child :
  ¬ symbol_missing child →
  body_push p c child
  = Js.Return
      (FunctionDeclarationBodyTransform p
         (UniqueSymbolCollection.pushMany (option_list (body_symbol child)) c)).
Proof.
  intros Hhas. unfold Members.FunctionDeclarationBodyTransform_push, Members.body_symbol.
  destruct (phraseType child) as [pt|] eqn:Ep.
  - destruct (body_symbol_phrase pt) eqn:Eb; [|reflexivity].
    destruct (symbol_of child) as [s|] eqn:Es; [reflexivity|].
    exfalso. apply Hhas. split; [exists pt; auto | exact Es].
  - destruct child; reflexivity.
Qed.

Lemma body_push_missing p c child :
  symbol_missing child →
  body_push p c child = Js.TypeError "Cannot read property 'kind' of undefined".
Proof.
  intros [(pt & Ep & Eb) Es]. unfold Members.FunctionDeclarationBodyTransform_push.
  rewrite Ep, Eb, Es. reflexivity.
Qed.

Lemma body_push_all_symbols children :
  ∀ p c σ,
    Forall (λ child, ¬ symbol_missing child) children →
    push_all (FunctionDeclarationBodyTransform p c) children σ
    = Some (Js.Return
              (FunctionDeclarationBodyTransform p
                 (UniqueSymbolCollection.pushMany (omap body_symbol children) c), σ)).
Proof.
  induction children as [|child children IH]; intros p c σ Hall; [reflexivity|].
  apply Forall_cons in Hall as [Hc Hall].
  cbn [Members.push_all Members.push].
  rewrite (body_push_symbol p c child Hc). cbn [mbind Js.completion_bind].
  rewrite (IH _ _ _ Hall). cbn [omap list_omap].
  destruct (body_symbol child); reflexivity.
Qed.

(** X16.  A function or method body that is pushed its children collects
    the symbols of its simple variables, closures, anonymous classes,
    calls and catch-clause variables, in their order, as one collection
    would.  The transformer of a closure and the one of an anonymous
    class always give a symbol: the closure the one that its getter
    computes, with its children under its scope.  A child of one of those
    phrase types that has no symbol (a variable variable, a [define] call
    without a string-literal name) makes the push throw, and the walk of
    the body ends there. *)
Theorem body_collects_or_throws p children σ :
  (Forall (λ child, ¬ symbol_missing child) children →
   push_all (new_FunctionDeclarationBodyTransform p) children σ
   = Some (Js.Return
             (FunctionDeclarationBodyTransform p
                (UniqueSymbolCollection.pushMany (omap body_symbol children)
                   UniqueSymbolCollection.new), σ)))
  ∧ (Exists symbol_missing children →
     push_all (new_FunctionDeclarationBodyTransform p) children σ
     = Some (Js.TypeError "Cannot read property 'kind' of undefined"))
  ∧ (∀ s associated,
       ¬ symbol_missing (AnonymousClassDeclarationTransform s associated)
       ∧ body_symbol (AnonymousClassDeclarationTransform s associated) = Some s)
  ∧ (∀ s c,
       ¬ symbol_missing (AnonymousFunctionCreationExpressionTransform s c)
       ∧ body_symbol (AnonymousFunctionCreationExpressionTransform s c)
         = Some (PhpSymbolOps.set_children
                   (setScope (UniqueSymbolCollection.toArray c) (name s)) s)).
Proof.
  split; [apply body_push_all_symbols|]. split.
  2:{ split; intros; (split; [intros [_ H]; discriminate H | reflexivity]). }
  unfold new_FunctionDeclarationBodyTransform.
  generalize UniqueSymbolCollection.new as c.
  induction children as [|child children IH]; intros c Hex.
  - apply Exists_nil in Hex. destruct Hex.
  - cbn [Members.push_all Members.push].
    destruct (symbol_missing_dec child) as [Hm|Hm].
    + rewrite (body_push_missing p c child Hm). reflexivity.
    + rewrite (body_push_symbol p c child Hm). cbn [mbind Js.completion_bind].
      apply IH. apply Exists_cons in Hex as [Hex|Hex]; [contradiction | exact Hex].
Qed.

(** X17.  A simple variable with a [VariableName] token gives its symbol
    to the body of a function and to the file alike.  A variable variable,
    which has no such token and so no symbol, is passed over by the file,
    but makes the push of a body throw. *)
Theorem variable_variable_in_body_and_file children n location σ p c :
  ∃ t' σ',
    Transformer.push_all resolveNotFullyQualified resolveRelative nameResolver
      (SimpleVariableTransform n location None None) children σ = Js.Return (t', σ')
    ∧ match Names.variable_name children with
      | Some v =>
          let s := PhpSymbolOps.create SymbolKind.Variable_ v location in
          body_push p c (Node_ t')
          = Js.Return (FunctionDeclarationBodyTransform p (UniqueSymbolCollection.push s c))
          ∧ FileTransform_push setScope c (Node_ t') = UniqueSymbolCollection.push s c
      | None =>
          body_push p c (Node_ t')
          = Js.TypeError "Cannot read property 'kind' of undefined"
          ∧ FileTransform_push setScope c (Node_ t') = c
      end.
Proof.
  destruct (simple_variable_children resolveNotFullyQualified resolveRelative nameResolver
              children n location None None σ) as (t' & σ' & Hpush & Hres).
  exists t', σ'. split; [exact Hpush|].
  destruct (Names.variable_name children) as [v|].
  - destruct Hres as (l & -> & _). split; reflexivity.
  - destruct Hres as [-> _]. split; reflexivity.
Qed.

(** The doc block of a symbol changes its [doc], and the children of a
    class, a trait or an interface; nothing else. *)
Lemma assignPhpDocInfoToSymbol_frame s doc :
  let s' := assignPhpDocInfoToSymbol nameResolve findVarTag findParamTag returnTag
              nameResolver s doc in
  kind s' = kind s ∧ name s' = name s ∧ location s' = location s
  ∧ modifiers s' = modifiers s ∧ type s' = type s ∧ value s' = value s.
Proof.
  unfold assignPhpDocInfoToSymbol. destruct doc as [[d dl]|]; [|simpl; auto 10].
  repeat match goal with
         | |- context [if ?b then _ else _] => destruct b
         | |- context [match ?o with Some _ => _ | None => _ end] => destruct o
         end; simpl; auto 10.
Qed.

(** X18.  The symbol of a method that has received its header and its body
    is of kind [Method], has the name, the modifiers and the return type
    of the header, and has for children, under the scope of the method,
    what a single collection keeps of the parameters followed by the
    symbols of the body: a variable of the body that is named like a
    parameter, or like an earlier variable, is not listed again. *)
Theorem method_symbol methodLocation doc n m nm ps rt r bodyChildren σ :
  Forall (λ child, ¬ symbol_missing child) bodyChildren →
  ∃ body t s,
    push_all (new_FunctionDeclarationBodyTransform PhraseType.MethodDeclarationBody)
      bodyChildren σ = Some (Js.Return (body, σ))
    ∧ push_all
        (new_MethodDeclarationTransform nameResolve findVarTag findParamTag returnTag
           nameResolver methodLocation doc)
        [MethodDeclarationHeaderTransformer n m nm ps rt r; body] σ
      = Some (Js.Return (t, σ))
    ∧ symbol_of t = Some s
    ∧ kind s = SymbolKind.Method ∧ name s = nm ∧ modifiers s = m ∧ type s = rt
    ∧ location s = methodLocation
    ∧ children s
      = Some (setScope
                (UniqueSymbolCollection.toArray
                   (UniqueSymbolCollection.pushMany (ps ++ omap body_symbol bodyChildren)
                      UniqueSymbolCollection.new)) nm).
Proof.
  intros Hall.
  pose proof (assignPhpDocInfoToSymbol_frame
                (PhpSymbolOps.create SymbolKind.Method "" methodLocation) doc)
    as (Hk & _ & Hl & _).
  eexists _, _, _. split; [apply (body_push_all_symbols _ _ _ _ Hall)|].
  split; [reflexivity|]. split; [reflexivity|].
  cbn. repeat split; try assumption.
  do 2 f_equal. rewrite pushMany_app. f_equal.
  apply pushMany_collected, wf_pushMany, wf_new.
Qed.

End BodyExtras.

Lemma body_collects_or_throws_witness :
  sample_member_push_all
    (Members.new_FunctionDeclarationBodyTransform PhraseType.FunctionDeclarationBody)
    body_children_closure_class Store_.empty
  = Some (Js.Return
            (FunctionDeclarationBodyTransform PhraseType.FunctionDeclarationBody
               (UniqueSymbolCollection.pushMany
                  [variable_a; PhpSymbolOps.set_children [variable_b] closure_symbol;
                   anonymous_class_symbol]
                  UniqueSymbolCollection.new), Store_.empty))
  ∧ sample_member_push_all
      (Members.new_FunctionDeclarationBodyTransform PhraseType.FunctionDeclarationBody)
      body_children_variable_variable Store_.empty
    = Some (Js.TypeError "Cannot read property 'kind' of undefined").
Proof.
  split.
  - apply (body_collects_or_throws sample_nameResolve no_named_tag no_named_tag
             no_return_tag keep_scope "" PhraseType.FunctionDeclarationBody
             body_children_closure_class Store_.empty).
    repeat apply Forall_cons_2; try apply Forall_nil_2;
      intros [(pt & H1 & _) H2]; first [discriminate H2 | discriminate H1].
  - apply (body_collects_or_throws sample_nameResolve no_named_tag no_named_tag
             no_return_tag keep_scope "" PhraseType.FunctionDeclarationBody
             body_children_variable_variable Store_.empty).
    apply Exists_cons_tl, Exists_cons_hd.
    split; [exists PhraseType.SimpleVariable; split; reflexivity | reflexivity].
Defined.

Lemma method_symbol_witness :
  ∃ body t s,
    sample_member_push_all
      (Members.new_FunctionDeclarationBodyTransform PhraseType.MethodDeclarationBody)
      body_children_a_e_a Store_.empty = Some (Js.Return (body, Store_.empty))
    ∧ sample_member_push_all
        (Members.new_MethodDeclarationTransform sample_nameResolve no_named_tag
           no_named_tag no_return_tag "" here None)
        [MethodDeclarationHeaderTransformer 4 SymbolModifier.Public "f" [variable_a]
           (Some "") None; body] Store_.empty
      = Some (Js.Return (t, Store_.empty))
    ∧ Members.symbol_of keep_scope t = Some s
    ∧ name s = "f"
    ∧ children s = Some [variable_a; exception_e].
Proof.
  destruct (method_symbol sample_nameResolve no_named_tag no_named_tag no_return_tag
              keep_scope "" here None 4%nat SymbolModifier.Public "f" [variable_a]
              (Some "") None body_children_a_e_a Store_.empty)
    as (body & t & s & Hbody & Ht & Hs & _ & Hname & _ & _ & _ & Hchildren).
  - repeat apply Forall_cons_2; try apply Forall_nil_2;
      intros [(pt & H1 & _) H2]; first [discriminate H2 | discriminate H1].
  - exists body, t, s. repeat split; assumption.
Defined.

(** ** Field declarations *)

Section FieldExtras.

Import Members.

Context {NameResolver : Type}.
Variable nameResolve : string → NameResolver → string.
Variable findVarTag : PhpDoc → string → option Tag.
Variable findParamTag : PhpDoc → string → option Tag.
Variable returnTag : PhpDoc → option Tag.
Variable setScope : list PhpSymbol → string → list PhpSymbol.
Variable nameResolver : NameResolver.

#[local] Abbreviation push_all :=
  (Members.push_all nameResolve findVarTag findParamTag returnTag setScope nameResolver).
#[local] Abbreviation symbol_of := (Members.symbol_of setScope).

Lemma field_push_all children :
  ∀ p e m symbols σ,
    Forall (λ c, phraseType c ≠ Some PhraseType.MemberModifierList) children →
    push_all (FieldDeclarationTransform p e m symbols) children σ
    = Some (Js.Return
              (FieldDeclarationTransform p e m
                 (symbols
                  ++ ((λ s, PhpSymbolOps.set_modifiers (Z.lor (modifiers s) m) s)
                        <$> omap (λ c, if bool_decide (phraseType c = e)
                                       then symbol_of c else None) children)), σ)).
Proof.
  induction children as [|c children IH]; intros p e m symbols σ Hno.
  - simpl. rewrite app_nil_r. reflexivity.
  - apply Forall_cons in Hno as [Hc Hno].
    cbn [Members.push_all Members.push]. unfold FieldDeclarationTransform_push.
    unfold is_phrase. rewrite bool_decide_eq_false_2 by exact Hc.
    cbn [omap list_omap].
    destruct (bool_decide (phraseType c = e)).
    + destruct (symbol_of c) as [s|].
      * rewrite (IH _ _ _ _ _ Hno). rewrite <- app_assoc. reflexivity.
      * apply (IH _ _ _ _ _ Hno).
    + apply (IH _ _ _ _ _ Hno).
Qed.

(** X19.  A field declaration gives each of its elements the modifiers of
    its modifier list, and [Public] when it has no such list.  Unlike the
    header of a method, it adds no [Public] to a list that names no
    visibility: the properties of [static $count, $total;] are [Static]
    and nothing else.  The symbols are those of the children of the
    element type, in their order. *)
Theorem field_declaration_modifiers p e children σ :
  Forall (λ c, phraseType c ≠ Some PhraseType.MemberModifierList) children →
  let elements :=
    omap (λ c, if bool_decide (phraseType c = e) then symbol_of c else None) children in
  push_all (new_FieldDeclarationTransform p e) children σ
  = Some (Js.Return
            (FieldDeclarationTransform p e SymbolModifier.Public
               ((λ s, PhpSymbolOps.set_modifiers
                        (Z.lor (modifiers s) SymbolModifier.Public) s) <$> elements), σ))
  ∧ ∀ m,
      push_all (new_FieldDeclarationTransform p e)
        (MemberModifierListTransform m :: children) σ
      = Some (Js.Return
                (FieldDeclarationTransform p e m
                   ((λ s, PhpSymbolOps.set_modifiers (Z.lor (modifiers s) m) s)
                      <$> elements), σ)).
Proof.
  intros Hno elements. split.
  - apply (field_push_all children p e SymbolModifier.Public [] σ Hno).
  - intros m. apply (field_push_all children p e m [] σ Hno).
Qed.

End FieldExtras.

Lemma field_declaration_modifiers_witness :
  sample_member_push_all
    (Members.new_FieldDeclarationTransform PhraseType.PropertyDeclaration
       (Some PhraseType.PropertyElement))
    (MemberModifierListTransform SymbolModifier.Static :: static_property_elements)
    Store_.empty
  = Some (Js.Return
            (FieldDeclarationTransform PhraseType.PropertyDeclaration
               (Some PhraseType.PropertyElement) SymbolModifier.Static
               [ PhpSymbolOps.set_modifiers SymbolModifier.Static property_count;
                 PhpSymbolOps.set_modifiers SymbolModifier.Static property_total ],
             Store_.empty)).
Proof.
  apply (field_declaration_modifiers sample_nameResolve no_named_tag no_named_tag
           no_return_tag keep_scope "" PhraseType.PropertyDeclaration
           (Some PhraseType.PropertyElement) static_property_elements Store_.empty).
  repeat constructor; discriminate.
Defined.

(** ** Parameter declarations *)

Section ParameterExtras.

Import Members.

Context {NameResolver : Type}.
Variable nameResolve : string → NameResolver → string.
Variable findVarTag : PhpDoc → string → option Tag.
Variable findParamTag : PhpDoc → string → option Tag.
Variable returnTag : PhpDoc → option Tag.
Variable setScope : list PhpSymbol → string → list PhpSymbol.
Variable nameResolver : NameResolver.

#[local] Abbreviation push_all :=
  (Members.push_all nameResolve findVarTag findParamTag returnTag setScope nameResolver).
#[local] Abbreviation parameter_push :=
  (Members.ParameterDeclarationTransformer_push nameResolve findVarTag findParamTag
     returnTag nameResolver).

(** Only a transformer without phrase type has a token type. *)
Lemma tokenType_phraseType c k : tokenType c = Some k → phraseType c = None.
Proof.
  destruct c as [t| | | | | | | | | | | |]; simpl; try discriminate; try reflexivity.
  destruct t; simpl; try discriminate; reflexivity.
Qed.

Lemma is_phrase_not_token p c k : is_phrase p c = true → is_token k c = false.
Proof.
  unfold is_phrase, is_token. intros Hp. apply bool_decide_eq_true in Hp.
  apply bool_decide_eq_false. intros Hk. apply tokenType_phraseType in Hk. congruence.
Qed.

Lemma is_token_other k k' c : is_token k c = true → k ≠ k' → is_token k' c = false.
Proof.
  unfold is_token. intros Hk Hne. apply bool_decide_eq_true in Hk.
  apply bool_decide_eq_false. congruence.
Qed.

Lemma existsb_is_token k children :
  existsb (is_token k) children = true ↔ Some k ∈ tokenType <$> children.
Proof.
  rewrite existsb_exists, list_elem_of_fmap. unfold is_token. split.
  - intros (c & Hin & Hk). apply bool_decide_eq_true in Hk.
    exists c. split; [congruence | apply list_elem_of_In, Hin].
  - intros (c & Hk & Hin). exists c. split; [apply list_elem_of_In, Hin|].
    apply bool_decide_eq_true. congruence.
Qed.

Lemma parameter_push_step n loc0 doc s r c σ t σ1 :
  parameter_push n loc0 doc s r c σ = Js.Return (t, σ1) →
  ∃ s1 r1,
    t = ParameterDeclarationTransformer n loc0 doc s1 r1
    ∧ kind s1 = kind s ∧ location s1 = location s
    ∧ Z.testbit (modifiers s1) 10 = Z.testbit (modifiers s) 10 || is_token TokenType.Ampersand c
    ∧ Z.testbit (modifiers s1) 11 = Z.testbit (modifiers s) 11 || is_token TokenType.Ellipsis c
    ∧ if is_token TokenType.VariableName c
      then ∃ text1 range1,
             name s1 = text1 ∧ r1 = Some (length (refs σ))
             ∧ σ1 = Store_.assign n (SlotRef (length (refs σ)))
                      (Store_.alloc (Reference.create SymbolKind.Parameter_ text1 range1) σ).2
      else name s1 = name s ∧ r1 = r ∧ σ1 = σ.
Proof.
  unfold Members.ParameterDeclarationTransformer_push.
  destruct (is_phrase PhraseType.TypeDeclaration c) eqn:E1.
  { intros [= <- <-]. rewrite !(is_phrase_not_token _ _ _ E1), !orb_false_r.
    eexists _, _. split; [reflexivity|]. simpl. auto 10. }
  destruct (is_token TokenType.Ampersand c) eqn:E2.
  { intros [= <- <-].
    rewrite (is_token_other _ TokenType.Ellipsis _ E2) by discriminate.
    rewrite (is_token_other _ TokenType.VariableName _ E2) by discriminate.
    eexists _, _. split; [reflexivity|].
    unfold PhpSymbolOps.set_modifiers. cbn [modifiers kind location name].
    rewrite !Z.lor_spec.
    change (Z.testbit SymbolModifier.Reference 10) with true.
    change (Z.testbit SymbolModifier.Reference 11) with false.
    rewrite !orb_true_r, !orb_false_r. auto 10. }
  destruct (is_token TokenType.Ellipsis c) eqn:E3.
  { intros [= <- <-].
    rewrite (is_token_other _ TokenType.VariableName _ E3) by discriminate.
    eexists _, _. split; [reflexivity|].
    unfold PhpSymbolOps.set_modifiers. cbn [modifiers kind location name].
    rewrite !Z.lor_spec.
    change (Z.testbit SymbolModifier.Variadic 10) with false.
    change (Z.testbit SymbolModifier.Variadic 11) with true.
    rewrite !orb_true_r, !orb_false_r. auto 10. }
  destruct (is_token TokenType.VariableName c) eqn:E4.
  { destruct (text c) as [text1|]; [|discriminate].
    destruct (Members.location_of c) as [location1|]; [|discriminate].
    unfold Store_.alloc. intros [= <- <-].
    pose proof (assignPhpDocInfoToSymbol_frame nameResolve findVarTag findParamTag
                  returnTag nameResolver (set_name text1 s) doc)
      as (Hk & Hn & Hl & Hm & _).
    eexists _, _. split; [reflexivity|]. rewrite Hk, Hn, Hl, Hm, !orb_false_r. simpl.
    repeat split. exists text1, (range location1). auto. }
  intros [= <- <-]. eexists _, _. split; [reflexivity|].
  rewrite !orb_false_r. simpl. auto 10.
Qed.

Lemma parameter_push_all n loc0 doc children :
  ∀ s r σ t σ',
    push_all (ParameterDeclarationTransformer n loc0 doc s r) children σ
    = Some (Js.Return (t, σ')) →
    ∃ s' r',
      t = ParameterDeclarationTransformer n loc0 doc s' r'
      ∧ kind s' = kind s ∧ location s' = location s
      ∧ Z.testbit (modifiers s') 10
        = Z.testbit (modifiers s) 10 || existsb (is_token TokenType.Ampersand) children
      ∧ Z.testbit (modifiers s') 11
        = Z.testbit (modifiers s) 11 || existsb (is_token TokenType.Ellipsis) children
      ∧ if existsb (is_token TokenType.VariableName) children
        then ∃ l range1,
               r' = Some l
               ∧ Store_.deref l σ'
                 = Some (Reference.create SymbolKind.Parameter_ (name s') range1)
               ∧ slots σ' !! n = Some (SlotRef l)
        else name s' = name s ∧ r' = r ∧ σ' = σ.
Proof.
  induction children as [|c children IH]; intros s r σ t σ' Hall.
  - simpl in Hall. injection Hall as <- <-. exists s, r. simpl.
    rewrite !orb_false_r. auto 10.
  - cbn [Members.push_all Members.push] in Hall.
    destruct (parameter_push n loc0 doc s r c σ) as [[t1 σ1]|e] eqn:Estep;
      [|discriminate Hall].
    apply parameter_push_step in Estep
      as (s1 & r1 & -> & Hk1 & Hl1 & Ha1 & He1 & Hv1).
    apply IH in Hall as (s' & r' & -> & Hk & Hl & Ha & He & Hv).
    exists s', r'. split; [reflexivity|].
    split; [congruence|]. split; [congruence|].
    split; [rewrite Ha, Ha1; cbn [existsb]; symmetry; apply orb_assoc|].
    split; [rewrite He, He1; cbn [existsb]; symmetry; apply orb_assoc|].
    cbn [existsb].
    destruct (existsb (is_token TokenType.VariableName) children).
    + rewrite orb_true_r. exact Hv.
    + rewrite orb_false_r. destruct Hv as (Hn & -> & ->).
      destruct (is_token TokenType.VariableName c).
      * destruct Hv1 as (text1 & range1 & Hn1 & -> & ->).
        exists (length (refs σ)), range1. split; [reflexivity|]. split.
        -- unfold Store_.deref, Store_.assign, Store_.alloc. simpl.
           rewrite lookup_app_r by lia. rewrite Nat.sub_diag. simpl. congruence.
        -- unfold Store_.assign. simpl. apply lookup_insert_eq.
      * destruct Hv1 as (Hn1 & -> & ->). split; [congruence|]. auto.
Qed.

(** X20.  The symbol of a parameter declaration that has been pushed its
    children is of kind [Parameter] and at the location of the
    declaration; it is by reference exactly when an ampersand token is
    among the children, and variadic exactly when an ellipsis token is.
    With a [VariableName] token among them, the reference object in the
    slot of the node is of kind [Parameter] and has the name of the
    symbol; without one, the symbol has the empty name, there is no
    reference, and the store is untouched. *)
Theorem parameter_declaration_symbol n loc0 doc children σ t σ' :
  push_all (new_ParameterDeclarationTransformer n loc0 doc) children σ
  = Some (Js.Return (t, σ')) →
  ∃ s r,
    t = ParameterDeclarationTransformer n loc0 doc s r
    ∧ kind s = SymbolKind.Parameter_ ∧ location s = loc0
    ∧ (SymbolModifier.has (modifiers s) SymbolModifier.Reference
       ↔ Some TokenType.Ampersand ∈ tokenType <$> children)
    ∧ (SymbolModifier.has (modifiers s) SymbolModifier.Variadic
       ↔ Some TokenType.Ellipsis ∈ tokenType <$> children)
    ∧ (Some TokenType.VariableName ∈ tokenType <$> children →
       ∃ l range1,
         r = Some l
         ∧ Store_.deref l σ' = Some (Reference.create SymbolKind.Parameter_ (name s) range1)
         ∧ slots σ' !! n = Some (SlotRef l))
    ∧ (Some TokenType.VariableName ∉ tokenType <$> children →
       name s = "" ∧ r = None ∧ σ' = σ).
Proof.
  intros Hall.
  apply parameter_push_all in Hall as (s & r & -> & Hk & Hl & Ha & He & Hv).
  exists s, r. split; [reflexivity|]. split; [exact Hk|]. split; [exact Hl|].
  split; [|split; [|split]].
  - rewrite (has_bit (modifiers s) 10) by lia. rewrite Ha. simpl.
    apply existsb_is_token.
  - rewrite (has_bit (modifiers s) 11) by lia. rewrite He. simpl.
    apply existsb_is_token.
  - intros Hin. apply existsb_is_token in Hin. rewrite Hin in Hv. exact Hv.
  - intros Hnot.
    destruct (existsb (is_token TokenType.VariableName) children) eqn:Ev.
    + exfalso. apply Hnot, existsb_is_token, Ev.
    + exact Hv.
Qed.

End ParameterExtras.

Lemma parameter_declaration_symbol_witness :
  ∃ t σ' s,
    sample_member_push_all
      (Members.new_ParameterDeclarationTransformer 5 (mkPackedLocation 0 (18%Z, 27%Z)) None)
      by_reference_rest_children Store_.empty = Some (Js.Return (t, σ'))
    ∧ Members.symbol_of keep_scope t = Some s
    ∧ SymbolModifier.has (modifiers s) SymbolModifier.Reference
    ∧ SymbolModifier.has (modifiers s) SymbolModifier.Variadic.
Proof.
  eexists _, _.
  destruct (parameter_declaration_symbol sample_nameResolve no_named_tag no_named_tag
              no_return_tag keep_scope "" 5%nat (mkPackedLocation 0 (18%Z, 27%Z)) None
              by_reference_rest_children Store_.empty _ _ eq_refl)
    as (s & r & Ht & _ & _ & Ha & He & _).
  exists s. split; [reflexivity|]. split; [rewrite Ht; reflexivity|]. split.
  - apply Ha, list_elem_of_In. simpl. auto.
  - apply He, list_elem_of_In. simpl. auto.
Defined.

(** ** Class constants *)

Section ConstantExtras.

Import Members.

Context {NameResolver : Type}.
Variable nameResolve : string → NameResolver → string.
Variable findVarTag : PhpDoc → string → option Tag.
Variable findParamTag : PhpDoc → string → option Tag.
Variable returnTag : PhpDoc → option Tag.
Variable setScope : list PhpSymbol → string → list PhpSymbol.
Variable nameResolver : NameResolver.

#[local] Abbreviation push_all :=
  (Members.push_all nameResolve findVarTag findParamTag returnTag setScope nameResolver).

Lemma has_lor_l flag m : SymbolModifier.has (Z.lor flag m) flag.
Proof.
  unfold SymbolModifier.has. apply Z.bits_inj'. intros i _.
  rewrite Z.land_spec, Z.lor_spec.
  destruct (Z.testbit flag i), (Z.testbit m i); reflexivity.
Qed.

Lemma constant_push_all n loc0 doc children :
  ∀ s σ t σ',
    push_all (ClassConstantElementTransform n loc0 doc s) children σ
    = Some (Js.Return (t, σ')) →
    ∃ s',
      t = ClassConstantElementTransform n loc0 doc s'
      ∧ kind s' = kind s ∧ modifiers s' = modifiers s ∧ location s' = location s.
Proof.
  induction children as [|c children IH]; intros s σ t σ' Hall.
  - simpl in Hall. injection Hall as <- <-. exists s. auto.
  - cbn [Members.push_all Members.push] in Hall.
    unfold Members.ClassConstantElementTransform_push in Hall.
    destruct (is_phrase PhraseType.Identifier c).
    + destruct (Members.location_of c) as [location1|]; [|discriminate Hall].
      unfold Store_.alloc in Hall.
      apply IH in Hall as (s' & -> & Hk & Hm & Hl).
      pose proof (assignPhpDocInfoToSymbol_frame nameResolve findVarTag findParamTag
                    returnTag nameResolver (set_name (default "" (text c)) s) doc)
        as (Hk1 & _ & Hl1 & Hm1 & _).
      exists s'. split; [reflexivity|].
      rewrite Hk, Hm, Hl, Hk1, Hm1, Hl1. auto.
    + destruct (scalar_literal c);
        apply IH in Hall as (s' & -> & Hk & Hm & Hl); exists s'; auto.
Qed.

(** X21.  The symbol of a class constant element that has been pushed its
    children is of kind [ClassConstant], at the location of the element,
    and [Static] and nothing else; the declaration that collects it adds
    the modifiers of its modifier list, so that the constant is [Static]
    whatever the list says. *)
Theorem class_constant_is_static n loc0 doc children σ t σ' m symbols :
  push_all (new_ClassConstantElementTransform n loc0 doc) children σ
  = Some (Js.Return (t, σ')) →
  ∃ s,
    t = ClassConstantElementTransform n loc0 doc s
    ∧ kind s = SymbolKind.ClassConstant
    ∧ location s = loc0
    ∧ modifiers s = SymbolModifier.Static
    ∧ ∃ s',
        FieldDeclarationTransform_push setScope PhraseType.ClassConstDeclaration
          (Some PhraseType.ClassConstElement) m symbols t
        = FieldDeclarationTransform PhraseType.ClassConstDeclaration
            (Some PhraseType.ClassConstElement) m (symbols ++ [s'])
        ∧ kind s' = SymbolKind.ClassConstant
        ∧ name s' = name s
        ∧ modifiers s' = Z.lor SymbolModifier.Static m
        ∧ SymbolModifier.has (modifiers s') SymbolModifier.Static.
Proof.
  intros Hall. apply constant_push_all in Hall as (s & -> & Hk & Hm & Hl).
  exists s. split; [reflexivity|]. split; [exact Hk|]. split; [exact Hl|].
  split; [exact Hm|].
  eexists. split; [reflexivity|]. simpl. rewrite Hm.
  split; [exact Hk|]. split; [reflexivity|]. split; [reflexivity|].
  apply has_lor_l.
Qed.

End ConstantExtras.

Lemma class_constant_is_static_witness :
  ∃ t σ' s,
    sample_member_push_all (Members.new_ClassConstantElementTransform 3 here None)
      LIMIT_children Store_.empty = Some (Js.Return (t, σ'))
    ∧ t = ClassConstantElementTransform 3 here None s
    ∧ modifiers s = SymbolModifier.Static.
Proof.
  eexists _, _.
  destruct (class_constant_is_static sample_nameResolve no_named_tag no_named_tag
              no_return_tag keep_scope "" 3%nat here None LIMIT_children Store_.empty
              _ _ SymbolModifier.Private [] eq_refl)
    as (s & Ht & _ & _ & Hm & _).
  exists s. split; [reflexivity|]. split; [exact Ht | exact Hm].
Defined.
